(** * demes: the deme-graph builder of [demes/demes.py], embedded in Rocq

    The Python module builds a demographic model by mutating a [DemeGraph]
    object through its builder methods.  The embedding follows the source
    method by method:

    - numbers ([int]/[float]) are exact rationals extended with
      [float("inf")], compared as Python compares them; an [int] too
      large for a [float] makes [math.isinf] raise, as in Python; float
      rounding, [nan] and [-inf] are outside the model;
    - exceptions are values of [exn]; a method is a state transformer that
      returns either a value or a raised exception TOGETHER with the state
      reached so far, so that a mutation made before a [raise] stays visible;
    - [Epoch] objects are mutable and may be shared between the caller and
      several demes, so they live in a store ([Heap]) and a deme holds
      references to them. *)

From Stdlib Require Import QArith Qabs Qminmax.
From stdpp Require Import base option list strings gmap.

Local Open Scope Q_scope.
Local Open Scope list_scope.
Local Open Scope stdpp_scope.

(** ** Exceptions *)

(** The exception classes the modelled code can raise.  [InvalidRef] has no
    Python counterpart: it marks a reference that points outside the store,
    which cannot be written in Python. *)
Inductive exn : Type :=
| ValueError
| KeyError
| TypeError
| IndexError
| ZeroDivisionError
| OverflowError
| AssertionError
| UnboundLocalError
| InvalidRef.

Inductive result (A : Type) : Type :=
| Ok (a : A)
| Raise (e : exn).
Arguments Ok {A} a.
Arguments Raise {A} e.

(** ** Numbers *)

(** Python's [Number = Union[int, float]] without [float("nan")] and
    [float("-inf")]: a finite value, held exactly, or [float("inf")]. *)
Inductive Number : Type :=
| Fin (q : Q)
| Inf.

Definition Qlt_bool (a b : Q) : bool := negb (Qle_bool b a).

(** [a <= b], [a < b], [a == b] and [a != b] of Python on numbers. *)
Definition num_le (a b : Number) : bool :=
  match a, b with
  | Fin x, Fin y => Qle_bool x y
  | Fin _, Inf => true
  | Inf, Fin _ => false
  | Inf, Inf => true
  end.

Definition num_lt (a b : Number) : bool :=
  match a, b with
  | Fin x, Fin y => Qlt_bool x y
  | Fin _, Inf => true
  | Inf, _ => false
  end.

Definition num_eq (a b : Number) : bool :=
  match a, b with
  | Fin x, Fin y => Qeq_bool x y
  | Inf, Inf => true
  | _, _ => false
  end.

(** The magnitude from which an [int] no longer converts to a [float]:
    it would round to [2^1024], one step past the largest float. *)
Definition float_limit : Q := Eval vm_compute in inject_Z (2 ^ 1024 - 2 ^ 970).

(** [math.isinf(a)].  The argument is converted to a [float] first, and
    the conversion raises [OverflowError] on an [int] that is too large;
    a finite [float] is always below that limit. *)
Definition isinf (a : Number) : result bool :=
  match a with
  | Inf => Ok true
  | Fin q =>
      if Qle_bool float_limit (Qabs q) then Raise OverflowError else Ok false
  end.

(** The builtin [max(a, b)] and [min(a, b)]: the first argument is kept
    unless the second is strictly larger (resp. smaller). *)
Definition num_max (a b : Number) : Number := if num_lt a b then b else a.
Definition num_min (a b : Number) : Number := if num_lt b a then b else a.

(** [==] and [!=] on [Optional[Number]] fields: [None] equals only [None]. *)
Definition opt_num_eq (a b : option Number) : bool :=
  match a, b with
  | Some x, Some y => num_eq x y
  | None, None => true
  | _, _ => false
  end.

(** The builtin [sum] of a list of finite numbers: starts from [0] and adds
    from the left. *)
Definition sum (l : list Q) : Q := fold_left Qplus l 0.

(** [math.isclose(a, b)] with its default tolerances
    [rel_tol = 1e-09] and [abs_tol = 0.0]. *)
Definition rel_tol : Q := 1 # 1000000000.

Definition isclose (a b : Q) : bool :=
  Qeq_bool a b
  || (let diff := Qabs (b - a) in
      Qle_bool diff (Qabs (rel_tol * b))
      || Qle_bool diff (Qabs (rel_tol * a))
      || Qle_bool diff 0).

(** ** The method monad *)

(** A method over a state [S]: the state is returned on both outcomes. *)
Definition M (S A : Type) : Type := S -> result A * S.

Definition ret {S A} (a : A) : M S A := fun s => (Ok a, s).
Definition raise {S A} (e : exn) : M S A := fun s => (Raise e, s).
Definition bind {S A B} (m : M S A) (k : A -> M S B) : M S B :=
  fun s =>
    match m s with
    | (Ok a, s') => k a s'
    | (Raise e, s') => (Raise e, s')
    end.
Definition get {S} : M S S := fun s => (Ok s, s).
Definition put {S} (s : S) : M S unit := fun _ => (Ok tt, s).
(** A computation that cannot touch the state. *)
Definition pure {S A} (r : result A) : M S A := fun s => (r, s).

Notation "x <- m ;; k" := (bind m (fun x => k))
  (at level 100, m at next level, right associativity).
Notation "m ;;; k" := (bind m (fun _ => k))
  (at level 100, right associativity).

(** A [for] loop threading an accumulator. *)
Fixpoint foldM {S A B} (f : B -> A -> M S B) (b : B) (l : list A) : M S B :=
  match l with
  | [] => ret b
  | a :: l' => b' <- f b a ;; foldM f b' l'
  end.

(** A [for] loop run for its effects. *)
Fixpoint forM_ {S A} (f : A -> M S unit) (l : list A) : M S unit :=
  match l with
  | [] => ret tt
  | a :: l' => f a ;;; forM_ f l'
  end.

(** ** Validator functions *)

Module Validator.

Definition t : Type := Number -> result unit.

Definition positive : t := fun value =>
  if num_le value (Fin 0) then Raise ValueError else Ok tt.

Definition non_negative : t := fun value =>
  if num_lt value (Fin 0) then Raise ValueError else Ok tt.

Definition finite : t := fun value =>
  match isinf value with
  | Ok true => Raise ValueError
  | Ok false => Ok tt
  | Raise e => Raise e
  end.

Definition unit_interval : t := fun value =>
  if num_le (Fin 0) value && num_le value (Fin 1) then Ok tt
  else Raise ValueError.

(** A list of validators applied in order, as [validator=[f, g]]. *)
Fixpoint all (fs : list t) (value : Number) : result unit :=
  match fs with
  | [] => Ok tt
  | f :: fs' =>
      match f value with
      | Ok _ => all fs' value
      | Raise e => Raise e
      end
  end.

(** [optional]: the validators run only when the value is not [None]. *)
Definition optional (fs : list t) (value : option Number) : result unit :=
  match value with
  | Some v => all fs v
  | None => Ok tt
  end.

End Validator.

(** Sequencing of pure checks. *)
Definition and_then {A B} (r : result A) (k : A -> result B) : result B :=
  match r with
  | Ok a => k a
  | Raise e => Raise e
  end.

Notation "r ;> k" := (and_then r (fun _ => k))
  (at level 100, right associativity).

(** ** Entities *)

Abbreviation ID := string (only parsing).

Module Epoch.

(** The attributes of an [Epoch] object.  [start_time] is mandatory; the
    other three may hold [None]. *)
Record t : Type := mk {
  start_time : Number;
  end_time : option Number;
  initial_size : option Number;
  final_size : option Number;
}.

Definition set_end_time (v : option Number) (e : t) : t :=
  mk (start_time e) v (initial_size e) (final_size e).
Definition set_initial_size (v : option Number) (e : t) : t :=
  mk (start_time e) (end_time e) v (final_size e).
Definition set_final_size (v : option Number) (e : t) : t :=
  mk (start_time e) (end_time e) (initial_size e) v.

Definition is_None {A} (o : option A) : bool :=
  match o with None => true | Some _ => false end.

(** [__attrs_post_init__], after the attribute validators. *)
Definition __attrs_post_init__ (self : t) : result t :=
  if is_None (initial_size self) && is_None (final_size self) then
    Raise ValueError
  else if
    match end_time self with
    | Some e => num_le e (start_time self)
    | None => false
    end
  then Raise ValueError
  else if is_None (final_size self) then
    Ok (set_final_size (initial_size self) self)
  else Ok self.

(** [Epoch(start_time, end_time, initial_size, final_size)]: the attribute
    validators in declaration order, then [__attrs_post_init__]. *)
Definition new (start_time : Number) (end_time initial_size final_size : option Number)
  : result t :=
  Validator.all [Validator.non_negative; Validator.finite] start_time ;>
  Validator.optional [Validator.non_negative] end_time ;>
  Validator.optional [Validator.positive; Validator.finite] initial_size ;>
  Validator.optional [Validator.positive; Validator.finite] final_size ;>
  __attrs_post_init__ (mk start_time end_time initial_size final_size).

End Epoch.

Module Migration.

Record t : Type := mk {
  source : ID;
  dest : ID;
  time : Number;
  rate : Number;
}.

Definition new (source dest : ID) (time rate : Number) : result t :=
  Validator.all [Validator.non_negative; Validator.finite] time ;>
  Validator.all [Validator.non_negative; Validator.finite] rate ;>
  if String.eqb source dest then Raise ValueError
  else Ok (mk source dest time rate).

End Migration.

Module Pulse.

Record t : Type := mk {
  source : ID;
  dest : ID;
  time : Number;
  proportion : Number;
}.

Definition new (source dest : ID) (time proportion : Number) : result t :=
  Validator.all [Validator.non_negative; Validator.finite] time ;>
  Validator.unit_interval proportion ;>
  if String.eqb source dest then Raise ValueError
  else Ok (mk source dest time proportion).

End Pulse.

(** ** The store of [Epoch] objects *)

(** A reference to an [Epoch] object is its index in the store. *)
Abbreviation loc := nat (only parsing).
Abbreviation Heap := (list Epoch.t) (only parsing).

(** Reading the object behind a reference. *)
Definition load (l : loc) : M Heap Epoch.t := fun h =>
  match h !! l with
  | Some e => (Ok e, h)
  | None => (Raise InvalidRef, h)
  end.

(** An attribute assignment [obj.attr = v], as an update of the object. *)
Definition update (l : loc) (f : Epoch.t -> Epoch.t) : M Heap unit := fun h =>
  match h !! l with
  | Some e => (Ok tt, <[l := f e]> h)
  | None => (Raise InvalidRef, h)
  end.

(** A newly constructed object gets the next free reference. *)
Definition alloc (e : Epoch.t) : M Heap loc := fun h => (Ok (length h), h ++ [e]).

Definition when {S} (b : bool) (m : M S unit) : M S unit :=
  if b then m else ret tt.

Module Deme.

Record t : Type := mk {
  id : ID;
  ancestor : option ID;
  epochs : list loc;
}.

(** [Deme(id, ancestor, epochs)]: the [epochs] validator, then
    [__attrs_post_init__]. *)
Definition new (id : ID) (ancestor : option ID) (epochs : list loc) : result t :=
  if negb (length epochs =? 1)%nat then Raise ValueError
  else if
    match ancestor with
    | Some a => String.eqb id a
    | None => false
    end
  then Raise ValueError
  else Ok (mk id ancestor epochs).

(** [add_epoch].  Every attribute is read from the store at the moment
    the source reads it, so that the case where [epoch] and [prev_epoch]
    are one object behaves as in Python.  The method mutates
    [self.epochs]; the updated deme is the returned value. *)
Definition add_epoch (self : t) (epoch : loc) : M Heap t :=
  match last (epochs self) with
  | None => raise AssertionError
  | Some prev_epoch =>
      e <- load epoch ;;
      p <- load prev_epoch ;;
      if num_lt (Epoch.start_time e) (Epoch.start_time p) then
        raise ValueError
      else
        e <- load epoch ;;
        when (Epoch.is_None (Epoch.end_time e))
             (p <- load prev_epoch ;;
              update epoch (Epoch.set_end_time (Epoch.end_time p))) ;;;
        e <- load epoch ;;
        update prev_epoch (Epoch.set_end_time (Some (Epoch.start_time e))) ;;;
        e <- load epoch ;;
        when (Epoch.is_None (Epoch.initial_size e))
             (p <- load prev_epoch ;;
              update epoch (Epoch.set_initial_size (Epoch.final_size p))) ;;;
        e <- load epoch ;;
        when (Epoch.is_None (Epoch.final_size e))
             (e <- load epoch ;;
              update epoch (Epoch.set_final_size (Epoch.initial_size e))) ;;;
        ret (mk (id self) (ancestor self) (epochs self ++ [epoch]))
  end.

(** The [start_time] property: [self.epochs[0].start_time]. *)
Definition start_time (self : t) : M Heap Number :=
  match epochs self with
  | [] => raise IndexError
  | l :: _ => e <- load l ;; ret (Epoch.start_time e)
  end.

(** The [end_time] property: [self.epochs[-1].end_time]. *)
Definition end_time (self : t) : M Heap (option Number) :=
  match last (epochs self) with
  | None => raise IndexError
  | Some l => e <- load l ;; ret (Epoch.end_time e)
  end.

End Deme.

(** [enumerate]. *)
Definition enumerate {A} (l : list A) : list (nat * A) := imap pair l.

(** [itertools.permutations(l, 2)]: the ordered pairs of elements at
    distinct positions, in lexicographic order of the positions. *)
Definition permutations2 {A} (l : list A) : list (A * A) :=
  flat_map
    (fun ix => flat_map
       (fun jy => if (fst ix =? fst jy)%nat then [] else [(snd ix, snd jy)])
       (enumerate l))
    (enumerate l).

(** True division [a / b] of finite numbers. *)
Definition divide (a b : Q) : result Q :=
  if Qeq_bool b 0 then Raise ZeroDivisionError else Ok (a / b).

Module DemeGraph.

Record t : Type := mk {
  description : string;
  time_units : string;
  generation_time : Number;
  default_Ne : option Number;
  doi : option string;
  demes : list Deme.t;
  migrations : list Migration.t;
  pulses : list Pulse.t;
  _deme_map : gmap ID Deme.t;
}.

(** [DemeGraph(description, time_units, generation_time, default_Ne, doi)]
    with the three lists left to their [factory=list] default;
    [__attrs_post_init__] starts the id index as an empty dict. *)
Definition new (description time_units : string) (generation_time : Number)
    (default_Ne : option Number) (doi : option string) : result t :=
  Validator.all [Validator.positive; Validator.finite] generation_time ;>
  Validator.optional [Validator.positive; Validator.finite] default_Ne ;>
  Ok (mk description time_units generation_time default_Ne doi [] [] [] ∅).

Definition set_demes_and_map (ds : list Deme.t) (m : gmap ID Deme.t) (g : t) : t :=
  mk (description g) (time_units g) (generation_time g) (default_Ne g) (doi g)
     ds (migrations g) (pulses g) m.
Definition set_migrations (ms : list Migration.t) (g : t) : t :=
  mk (description g) (time_units g) (generation_time g) (default_Ne g) (doi g)
     (demes g) ms (pulses g) (_deme_map g).
Definition set_pulses (ps : list Pulse.t) (g : t) : t :=
  mk (description g) (time_units g) (generation_time g) (default_Ne g) (doi g)
     (demes g) (migrations g) ps (_deme_map g).

(** The state the builder methods run in: the store of [Epoch] objects
    and the graph object [self]. *)
Record World : Type := mkWorld {
  heap : Heap;
  graph : t;
}.

(** Running a method of an [Epoch] or a [Deme] inside a graph method. *)
Definition on_heap {A} (m : M Heap A) : M World A := fun w =>
  let (r, h) := m (heap w) in (r, mkWorld h (graph w)).

Definition self : M World t := fun w => (Ok (graph w), w).
Definition modify_self (f : t -> t) : M World unit := fun w =>
  (Ok tt, mkWorld (heap w) (f (graph w))).

Definition __getitem__ (deme_id : ID) : M World Deme.t :=
  g <- self ;;
  match _deme_map g !! deme_id with
  | Some d => ret d
  | None => raise KeyError
  end.

Definition __contains__ (deme_id : ID) : M World bool :=
  g <- self ;;
  ret (bool_decide (is_Some (_deme_map g !! deme_id))).

(** [deme].  [start_time] and [end_time] default to [0] and
    [float("inf")] in the source; here the caller passes them. *)
Definition deme (id : ID) (ancestor : option ID) (start_time end_time : Number)
    (initial_size final_size : option Number) (epochs : option (list loc))
  : M World unit :=
  initial_size <-
    match initial_size with
    | Some n => ret n
    | None =>
        g <- self ;;
        match default_Ne g with
        | Some n => ret n
        | None => raise ValueError
        end
    end ;;
  let final_size := default initial_size final_size in
  end_time <-
    match ancestor with
    | Some a =>
        known <- __contains__ a ;;
        if negb known then raise ValueError
        else
          anc <- __getitem__ a ;;
          on_heap (Deme.start_time anc)
    | None => ret end_time
    end ;;
  epoch <- pure (Epoch.new start_time (Some end_time)
                   (Some initial_size) (Some final_size)) ;;
  epoch <- on_heap (alloc epoch) ;;
  deme <- pure (Deme.new id ancestor [epoch]) ;;
  deme <-
    match epochs with
    | Some epochs => on_heap (foldM Deme.add_epoch deme epochs)
    | None => ret deme
    end ;;
  modify_self (fun g =>
    set_demes_and_map (demes g ++ [deme]) (<[Deme.id deme := deme]> (_deme_map g)) g).

Definition check_time_intersection (deme_id1 deme_id2 : ID)
    (time : option Number) (closed : bool) : M World (Number * Number) :=
  deme1 <- __getitem__ deme_id1 ;;
  deme2 <- __getitem__ deme_id2 ;;
  start1 <- on_heap (Deme.start_time deme1) ;;
  start2 <- on_heap (Deme.start_time deme2) ;;
  let time_lo := num_max start1 start2 in
  end1 <- on_heap (Deme.end_time deme1) ;;
  end2 <- on_heap (Deme.end_time deme2) ;;
  match end1, end2 with
  | Some end1, Some end2 =>
      let time_hi := num_min end1 end2 in
      match time with
      | Some time =>
          if (negb closed && negb (num_le time_lo time && num_lt time time_hi))
             || (closed && negb (num_le time_lo time && num_le time time_hi))
          then raise ValueError
          else ret (time_lo, time_hi)
      | None => ret (time_lo, time_hi)
      end
  | _, _ => raise TypeError
  end.

(** The loop [for deme_id in (source, dest)] that opens [migration] and
    [pulse]. *)
Definition check_in_graph (ids : list ID) : M World unit :=
  forM_ (fun deme_id =>
           known <- __contains__ deme_id ;;
           if negb known then raise ValueError else ret tt) ids.

Definition migration (source dest : ID) (rate : Number)
    (start_time end_time : option Number) : M World unit :=
  check_in_graph [source; dest] ;;;
  lo_hi <- check_time_intersection source dest start_time false ;;
  let time_lo := fst lo_hi in
  let start_time := default time_lo start_time in
  m <- pure (Migration.new source dest start_time rate) ;;
  modify_self (fun g => set_migrations (migrations g ++ [m]) g) ;;;
  match end_time with
  | Some end_time =>
      check_time_intersection source dest (Some end_time) false ;;;
      m <- pure (Migration.new source dest end_time (Fin 0)) ;;
      modify_self (fun g => set_migrations (migrations g ++ [m]) g)
  | None => ret tt
  end.

Definition symmetric_migration (demes : list ID) (rate : Number)
    (start_time end_time : option Number) : M World unit :=
  if (length demes <? 2)%nat then raise ValueError
  else
    forM_ (fun sd => migration (fst sd) (snd sd) rate start_time end_time)
          (permutations2 demes).

Definition opt_id_eq (a : option ID) (b : ID) : bool :=
  match a with
  | Some a => String.eqb a b
  | None => false
  end.

Definition pulse (source dest : ID) (proportion time : Number) : M World unit :=
  check_in_graph [source; dest] ;;;
  s <- __getitem__ source ;;
  d <- __getitem__ dest ;;
  if opt_id_eq (Deme.ancestor s) dest || opt_id_eq (Deme.ancestor d) source then
    raise ValueError
  else
    check_time_intersection source dest (Some time) true ;;;
    p <- pure (Pulse.new source dest time proportion) ;;
    modify_self (fun g => set_pulses (pulses g ++ [p]) g).

(** [max(self[anc].start_time for anc in ancestors)]. *)
Definition max_start_time (ancestors : list ID) : M World Number :=
  let start_of anc := (d <- __getitem__ anc ;; on_heap (Deme.start_time d)) in
  match ancestors with
  | [] => raise ValueError
  | anc :: rest =>
      first <- start_of anc ;;
      foldM (fun m anc => s <- start_of anc ;; ret (num_max m s)) first rest
  end.

(** The body of [subgraph]'s loop [for j, ancestor in enumerate(ancestors)];
    the value it returns is the one left in the variable [p]. *)
Definition subgraph_step (deme_id : ID) (proportions : list Q) (end_time : Number)
    (_ : option Q) (ja : nat * ID) : M World (option Q) :=
  let j := fst ja in
  let ancestor := snd ja in
  match proportions !! j with
  | None => raise IndexError
  | Some pj =>
      p <- pure (divide pj (sum (drop j proportions))) ;;
      pulse deme_id ancestor (Fin p) end_time ;;;
      ret (Some p)
  end.

(** [subgraph].  [proportions] holds finite numbers; the trailing
    [assert] reads the last value bound to [p]. *)
Definition subgraph (deme_id : ID) (ancestors : list ID) (proportions : list Q)
    (start_time : Number) (end_time : option Number)
    (initial_size final_size : option Number) (epochs : option (list loc))
  : M World unit :=
  if negb (length ancestors =? length proportions)%nat then raise ValueError
  else if negb (isclose (sum proportions) 1) then raise ValueError
  else
    end_time <-
      match end_time with
      | Some t => ret t
      | None => max_start_time ancestors
      end ;;
    deme deme_id None start_time end_time initial_size final_size epochs ;;;
    p <- foldM (subgraph_step deme_id proportions end_time)
               None (enumerate ancestors) ;;
    match p with
    | Some p => if Qeq_bool p 1 then ret tt else raise AssertionError
    | None => raise UnboundLocalError
    end.

(** *** [asdict_compact]: the [demes] entry

    The values stored in the dicts built for a deme: a scalar, or the
    list of per-epoch dicts under the key [epochs]. *)
Inductive scalar : Type :=
| SNone
| SNum (n : Number)
| SStr (s : string).

Definition of_opt (o : option Number) : scalar :=
  match o with
  | Some n => SNum n
  | None => SNone
  end.

Inductive dval : Type :=
| DScalar (s : scalar)
| DEpochs (l : list (gmap string scalar)).

(** The body of the loop [for j, epoch in enumerate(deme.epochs)]: the
    dict [e] built for the epoch at position [j]. *)
Definition epoch_dict (epochs : list Epoch.t) (j : nat) (epoch : Epoch.t)
  : result (gmap string scalar) :=
  let e : gmap string scalar := ∅ in
  let e :=
    if num_lt (Fin 0) (Epoch.start_time epoch)
    then <["start_time" := SNum (Epoch.start_time epoch)]> e else e in
  if opt_num_eq (Epoch.initial_size epoch) (Epoch.final_size epoch) then
    Ok (<["initial_size" := of_opt (Epoch.initial_size epoch)]> e)
  else
    let e := <["final_size" := of_opt (Epoch.final_size epoch)]> e in
    if (j =? 0)%nat || (j =? length epochs - 1)%nat then
      Ok (<["initial_size" := of_opt (Epoch.initial_size epoch)]> e)
    else
      match epochs !! (j - 1)%nat with
      | None => Raise IndexError
      | Some prev =>
          if negb (opt_num_eq (Epoch.initial_size epoch) (Epoch.final_size prev))
          then Ok (<["initial_size" := of_opt (Epoch.initial_size epoch)]> e)
          else Ok e
      end.

(** Collecting the results of a loop body that may raise. *)
Fixpoint collect {A B} (f : A -> result B) (l : list A) : result (list B) :=
  match l with
  | [] => Ok []
  | a :: l' =>
      match f a with
      | Ok b =>
          match collect f l' with
          | Ok bs => Ok (b :: bs)
          | Raise e => Raise e
          end
      | Raise e => Raise e
      end
  end.

(** Reading, in order, the objects a deme's [epochs] list refers to. *)
Fixpoint load_all (ls : list loc) : M Heap (list Epoch.t) :=
  match ls with
  | [] => ret []
  | l :: ls' => e <- load l ;; es <- load_all ls' ;; ret (e :: es)
  end.

(** The body of the loop [for deme in self.demes]: the dict [deme_dict]. *)
Definition deme_dict (deme : Deme.t) : M Heap (gmap string dval) :=
  epochs <- load_all (Deme.epochs deme) ;;
  let d : gmap string dval := ∅ in
  let d :=
    match Deme.ancestor deme with
    | Some a => <["ancestor" := DScalar (SStr a)]> d
    | None => d
    end in
  match epochs with
  | [] => raise AssertionError
  | first :: _ =>
      let d :=
        if num_lt (Fin 0) (Epoch.start_time first)
        then <["start_time" := DScalar (SNum (Epoch.start_time first))]> d
        else d in
      let d := <["initial_size" := DScalar (of_opt (Epoch.initial_size first))]> d in
      let d :=
        if negb (opt_num_eq (Epoch.final_size first) (Epoch.initial_size first))
        then <["final_size" := DScalar (of_opt (Epoch.final_size first))]> d
        else d in
      e_list <- pure (collect (fun je => epoch_dict epochs (fst je) (snd je))
                              (enumerate epochs)) ;;
      let d :=
        if (1 <? length e_list)%nat
        then <["epochs" := DEpochs (drop 1 e_list)]> d
        else d in
      ret d
  end.

(** The part of [asdict_compact] that fills [d["demes"]], a dict from
    deme id to [deme_dict]. *)
Definition asdict_compact_demes : M World (gmap ID (gmap string dval)) :=
  g <- self ;;
  if negb (0 <? length (demes g))%nat then raise AssertionError
  else
    foldM (fun (d : gmap ID (gmap string dval)) deme =>
             deme_dict <- on_heap (deme_dict deme) ;;
             ret (<[Deme.id deme := deme_dict]> d))
          ∅ (demes g).

(** *** [asdict_compact]: the [migrations] and [pulses] entries

    [m_dict] is a [defaultdict(list)] keyed by [(source, dest)] and read
    back with [items()], so the order of its keys matters: it is kept as a
    list of items.  [m_dict[key].append(migration)] extends the list of
    a key that is there, and puts a new key last. *)
Fixpoint m_dict_append (key : ID * ID) (migration : Migration.t)
    (m_dict : list ((ID * ID) * list Migration.t))
  : list ((ID * ID) * list Migration.t) :=
  match m_dict with
  | [] => [(key, [migration])]
  | (k, l) :: rest =>
      if bool_decide (k = key) then (k, l ++ [migration]) :: rest
      else (k, l) :: m_dict_append key migration rest
  end.

(** The loop [for migration in self.migrations] that fills [m_dict]. *)
Definition m_dict_of (migrations : list Migration.t)
  : list ((ID * ID) * list Migration.t) :=
  fold_left
    (fun m_dict migration =>
       m_dict_append (Migration.source migration, Migration.dest migration)
                     migration m_dict)
    migrations [].

(** The dict appended to [m_list] for [migration]: [source], [dest] and
    [rate], and [start_time] when it is not [time_lo]. *)
Definition migration_entry (source dest : ID) (time_lo : Number)
    (migration : Migration.t) : gmap string scalar :=
  let e : gmap string scalar :=
    <["rate" := SNum (Migration.rate migration)]>
      (<["dest" := SStr dest]> (<["source" := SStr source]> ∅)) in
  if negb (num_eq (Migration.time migration) time_lo)
  then <["start_time" := SNum (Migration.time migration)]> e else e.

(** [m_list[-1].update(end_time=...)], done when the time of the record
    that switches the rate off is not [time_hi]. *)
Definition with_end_time (time_hi : Number) (next : Migration.t)
    (e : gmap string scalar) : gmap string scalar :=
  if negb (num_eq (Migration.time next) time_hi)
  then <["end_time" := SNum (Migration.time next)]> e else e.

(** The [while True] loop over the records of one pair: the dicts it
    appends to [m_list].  Every turn takes the head of [m_sublist]; a
    record with a nonzero rate followed by one with rate [0] is folded
    into one dict. *)
Fixpoint compact_sublist (source dest : ID) (time_lo time_hi : Number)
    (m_sublist : list Migration.t) : result (list (gmap string scalar)) :=
  match m_sublist with
  | [] => Raise IndexError
  | migration :: m_sublist =>
      let e := migration_entry source dest time_lo migration in
      match m_sublist with
      | [] => Ok [e]
      | next :: rest =>
          if negb (num_eq (Migration.rate migration) (Fin 0))
             && num_eq (Migration.rate next) (Fin 0)
          then
            let e := with_end_time time_hi next e in
            match rest with
            | [] => Ok [e]
            | _ :: _ =>
                and_then (compact_sublist source dest time_lo time_hi rest)
                         (fun l => Ok (e :: l))
            end
          else
            and_then (compact_sublist source dest time_lo time_hi m_sublist)
                     (fun l => Ok (e :: l))
      end
  end.

(** The list [m_list] built from [self.migrations]. *)
Definition asdict_compact_migrations : M World (list (gmap string scalar)) :=
  g <- self ;;
  foldM (fun m_list (item : (ID * ID) * list Migration.t) =>
           let source := fst (fst item) in
           let dest := snd (fst item) in
           lo_hi <- check_time_intersection source dest None false ;;
           entries <- pure (compact_sublist source dest (fst lo_hi) (snd lo_hi)
                              (snd item)) ;;
           ret (m_list ++ entries))
        [] (m_dict_of (migrations g)).

(** [attr.asdict(pulse)]. *)
Definition pulse_asdict (pulse : Pulse.t) : gmap string scalar :=
  <["proportion" := SNum (Pulse.proportion pulse)]>
    (<["time" := SNum (Pulse.time pulse)]>
       (<["dest" := SStr (Pulse.dest pulse)]>
          (<["source" := SStr (Pulse.source pulse)]> ∅))).

(** *** [asdict_compact]: the whole dict

    The values the dict [d] holds. *)
Inductive cval : Type :=
| CScalar (s : scalar)
| CDemes (demes : gmap ID (gmap string dval))
| CRecords (records : list (gmap string scalar)).

(** [asdict_compact]: the dict [d] it returns. *)
Definition asdict_compact : M World (gmap string cval) :=
  g <- self ;;
  let d : gmap string cval :=
    <["generation_time" := CScalar (SNum (generation_time g))]>
      (<["time_units" := CScalar (SStr (time_units g))]>
         (<["description" := CScalar (SStr (description g))]> ∅)) in
  let d :=
    match doi g with
    | Some doi => <["doi" := CScalar (SStr doi)]> d
    | None => d
    end in
  let d :=
    match default_Ne g with
    | Some n => <["default_Ne" := CScalar (SNum n)]> d
    | None => d
    end in
  demes <- asdict_compact_demes ;;
  let d := <["demes" := CDemes demes]> d in
  d <-
    (if (0 <? length (migrations g))%nat then
       m_list <- asdict_compact_migrations ;;
       ret (<["migrations" := CRecords m_list]> d)
     else ret d) ;;
  let d :=
    if (0 <? length (pulses g))%nat
    then <["pulses" := CRecords (pulse_asdict <$> pulses g)]> d
    else d in
  ret d.

End DemeGraph.

(** The order on numbers that [num_le] decides. *)
Definition Nle (a b : Number) : Prop :=
  match a, b with
  | Fin x, Fin y => x <= y
  | _, Inf => True
  | Inf, Fin _ => False
  end.

(** The strict order that [num_lt] decides. *)
Definition Nlt (a b : Number) : Prop :=
  match a, b with
  | Fin x, Fin y => x < y
  | Fin _, Inf => True
  | Inf, _ => False
  end.

(** ** Observing the graph *)

Module Observe.
Import DemeGraph.

(** A deme as [attr.asdict] shows it: the epochs are the objects its
    references point to. *)
Record deme_view : Type := mk_view {
  view_id : ID;
  view_ancestor : option ID;
  view_epochs : list (option Epoch.t);
}.

Definition view (h : Heap) (d : Deme.t) : deme_view :=
  mk_view (Deme.id d) (Deme.ancestor d) ((fun l => h !! l) <$> Deme.epochs d).

(** [asdict]: the three collections of the graph in full form. *)
Definition asdict (w : World)
  : list deme_view * list Migration.t * list Pulse.t :=
  (view (heap w) <$> demes (graph w), migrations (graph w), pulses (graph w)).

(** What a caller can see of the graph: its full form and its id index. *)
Definition observe (w : World)
  : (list deme_view * list Migration.t * list Pulse.t) * gmap ID deme_view :=
  (asdict w, view (heap w) <$> _deme_map (graph w)).

(** Start and end time of the deme registered under an id, when the id,
    the epoch and the attribute are there. *)
Definition start_of (w : World) (deme_id : ID) : option Number :=
  d ← _deme_map (graph w) !! deme_id;
  l ← head (Deme.epochs d);
  e ← heap w !! l;
  Some (Epoch.start_time e).

Definition end_of (w : World) (deme_id : ID) : option Number :=
  d ← _deme_map (graph w) !! deme_id;
  l ← last (Deme.epochs d);
  e ← heap w !! l;
  Epoch.end_time e.

(** [time] lies in the interval from [lo] to [hi], closed at [hi] or not. *)
Definition inside (closed : bool) (lo hi time : Number) : bool :=
  num_le lo time && (if closed then num_le time hi else num_lt time hi).

(** The coexistence interval of two registered demes: from the later
    start to the earlier end. *)
Definition coexistence (w : World) (id1 id2 : ID) : option (Number * Number) :=
  start1 ← start_of w id1;
  start2 ← start_of w id2;
  end1 ← end_of w id1;
  end2 ← end_of w id2;
  Some (num_max start1 start2, num_min end1 end2).

(** A time or a rate that the attribute validators
    [[non_negative, finite]] accept. *)
Definition valid_time (t : Number) : Prop :=
  Validator.all [Validator.non_negative; Validator.finite] t = Ok tt.

(** The state with one more record at the end of [migrations]
    (resp. [pulses]), all else as it was. *)
Definition add_migration (m : Migration.t) (w : World) : World :=
  mkWorld (heap w) (set_migrations (migrations (graph w) ++ [m]) (graph w)).
Definition add_pulse (p : Pulse.t) (w : World) : World :=
  mkWorld (heap w) (set_pulses (pulses (graph w) ++ [p]) (graph w)).

(** The records one [migration] call appends for the pair [sd]. *)
Definition migration_records (w : World) (rate : Number)
    (start_time end_time : option Number) (sd : ID * ID) : list Migration.t :=
  match coexistence w sd.1 sd.2 with
  | Some (time_lo, _) =>
      Migration.mk sd.1 sd.2 (default time_lo start_time) rate
      :: match end_time with
         | Some t => [Migration.mk sd.1 sd.2 t (Fin 0)]
         | None => []
         end
  | None => []
  end.

Definition add_migrations (ms : list Migration.t) (w : World) : World :=
  mkWorld (heap w) (set_migrations (migrations (graph w) ++ ms) (graph w)).
Definition add_pulses (ps : list Pulse.t) (w : World) : World :=
  mkWorld (heap w) (set_pulses (pulses (graph w) ++ ps) (graph w)).

(** The state after [self._deme_map[deme.id] = deme] and
    [self.demes.append(deme)]. *)
Definition register (d : Deme.t) (g : t) : t :=
  set_demes_and_map (demes g ++ [d]) (<[Deme.id d := d]> (_deme_map g)) g.

(** The first epoch [deme] constructs: the size resolved from
    [default_Ne], the end time taken from the ancestor. *)
Definition first_epoch (w : World) (ancestor : option ID)
    (start_time end_time : Number) (initial_size final_size : option Number)
  : result Epoch.t :=
  match
    match initial_size with
    | Some n => Ok n
    | None =>
        match default_Ne (graph w) with
        | Some n => Ok n
        | None => Raise ValueError
        end
    end
  with
  | Raise e => Raise e
  | Ok initial_size =>
      match
        match ancestor with
        | None => Ok end_time
        | Some a =>
            match _deme_map (graph w) !! a with
            | None => Raise ValueError
            | Some anc => fst (Deme.start_time anc (heap w))
            end
        end
      with
      | Raise e => Raise e
      | Ok end_time =>
          Epoch.new start_time (Some end_time) (Some initial_size)
            (Some (default initial_size final_size))
      end
  end.

(** A method that leaves the store's size and every object outside [S]
    as they were. *)
Definition frames {A} (S : list loc) (m : M Heap A) : Prop :=
  forall h,
    length (snd (m h)) = length h
    /\ forall l, l ∉ S -> snd (m h) !! l = h !! l.

(** [e'] is [e] up to its [end_time]. *)
Definition same_but_end (e e' : Epoch.t) : Prop :=
  Epoch.start_time e' = Epoch.start_time e
  /\ Epoch.initial_size e' = Epoch.initial_size e
  /\ Epoch.final_size e' = Epoch.final_size e.

(** A method that changes at most the [end_time] of the objects outside
    [S]. *)
Definition keeps {A} (S : list loc) (m : M Heap A) : Prop :=
  forall h l e, l ∉ S -> h !! l = Some e ->
    exists e', snd (m h) !! l = Some e' /\ same_but_end e e'.

(** A method whose returned values all satisfy [P]. *)
Definition returns {S A} (P : A -> Prop) (m : M S A) : Prop :=
  forall s a s', m s = (Ok a, s') -> P a.

(** Every reference held by the graph points into the store. *)
Definition closed (w : World) : Prop :=
  (forall d l, d ∈ demes (graph w) -> l ∈ Deme.epochs d ->
               (l < length (heap w))%nat)
  /\ (forall i d l, _deme_map (graph w) !! i = Some d -> l ∈ Deme.epochs d ->
                    (l < length (heap w))%nat).

(** No deme of the graph holds the reference [l]. *)
Definition unused (w : World) (l : loc) : Prop :=
  (forall d, d ∈ demes (graph w) -> l ∉ Deme.epochs d)
  /\ (forall i d, _deme_map (graph w) !! i = Some d -> l ∉ Deme.epochs d).

(** An epoch whose times are both set, the start strictly before the
    end: what [Epoch.__attrs_post_init__] insists on. *)
Definition strictly_timed (e : Epoch.t) : Prop :=
  exists t, Epoch.end_time e = Some t /\ Nlt (Epoch.start_time e) t.

(** The epochs of a deme are contiguous and each is strictly timed. *)
Definition well_timed (v : deme_view) : Prop :=
  (forall i e1 e2,
      view_epochs v !! i = Some (Some e1) ->
      view_epochs v !! S i = Some (Some e2) ->
      Epoch.end_time e1 = Some (Epoch.start_time e2))
  /\ (forall e, Some e ∈ view_epochs v -> strictly_timed e).





(** The pulse [subgraph] emits for the ancestor at position [j]: its
    proportion is [proportions[j] / sum(proportions[j:])], the remaining
    mass being nonzero. *)
Definition renormalised (deme_id : ID) (proportions : list Q) (time : Number)
    (ja : nat * ID) (pulse : Pulse.t) : Prop :=
  exists pj,
    proportions !! ja.1 = Some pj
    /\ Qeq_bool (sum (drop ja.1 proportions)) 0 = false
    /\ pulse = Pulse.mk deme_id ja.2 time
                 (Fin (pj / sum (drop ja.1 proportions))).

(** The epochs of a deme follow one another: each ends where the next one
    starts, and starts no later than the next one. *)
Definition contiguous (h : Heap) (d : Deme.t) : Prop :=
  forall i l1 l2 e1 e2,
    Deme.epochs d !! i = Some l1 -> Deme.epochs d !! S i = Some l2 ->
    h !! l1 = Some e1 -> h !! l2 = Some e2 ->
    Epoch.end_time e1 = Some (Epoch.start_time e2)
    /\ Nle (Epoch.start_time e1) (Epoch.start_time e2).

(** The object behind [l] exists and its [end_time] is set. *)
Definition ended (h : Heap) (l : loc) : Prop :=
  exists e, h !! l = Some e /\ is_Some (Epoch.end_time e).

(** A method that never unsets an [end_time]. *)
Definition grows {A} (m : M Heap A) : Prop :=
  forall h l, ended h l -> ended (snd (m h)) l.

(** A deme with at least one epoch, all of whose epochs have their end
    set. *)
Definition timed (h : Heap) (d : Deme.t) : Prop :=
  Deme.epochs d <> [] /\ forall l, l ∈ Deme.epochs d -> ended h l.

(** The value of a computation that did not raise. *)
Definition ok {A} (r : result A) : option A :=
  match r with
  | Ok a => Some a
  | Raise _ => None
  end.

(** The id index points at the most recently registered deme of each
    id. *)
Definition index_ok (g : t) : Prop :=
  forall i, _deme_map g !! i
            = last (filter (fun d => Deme.id d = i) (demes g)).

(** What the validators [[non_negative, finite]], [[positive, finite]]
    and [unit_interval] accept, written as the tests they make: [n < 0]
    (resp. [n <= 0]) is false and [math.isinf(n)] returns [False];
    [0 <= n] and [n <= 1] are true. *)
Definition accepted_time (n : Number) : Prop :=
  num_lt n (Fin 0) = false /\ isinf n = Ok false.
Definition accepted_size (n : Number) : Prop :=
  num_le n (Fin 0) = false /\ isinf n = Ok false.
Definition accepted_proportion (n : Number) : Prop :=
  num_le (Fin 0) n = true /\ num_le n (Fin 1) = true.

(** The id is in the graph's id index. *)
Definition registered (g : t) (i : ID) : Prop :=
  is_Some (_deme_map g !! i).

(** A migration (a pulse) between two different registered ids whose
    numbers have passed the tests of the constructor. *)
Definition sound_migration (g : t) (m : Migration.t) : Prop :=
  Migration.source m <> Migration.dest m
  /\ registered g (Migration.source m) /\ registered g (Migration.dest m)
  /\ accepted_time (Migration.time m) /\ accepted_time (Migration.rate m).

Definition sound_pulse (g : t) (p : Pulse.t) : Prop :=
  Pulse.source p <> Pulse.dest p
  /\ registered g (Pulse.source p) /\ registered g (Pulse.dest p)
  /\ accepted_time (Pulse.time p)
  /\ accepted_proportion (Pulse.proportion p).

(** Every deme that names an ancestor comes after a deme with that id in
    the list, and the id is not its own. *)
Definition ancestors_first (g : t) : Prop :=
  forall i d a,
    demes g !! i = Some d -> Deme.ancestor d = Some a ->
    a <> Deme.id d
    /\ exists j d', (j < i)%nat /\ demes g !! j = Some d' /\ Deme.id d' = a.

(** [e'] is [e] with, at most, attributes that were unset filled in and
    the [end_time] overwritten: the start time and the sizes that are set
    stay, and a set [end_time] stays set. *)
Definition extends (e e' : Epoch.t) : Prop :=
  Epoch.start_time e' = Epoch.start_time e
  /\ (is_Some (Epoch.initial_size e) ->
        Epoch.initial_size e' = Epoch.initial_size e)
  /\ (is_Some (Epoch.final_size e) -> Epoch.final_size e' = Epoch.final_size e)
  /\ (is_Some (Epoch.end_time e) -> is_Some (Epoch.end_time e')).

(** A method that only extends the objects of the store. *)
Definition extending {A} (m : M Heap A) : Prop :=
  forall h l e, h !! l = Some e ->
    exists e', snd (m h) !! l = Some e' /\ extends e e'.

(** What holds of every [Epoch] object the constructor has built, and is
    kept by [add_epoch]: each attribute that is set has passed the tests
    of its validator, and [final_size] is set. *)
Definition constructed (e : Epoch.t) : Prop :=
  accepted_time (Epoch.start_time e)
  /\ (forall t, Epoch.end_time e = Some t -> num_lt t (Fin 0) = false)
  /\ (forall n, Epoch.initial_size e = Some n -> accepted_size n)
  /\ (exists n, Epoch.final_size e = Some n /\ accepted_size n).

(** An epoch with none of its attributes left unset. *)
Definition complete (e : Epoch.t) : Prop :=
  constructed e
  /\ is_Some (Epoch.end_time e) /\ is_Some (Epoch.initial_size e).

(** A deme with at least one epoch, all of whose epochs are complete. *)
Definition filled (h : Heap) (d : Deme.t) : Prop :=
  Deme.epochs d <> []
  /\ forall l, l ∈ Deme.epochs d -> exists e, h !! l = Some e /\ complete e.

(** Every item of [m_dict] holds at least one record, and only records
    of its own pair. *)
Definition m_dict_item_ok (ms : list Migration.t)
    (item : (ID * ID) * list Migration.t) : Prop :=
  item.2 <> []
  /\ forall m, m ∈ item.2 ->
       m ∈ ms /\ (Migration.source m, Migration.dest m) = item.1.

End Observe.

(** ** Builder calls *)

Module Builder.
Import DemeGraph.

(** What a caller can do to a graph and its epochs: construct an [Epoch]
    object, or call one of the five builder methods. *)
Inductive call : Type :=
| Epoch_ (start_time : Number) (end_time initial_size final_size : option Number)
| deme_ (id : ID) (ancestor : option ID) (start_time end_time : Number)
    (initial_size final_size : option Number) (epochs : option (list loc))
| migration_ (source dest : ID) (rate : Number)
    (start_time end_time : option Number)
| symmetric_migration_ (demes : list ID) (rate : Number)
    (start_time end_time : option Number)
| pulse_ (source dest : ID) (proportion time : Number)
| subgraph_ (deme_id : ID) (ancestors : list ID) (proportions : list Q)
    (start_time : Number) (end_time : option Number)
    (initial_size final_size : option Number) (epochs : option (list loc)).

Definition do_call (c : call) : M World unit :=
  match c with
  | Epoch_ start_time end_time initial_size final_size =>
      e <- pure (Epoch.new start_time end_time initial_size final_size) ;;
      on_heap (alloc e) ;;;
      ret tt
  | deme_ id ancestor start_time end_time initial_size final_size epochs =>
      deme id ancestor start_time end_time initial_size final_size epochs
  | migration_ source dest rate start_time end_time =>
      migration source dest rate start_time end_time
  | symmetric_migration_ demes rate start_time end_time =>
      symmetric_migration demes rate start_time end_time
  | pulse_ source dest proportion time =>
      pulse source dest proportion time
  | subgraph_ deme_id ancestors proportions start_time end_time
      initial_size final_size epochs =>
      subgraph deme_id ancestors proportions start_time end_time
        initial_size final_size epochs
  end.

(** The epoch references a call hands to the graph. *)
Definition call_epochs (c : call) : list loc :=
  match c with
  | deme_ _ _ _ _ _ _ (Some epochs) => epochs
  | subgraph_ _ _ _ _ _ _ _ (Some epochs) => epochs
  | _ => []
  end.

(** The states a program can reach: it constructs a graph, then makes
    calls whose epoch arguments are existing objects.  A call that raises
    is a step too, since the caller may catch the exception and go on. *)
Inductive built : World -> Prop :=
| built_new description time_units generation_time default_Ne doi g :
    DemeGraph.new description time_units generation_time default_Ne doi = Ok g ->
    built (mkWorld [] g)
| built_call w c :
    built w ->
    (forall l, l ∈ call_epochs c -> (l < length (heap w))%nat) ->
    built (snd (do_call c w)).

(** A call whose epoch arguments are distinct existing objects that no
    deme of the graph holds. *)
Definition fresh (w : World) (c : call) : Prop :=
  NoDup (call_epochs c)
  /\ forall l, l ∈ call_epochs c ->
               (l < length (heap w))%nat /\ Observe.unused w l.

(** The states a program reaches when it hands every epoch object to the
    graph at most once. *)
Inductive built_fresh : World -> Prop :=
| built_fresh_new description time_units generation_time default_Ne doi g :
    DemeGraph.new description time_units generation_time default_Ne doi = Ok g ->
    built_fresh (mkWorld [] g)
| built_fresh_call w c :
    built_fresh w -> fresh w c -> built_fresh (snd (do_call c w)).

(** The calls that validate everything before they touch the graph:
    [deme] given epoch objects that no deme of the graph holds, [pulse],
    [migration] without [end_time], [symmetric_migration] with fewer than
    two ids, and [subgraph] when its own length or sum check fails. *)
Definition atomic (w : World) (c : call) : Prop :=
  match c with
  | Epoch_ _ _ _ _ => True
  | deme_ _ _ _ _ _ _ epochs =>
      forall l, l ∈ default [] epochs -> Observe.unused w l
  | migration_ _ _ _ _ end_time => end_time = None
  | symmetric_migration_ demes _ _ _ => (length demes < 2)%nat
  | pulse_ _ _ _ _ => True
  | subgraph_ _ ancestors proportions _ _ _ _ _ =>
      length ancestors <> length proportions
      \/ isclose (sum proportions) 1 = false
  end.

End Builder.

(** ** Scenarios *)

Module Scenario.
Import DemeGraph.

(** A graph with [default_Ne = 100] and no demes, over an empty store. *)
Definition g0 : t := mk "" "generations" (Fin 1) (Some (Fin 100)) None [] [] [] ∅.
Definition w0 : World := mkWorld [] g0.

(** A store of two epochs: one on [[0, inf)] with size [100], and one
    that starts at [10] with nothing else set. *)
Definition h_two : list Epoch.t :=
  [Epoch.mk (Fin 0) (Some Inf) (Some (Fin 100)) (Some (Fin 100));
   Epoch.mk (Fin 10) None None None].

(** The state a method leaves behind, whatever its outcome. *)
Definition after {A} (m : M World A) (w : World) : World := snd (m w).

(** Two demes that never coexist: [A] lives on [[0, 50)], [B] on
    [[100, 200)]. *)
Definition w_apart : World :=
  after (deme "B" None (Fin 100) (Fin 200) None None None)
    (after (deme "A" None (Fin 0) (Fin 50) None None None) w0).

(** A deme [A] that starts at time [100], and an epoch object on
    [[10, 50)] constructed by the caller (reference [1]). *)
Definition w_anc : World :=
  after (Builder.do_call
           (Builder.Epoch_ (Fin 10) (Some (Fin 50)) (Some (Fin 5)) None))
    (after (deme "A" None (Fin 100) Inf None None None) w0).

(** The same with an epoch object that starts at [10] and leaves its end
    unset, and the state after [deme("B", ancestor="A", epochs=[it])]. *)
Definition w_open : World :=
  after (Builder.do_call
           (Builder.Epoch_ (Fin 10) None (Some (Fin 5)) None))
    (after (deme "A" None (Fin 100) Inf None None None) w0).
Definition w_open_b : World :=
  after (deme "B" (Some "A") (Fin 0) Inf None None (Some [1%nat])) w_open.

(** Two demes [A] and [B] that both start at time [10]. *)
Definition w_late : World :=
  after (deme "B" None (Fin 10) Inf None None None)
    (after (deme "A" None (Fin 10) Inf None None None) w0).

(** Two demes [A] and [B], both on [[0, 100)]. *)
Definition w_ab : World :=
  after (deme "B" None (Fin 0) (Fin 100) None None None)
    (after (deme "A" None (Fin 0) (Fin 100) None None None) w0).

(** Three demes [A], [B], [C] alive from time [0] on. *)
Definition w_abc : World :=
  after (deme "C" None (Fin 0) Inf None None None)
    (after (deme "B" None (Fin 0) Inf None None None)
       (after (deme "A" None (Fin 0) Inf None None None) w0)).

(** [A] and [B] on [[0, 100)], a migration from [A] to [B] at rate [1]
    that is switched off at time [50], and a pulse at time [50]. *)
Definition w_ab_mp : World :=
  after (pulse "A" "B" (Fin (1 # 2)) (Fin 50))
    (after (migration "A" "B" (Fin 1) None (Some (Fin 50))) w_ab).

End Scenario.

Import DemeGraph Observe Builder Scenario.

(** * Properties *)

(** ** Numbers *)

Lemma Qlt_bool_iff (a b : Q) : Qlt_bool a b = true <-> a < b.
Proof.
  unfold Qlt_bool. rewrite negb_true_iff.
  destruct (Qle_bool b a) eqn:E.
  - apply Qle_bool_iff in E. split; [discriminate | intros H; exfalso].
    exact (Qlt_not_le _ _ H E).
  - split; [intros _ | reflexivity].
    apply Qnot_le_lt. intros H. apply Qle_bool_iff in H. congruence.
Qed.

Lemma num_le_iff (a b : Number) : num_le a b = true <-> Nle a b.
Proof.
  destruct a, b; simpl; try tauto.
  - apply Qle_bool_iff.
  - split; [discriminate | tauto].
Qed.

Lemma num_lt_iff (a b : Number) : num_lt a b = true <-> Nlt a b.
Proof.
  destruct a, b; simpl; try tauto.
  - apply Qlt_bool_iff.
  - split; [discriminate | tauto].
  - split; [discriminate | tauto].
Qed.

Lemma inside_iff (closed : bool) (lo hi t : Number) :
  inside closed lo hi t = true <->
  Nle lo t /\ if closed then Nle t hi else Nlt t hi.
Proof.
  unfold inside. rewrite andb_true_iff, num_le_iff.
  destruct closed; by rewrite ?num_le_iff, ?num_lt_iff.
Qed.

Lemma num_lt_le (a b : Number) : num_lt a b = true -> num_le a b = true.
Proof.
  destruct a, b; simpl; try done.
  rewrite Qlt_bool_iff. intros H. apply Qle_bool_iff. by apply Qlt_le_weak.
Qed.

Lemma num_lt_false_le (a b : Number) : num_lt a b = false -> num_le b a = true.
Proof.
  destruct a, b; simpl; try done.
  unfold Qlt_bool. by rewrite negb_false_iff.
Qed.

Lemma num_le_refl (a : Number) : num_le a a = true.
Proof. apply num_le_iff. destruct a; simpl; [apply Qle_refl | done]. Qed.

(** [num_max] is an upper bound of its arguments and one of them. *)
Lemma num_max_ub (a b : Number) :
  num_le a (num_max a b) = true /\ num_le b (num_max a b) = true
  /\ (num_max a b = a \/ num_max a b = b).
Proof.
  unfold num_max. destruct (num_lt a b) eqn:E.
  - split; [by apply num_lt_le |]. split; [apply num_le_refl | by right].
  - split; [apply num_le_refl |]. split; [by apply num_lt_false_le | by left].
Qed.

(** [num_min] is a lower bound of its arguments and one of them. *)
Lemma num_min_lb (a b : Number) :
  num_le (num_min a b) a = true /\ num_le (num_min a b) b = true
  /\ (num_min a b = a \/ num_min a b = b).
Proof.
  unfold num_min. destruct (num_lt b a) eqn:E.
  - split; [by apply num_lt_le |]. split; [apply num_le_refl | by right].
  - split; [apply num_le_refl |]. split; [by apply num_lt_false_le | by left].
Qed.

(** ** Reading the graph *)

Lemma getitem_eq (w : World) (deme_id : ID) :
  __getitem__ deme_id w =
    (match _deme_map (graph w) !! deme_id with
     | Some d => Ok d
     | None => Raise KeyError
     end, w).
Proof.
  unfold __getitem__, bind, self. by destruct (_deme_map (graph w) !! deme_id).
Qed.

Lemma contains_eq (w : World) (deme_id : ID) :
  __contains__ deme_id w =
    (Ok (bool_decide (is_Some (_deme_map (graph w) !! deme_id))), w).
Proof. reflexivity. Qed.

Lemma start_time_eq (h : Heap) (d : Deme.t) :
  Deme.start_time d h =
    (match head (Deme.epochs d) with
     | None => Raise IndexError
     | Some l =>
         match h !! l with
         | Some e => Ok (Epoch.start_time e)
         | None => Raise InvalidRef
         end
     end, h).
Proof.
  unfold Deme.start_time. destruct (Deme.epochs d) as [|l ls]; [done |].
  simpl. unfold bind, load. by destruct (h !! l).
Qed.

Lemma end_time_eq (h : Heap) (d : Deme.t) :
  Deme.end_time d h =
    (match last (Deme.epochs d) with
     | None => Raise IndexError
     | Some l =>
         match h !! l with
         | Some e => Ok (Epoch.end_time e)
         | None => Raise InvalidRef
         end
     end, h).
Proof.
  unfold Deme.end_time. destruct (last (Deme.epochs d)) as [l|]; [| done].
  unfold bind, load. by destruct (h !! l).
Qed.

Lemma on_heap_pure {A} (m : M Heap A) (r : result A) (w : World) :
  m (heap w) = (r, heap w) -> on_heap m w = (r, w).
Proof. unfold on_heap. intros ->. by destruct w. Qed.

(** [check_time_intersection] never changes the state. *)
Lemma check_time_intersection_pure (w : World) (id1 id2 : ID)
    (time : option Number) (closed : bool) :
  snd (check_time_intersection id1 id2 time closed w) = w.
Proof.
  unfold check_time_intersection, bind.
  rewrite !getitem_eq.
  destruct (_deme_map (graph w) !! id1) as [d1|]; [| done].
  destruct (_deme_map (graph w) !! id2) as [d2|]; [| done].
  rewrite (on_heap_pure _ _ w (start_time_eq (heap w) d1)).
  destruct (head (Deme.epochs d1)) as [l1|]; [| done].
  destruct (heap w !! l1) as [e1|]; [| done].
  rewrite (on_heap_pure _ _ w (start_time_eq (heap w) d2)).
  destruct (head (Deme.epochs d2)) as [l2|]; [| done].
  destruct (heap w !! l2) as [e2|]; [| done].
  rewrite (on_heap_pure _ _ w (end_time_eq (heap w) d1)).
  destruct (last (Deme.epochs d1)) as [l1'|]; [| done].
  destruct (heap w !! l1') as [e1'|]; [| done].
  rewrite (on_heap_pure _ _ w (end_time_eq (heap w) d2)).
  destruct (last (Deme.epochs d2)) as [l2'|]; [| done].
  destruct (heap w !! l2') as [e2'|]; [| done].
  destruct (Epoch.end_time e1'), (Epoch.end_time e2'); try done.
  destruct time as [time|]; [| done].
  by destruct (_ || _).
Qed.

(** On two registered demes whose times are set, the query is decided by
    the interval alone. *)
Lemma check_time_intersection_eq (w : World) (id1 id2 : ID)
    (time : option Number) (closed : bool) (start1 start2 end1 end2 : Number) :
  start_of w id1 = Some start1 -> start_of w id2 = Some start2 ->
  end_of w id1 = Some end1 -> end_of w id2 = Some end2 ->
  check_time_intersection id1 id2 time closed w =
    (let time_lo := num_max start1 start2 in
     let time_hi := num_min end1 end2 in
     if from_option (inside closed time_lo time_hi) true time
     then Ok (time_lo, time_hi) else Raise ValueError, w).
Proof.
  unfold start_of, end_of, check_time_intersection, bind.
  rewrite !getitem_eq.
  destruct (_deme_map (graph w) !! id1) as [d1|]; [| done].
  destruct (_deme_map (graph w) !! id2) as [d2|]; [| done].
  simpl.
  rewrite (on_heap_pure _ _ w (start_time_eq (heap w) d1)).
  destruct (head (Deme.epochs d1)) as [l1|]; [| done]. simpl.
  destruct (heap w !! l1) as [e1|]; [| done]. simpl.
  rewrite (on_heap_pure _ _ w (start_time_eq (heap w) d2)).
  destruct (head (Deme.epochs d2)) as [l2|]; [| done]. simpl.
  destruct (heap w !! l2) as [e2|]; [| done]. simpl.
  rewrite (on_heap_pure _ _ w (end_time_eq (heap w) d1)).
  destruct (last (Deme.epochs d1)) as [l1'|]; [| done]. simpl.
  destruct (heap w !! l1') as [e1'|]; [| done]. simpl.
  rewrite (on_heap_pure _ _ w (end_time_eq (heap w) d2)).
  destruct (last (Deme.epochs d2)) as [l2'|]; [| done]. simpl.
  destruct (heap w !! l2') as [e2'|]; [| done]. simpl.
  intros [= ->] [= ->] -> ->.
  destruct time as [time|]; [| done]. simpl. unfold inside.
  destruct closed; simpl.
  - by destruct (num_le _ time && num_le time _).
  - by destruct (num_le _ time && num_lt time _).
Qed.

(** C4. For two registered demes with start times [start1], [start2] and
    end times [end1], [end2], [check_time_intersection] returns the pair
    [(max(start1, start2), min(end1, end2))], and raises [ValueError]
    instead exactly when a time is supplied that lies outside
    [[time_lo, time_hi)] (or [[time_lo, time_hi]] when [closed]); the pair
    bounds both demes' times; the call leaves the state as it was. *)
Theorem check_time_intersection_spec (w : World) (id1 id2 : ID)
    (time : option Number) (closed : bool) (start1 start2 end1 end2 : Number) :
  start_of w id1 = Some start1 -> start_of w id2 = Some start2 ->
  end_of w id1 = Some end1 -> end_of w id2 = Some end2 ->
  let time_lo := num_max start1 start2 in
  let time_hi := num_min end1 end2 in
  let r := fst (check_time_intersection id1 id2 time closed w) in
  (r = Ok (time_lo, time_hi) \/ r = Raise ValueError)
  /\ (r = Raise ValueError <->
        exists t, time = Some t /\
          ~ (Nle time_lo t /\ if closed then Nle t time_hi else Nlt t time_hi))
  /\ Nle start1 time_lo /\ Nle start2 time_lo
  /\ Nle time_hi end1 /\ Nle time_hi end2
  /\ snd (check_time_intersection id1 id2 time closed w) = w.
Proof.
  intros H1 H2 H3 H4 time_lo time_hi r.
  assert (Hr : r = if from_option (inside closed time_lo time_hi) true time
                   then Ok (time_lo, time_hi) else Raise ValueError).
  { subst r. by rewrite (check_time_intersection_eq _ _ _ _ _ _ _ _ _ H1 H2 H3 H4). }
  destruct (num_max_ub start1 start2) as (Ha & Hb & _).
  destruct (num_min_lb end1 end2) as (Hc & Hd & _).
  apply num_le_iff in Ha, Hb, Hc, Hd.
  repeat split; try done; try apply check_time_intersection_pure.
  - rewrite Hr. destruct (from_option _ _ _); [by left | by right].
  - rewrite Hr. destruct time as [t|]; simpl; [| done].
    destruct (inside closed time_lo time_hi t) eqn:E; [done |].
    intros _. exists t. split; [done |]. rewrite <- inside_iff. congruence.
  - intros (t & -> & Hout). rewrite Hr. simpl.
    destruct (inside closed time_lo time_hi t) eqn:E; [| done].
    apply inside_iff in E. contradiction.
Qed.

(** A successful query determines the times of both demes. *)
Lemma check_time_intersection_ok (w w1 : World) (id1 id2 : ID)
    (time : option Number) (closed : bool) (lo hi : Number) :
  check_time_intersection id1 id2 time closed w = (Ok (lo, hi), w1) ->
  exists start1 start2 end1 end2,
    start_of w id1 = Some start1 /\ start_of w id2 = Some start2
    /\ end_of w id1 = Some end1 /\ end_of w id2 = Some end2
    /\ lo = num_max start1 start2 /\ hi = num_min end1 end2
    /\ from_option (inside closed lo hi) true time = true.
Proof.
  unfold start_of, end_of, check_time_intersection, bind.
  rewrite !getitem_eq.
  destruct (_deme_map (graph w) !! id1) as [d1|]; [| done].
  destruct (_deme_map (graph w) !! id2) as [d2|]; [| done].
  simpl.
  rewrite (on_heap_pure _ _ w (start_time_eq (heap w) d1)).
  destruct (head (Deme.epochs d1)) as [l1|]; [| done]. simpl.
  destruct (heap w !! l1) as [e1|]; [| done]. simpl.
  rewrite (on_heap_pure _ _ w (start_time_eq (heap w) d2)).
  destruct (head (Deme.epochs d2)) as [l2|]; [| done]. simpl.
  destruct (heap w !! l2) as [e2|]; [| done]. simpl.
  rewrite (on_heap_pure _ _ w (end_time_eq (heap w) d1)).
  destruct (last (Deme.epochs d1)) as [l1'|]; [| done]. simpl.
  destruct (heap w !! l1') as [e1'|]; [| done]. simpl.
  rewrite (on_heap_pure _ _ w (end_time_eq (heap w) d2)).
  destruct (last (Deme.epochs d2)) as [l2'|]; [| done]. simpl.
  destruct (heap w !! l2') as [e2'|]; [| done]. simpl.
  destruct (Epoch.end_time e1') as [x1|], (Epoch.end_time e2') as [x2|]; try done.
  intros H. exists (Epoch.start_time e1), (Epoch.start_time e2), x1, x2.
  destruct time as [time|]; simpl.
  - destruct closed; simpl in H; unfold inside.
    + destruct (num_le _ time && num_le time _) eqn:E; [| done].
      simpl in H. injection H as <- <- _. by rewrite E.
    + destruct (num_le _ time && num_lt time _) eqn:E; [| done].
      simpl in H. injection H as <- <- _. by rewrite E.
  - by injection H as <- <- _.
Qed.

Lemma check_in_graph_eq (w : World) (source dest : ID) :
  check_in_graph [source; dest] w =
    (if bool_decide (is_Some (_deme_map (graph w) !! source))
        && bool_decide (is_Some (_deme_map (graph w) !! dest))
     then Ok tt else Raise ValueError, w).
Proof.
  unfold check_in_graph. simpl. unfold bind. rewrite !contains_eq.
  destruct (bool_decide (is_Some (_deme_map (graph w) !! source))); [| done].
  simpl. by destruct (bool_decide (is_Some (_deme_map (graph w) !! dest))).
Qed.


Lemma Pulse_new_inv (source dest : ID) (time proportion : Number) :
  Pulse.new source dest time proportion = Ok (Pulse.mk source dest time proportion)
  \/ exists e, Pulse.new source dest time proportion = Raise e.
Proof.
  unfold Pulse.new, and_then.
  destruct (Validator.all _ time); [| eauto].
  destruct (Validator.unit_interval proportion); [| eauto].
  destruct (String.eqb source dest); eauto.
Qed.

(** [pulse] appends its record, or fails and changes nothing. *)
Lemma pulse_outcome (w w' : World) (source dest : ID) (proportion time : Number)
    (r : result unit) :
  pulse source dest proportion time w = (r, w') ->
  (r = Ok tt /\ w' = add_pulse (Pulse.mk source dest time proportion) w)
  \/ (r <> Ok tt /\ w' = w).
Proof.
  unfold pulse, bind. rewrite check_in_graph_eq, !getitem_eq.
  destruct (_deme_map (graph w) !! source) as [s|]; simpl;
    [| intros [= <- <-]; by right].
  destruct (_deme_map (graph w) !! dest) as [d|]; simpl;
    [| intros [= <- <-]; by right].
  destruct (opt_id_eq (Deme.ancestor s) dest || opt_id_eq (Deme.ancestor d) source);
    [intros [= <- <-]; by right |].
  pose proof (check_time_intersection_pure w source dest (Some time) true) as Hp.
  destruct (check_time_intersection source dest (Some time) true w)
    as [[lo_hi|e] w1]; simpl in Hp; subst w1; [| intros [= <- <-]; by right].
  unfold pure.
  destruct (Pulse_new_inv source dest time proportion) as [E|[e E]]; rewrite E.
  - intros [= <- <-]. by left.
  - intros [= <- <-]. by right.
Qed.


(** ** Migrations *)

Lemma Migration_new_inv (source dest : ID) (time rate : Number) :
  Migration.new source dest time rate = Ok (Migration.mk source dest time rate)
  \/ exists e, Migration.new source dest time rate = Raise e.
Proof.
  unfold Migration.new, and_then.
  destruct (Validator.all _ time); [| eauto].
  destruct (Validator.all _ rate); [| eauto].
  destruct (String.eqb source dest); eauto.
Qed.

(** [migration] on two registered demes, step by step. *)
Lemma migration_eq (w : World) (source dest : ID) (rate : Number)
    (start_time end_time : option Number) (start1 start2 end1 end2 : Number) :
  start_of w source = Some start1 -> start_of w dest = Some start2 ->
  end_of w source = Some end1 -> end_of w dest = Some end2 ->
  migration source dest rate start_time end_time w =
    (let time_lo := num_max start1 start2 in
     let time_hi := num_min end1 end2 in
     if negb (from_option (inside false time_lo time_hi) true start_time) then
       (Raise ValueError, w)
     else
       match Migration.new source dest (default time_lo start_time) rate with
       | Raise e => (Raise e, w)
       | Ok m1 =>
           let w1 := add_migration m1 w in
           match end_time with
           | None => (Ok tt, w1)
           | Some t =>
               if negb (inside false time_lo time_hi t) then (Raise ValueError, w1)
               else
                 match Migration.new source dest t (Fin 0) with
                 | Raise e => (Raise e, w1)
                 | Ok m2 => (Ok tt, add_migration m2 w1)
                 end
           end
       end).
Proof.
  intros H1 H2 H3 H4. unfold migration, bind.
  rewrite check_in_graph_eq.
  assert (is_Some (_deme_map (graph w) !! source)) as Hs.
  { unfold start_of in H1. destruct (_deme_map (graph w) !! source); [eauto | done]. }
  assert (is_Some (_deme_map (graph w) !! dest)) as Hd.
  { unfold start_of in H2. destruct (_deme_map (graph w) !! dest); [eauto | done]. }
  rewrite !bool_decide_eq_true_2 by done. simpl.
  rewrite (check_time_intersection_eq _ _ _ _ _ _ _ _ _ H1 H2 H3 H4). simpl.
  destruct (from_option _ true start_time); [| done]. simpl.
  unfold pure.
  destruct (Migration.new source dest _ rate) as [m1|e]; [| done].
  unfold modify_self at 1. fold (add_migration m1 w).
  destruct end_time as [t|]; [| done].
  rewrite (check_time_intersection_eq (add_migration m1 w) _ _ _ _ _ _ _ _ H1 H2 H3 H4).
  simpl. destruct (inside false _ _ t); [| done]. simpl.
  by destruct (Migration.new source dest t (Fin 0)).
Qed.

Lemma coexistence_Some (w : World) (id1 id2 : ID) (lo hi : Number) :
  coexistence w id1 id2 = Some (lo, hi) <->
  exists start1 start2 end1 end2,
    start_of w id1 = Some start1 /\ start_of w id2 = Some start2
    /\ end_of w id1 = Some end1 /\ end_of w id2 = Some end2
    /\ lo = num_max start1 start2 /\ hi = num_min end1 end2.
Proof.
  unfold coexistence. split.
  - destruct (start_of w id1) as [s1|]; [| done].
    destruct (start_of w id2) as [s2|]; [| done].
    destruct (end_of w id1) as [e1|]; [| done].
    destruct (end_of w id2) as [e2|]; [| done]. simpl.
    intros [= <- <-]. by exists s1, s2, e1, e2.
  - by intros (s1 & s2 & e1 & e2 & -> & -> & -> & -> & -> & ->).
Qed.

Lemma add_migrations_nil (w : World) : add_migrations [] w = w.
Proof.
  unfold add_migrations, set_migrations. rewrite app_nil_r. by destruct w as [h []].
Qed.

Lemma add_migrations_app (ms1 ms2 : list Migration.t) (w : World) :
  add_migrations ms2 (add_migrations ms1 w) = add_migrations (ms1 ++ ms2) w.
Proof. unfold add_migrations, set_migrations. simpl. by rewrite app_assoc. Qed.

Lemma migration_records_add (ms : list Migration.t) (w : World) :
  migration_records (add_migrations ms w) = migration_records w.
Proof. reflexivity. Qed.

(** A successful [migration] found both times it was given inside the
    half-open coexistence interval and appended its records. *)
Lemma migration_ok_inv (w w' : World) (source dest : ID) (rate : Number)
    (start_time end_time : option Number) :
  migration source dest rate start_time end_time w = (Ok tt, w') ->
  exists lo hi,
    coexistence w source dest = Some (lo, hi)
    /\ from_option (inside false lo hi) true start_time = true
    /\ from_option (inside false lo hi) true end_time = true
    /\ w' = add_migrations
              (migration_records w rate start_time end_time (source, dest)) w.
Proof.
  intros Hm.
  assert (exists lo hi, coexistence w source dest = Some (lo, hi)) as (lo & hi & Hco).
  { revert Hm. unfold migration, bind. rewrite check_in_graph_eq.
    destruct (_ && _); [| done].
    destruct (check_time_intersection source dest start_time false w)
      as [[[lo hi]|e] w1] eqn:Hc; [| done].
    intros _. exists lo, hi. apply coexistence_Some.
    apply check_time_intersection_ok in Hc
      as (s1 & s2 & e1 & e2 & ? & ? & ? & ? & ? & ? & _).
    by exists s1, s2, e1, e2. }
  exists lo, hi. split; [done |].
  pose proof Hco as Hco'.
  apply coexistence_Some in Hco' as (s1 & s2 & e1 & e2 & H1 & H2 & H3 & H4 & -> & ->).
  rewrite (migration_eq _ _ _ _ _ _ _ _ _ _ H1 H2 H3 H4) in Hm. simpl in Hm.
  unfold migration_records. simpl. rewrite Hco. simpl.
  destruct (from_option _ true start_time); [| done]. simpl in Hm.
  destruct (Migration_new_inv source dest
              (default (num_max s1 s2) start_time) rate) as [E|[e E]];
    rewrite E in Hm; [| done].
  destruct end_time as [t|]; simpl.
  - destruct (inside false _ _ t); [| done]. simpl in Hm.
    destruct (Migration_new_inv source dest t (Fin 0)) as [E'|[e E']];
      rewrite E' in Hm; [| done].
    injection Hm as <-. repeat split; try done.
    unfold add_migration, add_migrations, set_migrations. simpl.
    by rewrite <- app_assoc.
  - injection Hm as <-. repeat split; try done.
Qed.

(** [symmetric_migration]'s loop: on success every pair has contributed
    its records, in order. *)
Lemma symmetric_loop_ok (pairs : list (ID * ID)) (w w' : World) (rate : Number)
    (start_time end_time : option Number) :
  forM_ (fun sd => migration sd.1 sd.2 rate start_time end_time) pairs w
    = (Ok tt, w') ->
  w' = add_migrations (pairs ≫= migration_records w rate start_time end_time) w.
Proof.
  revert w. induction pairs as [|[s d] pairs IH]; intros w; simpl.
  - intros [= <-]. by rewrite add_migrations_nil.
  - unfold bind at 1.
    destruct (migration s d rate start_time end_time w) as [[[]|e] w1] eqn:Hm;
      [| done].
    intros Hrest. apply IH in Hrest. subst w'.
    apply migration_ok_inv in Hm as (lo & hi & _ & _ & _ & ->).
    by rewrite migration_records_add, add_migrations_app.
Qed.

Lemma valid_time_max (a b : Number) :
  valid_time a -> valid_time b -> valid_time (num_max a b).
Proof. unfold num_max. by destruct (num_lt a b). Qed.

Lemma Migration_new_ok (source dest : ID) (time rate : Number) :
  source <> dest -> valid_time time -> valid_time rate ->
  Migration.new source dest time rate = Ok (Migration.mk source dest time rate).
Proof.
  intros Hne Ht Hr. unfold Migration.new, and_then.
  unfold valid_time in Ht, Hr. rewrite Ht, Hr.
  apply String.eqb_neq in Hne. by rewrite Hne.
Qed.

(** With neither time given, [migration] between two distinct registered
    demes succeeds whatever their intervals are. *)
Lemma migration_default (w : World) (source dest : ID) (rate : Number)
    (start1 start2 end1 end2 : Number) :
  start_of w source = Some start1 -> start_of w dest = Some start2 ->
  end_of w source = Some end1 -> end_of w dest = Some end2 ->
  source <> dest -> valid_time start1 -> valid_time start2 -> valid_time rate ->
  migration source dest rate None None w =
    (Ok tt, add_migrations
              [Migration.mk source dest (num_max start1 start2) rate] w).
Proof.
  intros H1 H2 H3 H4 Hne Hv1 Hv2 Hr.
  rewrite (migration_eq _ _ _ _ _ _ _ _ _ _ H1 H2 H3 H4). simpl.
  rewrite Migration_new_ok; auto using valid_time_max.
Qed.

(** [symmetric_migration] over three distinct registered demes, with a
    rate and no times, appends the six records of the ordered pairs. *)
Lemma symmetric_migration_three (w : World) (a b c : ID) (rate : Number)
    (sa sb sc ea eb ec : Number) :
  a <> b -> a <> c -> b <> c ->
  start_of w a = Some sa -> start_of w b = Some sb -> start_of w c = Some sc ->
  end_of w a = Some ea -> end_of w b = Some eb -> end_of w c = Some ec ->
  valid_time sa -> valid_time sb -> valid_time sc -> valid_time rate ->
  symmetric_migration [a; b; c] rate None None w =
    (Ok tt, add_migrations
              [Migration.mk a b (num_max sa sb) rate;
               Migration.mk a c (num_max sa sc) rate;
               Migration.mk b a (num_max sb sa) rate;
               Migration.mk b c (num_max sb sc) rate;
               Migration.mk c a (num_max sc sa) rate;
               Migration.mk c b (num_max sc sb) rate] w).
Proof.
  intros Hab Hac Hbc Ha Hb Hc Ha' Hb' Hc' Hva Hvb Hvc Hr.
  unfold symmetric_migration. simpl. unfold bind.
  rewrite (migration_default w a b rate sa sb ea eb) by done.
  rewrite (migration_default _ a c rate sa sc ea ec) by done.
  rewrite (migration_default _ b a rate sb sa eb ea) by done.
  rewrite (migration_default _ b c rate sb sc eb ec) by done.
  rewrite (migration_default _ c a rate sc sa ec ea) by done.
  rewrite (migration_default _ c b rate sc sb ec eb) by done.
  by rewrite !add_migrations_app.
Qed.

(** C6, evaluated where the code breaks it.  [A] lives on [[0, 50)] and
    [B] on [[100, 200)]: the two never coexist, and the interval from the
    later start to the earlier end, [[100, 50)], holds no time.
    [migration("A", "B", rate=1, start_time=t)] is rejected by the
    intersection check for every [t], the time [100] included, and changes
    nothing.  [migration("A", "B", rate=1)] resolves the omitted start to
    that same time [100], which the check is not given, and appends a
    migration at time [100]. *)
Theorem migration_resolved_start_unchecked :
  exists w1,
    do_call (deme_ "A" None (Fin 0) (Fin 50) None None None) w0 = (Ok tt, w1)
    /\ do_call (deme_ "B" None (Fin 100) (Fin 200) None None None) w1
       = (Ok tt, w_apart)
    /\ coexistence w_apart "A" "B" = Some (Fin 100, Fin 50)
    /\ (forall t,
          do_call (migration_ "A" "B" (Fin 1) (Some t) None) w_apart
          = (Raise ValueError, w_apart))
    /\ do_call (migration_ "A" "B" (Fin 1) None None) w_apart
       = (Ok tt, add_migrations [Migration.mk "A" "B" (Fin 100) (Fin 1)] w_apart)
    /\ inside false (Fin 100) (Fin 50) (Fin 100) = false.
Proof.
  eexists. split; [by vm_compute |]. split; [by vm_compute |].
  split; [by vm_compute |]. split; [| split; by vm_compute].
  intros t. simpl.
  rewrite (migration_eq w_apart "A" "B" (Fin 1) (Some t) None
             (Fin 0) (Fin 100) (Fin 50) (Fin 200)) by (by vm_compute).
  cbv zeta. change (num_max (Fin 0) (Fin 100)) with (Fin 100).
  change (num_min (Fin 50) (Fin 200)) with (Fin 50).
  assert (inside false (Fin 100) (Fin 50) t = false) as Hout.
  { apply not_true_is_false. intros Hin.
    apply inside_iff in Hin as [Hlo Hhi].
    destruct t as [q|]; simpl in Hlo, Hhi; [| done].
    apply (Qlt_irrefl 50). eapply Qlt_trans; [| eapply Qle_lt_trans; eauto].
    reflexivity. }
  simpl. by rewrite Hout.
Qed.

(** What [migration] and [symmetric_migration] do guarantee.  On two
    registered demes with coexistence interval [[time_lo, time_hi)]: a
    supplied [start_time] outside the interval is rejected with
    [ValueError] and nothing appended, an omitted one becomes [time_lo]
    without a check; a call with a supplied [end_time] outside the
    interval fails; a successful call has appended one record at the
    resolved start with the given rate, followed by a record with rate [0]
    at [end_time] exactly when [end_time] is given.  [symmetric_migration]
    raises [ValueError] on fewer than two ids, on success has applied
    [migration] to every ordered pair in order, and over three distinct
    registered demes with a valid rate and no times it appends exactly six
    records. *)
Theorem migration_spec (w w' : World) (source dest : ID) (rate : Number)
    (start_time end_time : option Number) (start1 start2 end1 end2 : Number)
    (r : result unit) :
  start_of w source = Some start1 -> start_of w dest = Some start2 ->
  end_of w source = Some end1 -> end_of w dest = Some end2 ->
  migration source dest rate start_time end_time w = (r, w') ->
  let time_lo := num_max start1 start2 in
  let time_hi := num_min end1 end2 in
  (forall t, start_time = Some t -> ~ (Nle time_lo t /\ Nlt t time_hi) ->
     r = Raise ValueError /\ w' = w)
  /\ (forall t, end_time = Some t -> ~ (Nle time_lo t /\ Nlt t time_hi) ->
        r <> Ok tt)
  /\ (r = Ok tt ->
        w' = add_migrations
               (Migration.mk source dest (default time_lo start_time) rate
                :: match end_time with
                   | Some t => [Migration.mk source dest t (Fin 0)]
                   | None => []
                   end) w)
  /\ (forall ids, (length ids < 2)%nat ->
        symmetric_migration ids rate start_time end_time w = (Raise ValueError, w))
  /\ (forall ids w2,
        symmetric_migration ids rate start_time end_time w = (Ok tt, w2) ->
        w2 = add_migrations
               (permutations2 ids ≫= migration_records w rate start_time end_time) w)
  /\ (forall a b c sa sb sc ea eb ec,
        a <> b -> a <> c -> b <> c ->
        start_of w a = Some sa -> start_of w b = Some sb -> start_of w c = Some sc ->
        end_of w a = Some ea -> end_of w b = Some eb -> end_of w c = Some ec ->
        valid_time sa -> valid_time sb -> valid_time sc -> valid_time rate ->
        exists ms,
          symmetric_migration [a; b; c] rate None None w
            = (Ok tt, add_migrations ms w)
          /\ length ms = 6%nat).
Proof.
  intros H1 H2 H3 H4 Hm time_lo time_hi.
  rewrite (migration_eq _ _ _ _ _ _ _ _ _ _ H1 H2 H3 H4) in Hm. simpl in Hm.
  fold time_lo time_hi in Hm.
  split; [| split; [| split; [| split; [| split]]]].
  - intros t -> Hout. simpl in Hm.
    destruct (inside false time_lo time_hi t) eqn:E.
    + apply inside_iff in E. contradiction.
    + simpl in Hm. by injection Hm as <- <-.
  - intros t -> Hout.
    destruct (negb _); [by injection Hm as <- <- |].
    destruct (Migration.new source dest _ rate) as [m1|e] eqn:E1;
      [| by injection Hm as <- <-].
    destruct (inside false time_lo time_hi t) eqn:E.
    + apply inside_iff in E. contradiction.
    + simpl in Hm. by injection Hm as <- <-.
  - intros ->.
    destruct (negb _); [done |].
    destruct (Migration_new_inv source dest (default time_lo start_time) rate)
      as [E|[e E]]; rewrite E in Hm; [| done].
    destruct end_time as [t|].
    + destruct (negb _); [done |].
      destruct (Migration_new_inv source dest t (Fin 0)) as [E'|[e E']];
        rewrite E' in Hm; [| done].
      injection Hm as <-.
      unfold add_migration, add_migrations, set_migrations. simpl.
      by rewrite <- app_assoc.
    + by injection Hm as <-.
  - intros ids Hlen. unfold symmetric_migration.
    apply Nat.ltb_lt in Hlen. by rewrite Hlen.
  - intros ids w2. unfold symmetric_migration.
    destruct (length ids <? 2)%nat; [done |]. apply symmetric_loop_ok.
  - intros a b c sa sb sc ea eb ec Hab Hac Hbc Ha Hb Hc Ha' Hb' Hc' Hva Hvb Hvc Hr.
    eexists. split.
    + by apply (symmetric_migration_three w a b c rate sa sb sc ea eb ec).
    + reflexivity.
Qed.

(** ** The store *)

Lemma load_eq (h : Heap) (l : loc) (e : Epoch.t) :
  h !! l = Some e -> load l h = (Ok e, h).
Proof. unfold load. by intros ->. Qed.

Lemma update_eq (h : Heap) (l : loc) (f : Epoch.t -> Epoch.t) (e : Epoch.t) :
  h !! l = Some e -> update l f h = (Ok tt, <[l := f e]> h).
Proof. unfold update. by intros ->. Qed.

Lemma lookup_insert_alias (h : Heap) (l : loc) (x e : Epoch.t) :
  h !! l = Some e -> <[l := x]> h !! l = Some x.
Proof. intros H. apply list_lookup_insert_eq. by eapply lookup_lt_Some. Qed.

Lemma bind_ret {S A B} (a : A) (k : A -> M S B) (s : S) :
  bind (ret a) k s = k a s.
Proof. reflexivity. Qed.

Lemma bind_assoc {S A B C} (m : M S A) (f : A -> M S B) (k : B -> M S C) (s : S) :
  bind (bind m f) k s = bind m (fun a => bind (f a) k) s.
Proof. unfold bind. by destruct (m s) as [[a|e] s1]. Qed.

Lemma bind_load {B} (h : Heap) (l : loc) (e : Epoch.t) (k : Epoch.t -> M Heap B) :
  h !! l = Some e -> bind (load l) k h = k e h.
Proof. intros H. unfold bind. by rewrite (load_eq _ _ _ H). Qed.

Lemma bind_update {B} (h : Heap) (l : loc) (f : Epoch.t -> Epoch.t) (e : Epoch.t)
    (k : unit -> M Heap B) :
  h !! l = Some e -> bind (update l f) k h = k tt (<[l := f e]> h).
Proof. intros H. unfold bind. by rewrite (update_eq _ _ _ _ H). Qed.

(** Resolving a read from an updated store. *)
Ltac heap_lookup :=
  repeat first
    [ eassumption
    | erewrite lookup_insert_alias; [reflexivity |]
    | rewrite list_lookup_insert_ne by congruence ].

(** Running a method of an epoch one statement at a time. *)
Ltac step_heap :=
  repeat first
    [ erewrite bind_load by heap_lookup
    | erewrite bind_update by heap_lookup
    | rewrite bind_ret
    | rewrite bind_assoc
    | progress cbn [when Epoch.is_None Epoch.start_time Epoch.end_time
                    Epoch.initial_size Epoch.final_size
                    Epoch.set_end_time Epoch.set_initial_size
                    Epoch.set_final_size] ].

(** ** [add_epoch] *)

(** [add_epoch] in closed form, for an epoch object that is not the deme's
    current last epoch. *)
Lemma add_epoch_eq (self : Deme.t) (h : Heap) (epoch prev_epoch : loc)
    (e p : Epoch.t) :
  last (Deme.epochs self) = Some prev_epoch ->
  h !! epoch = Some e -> h !! prev_epoch = Some p ->
  epoch <> prev_epoch ->
  Deme.add_epoch self epoch h =
    if num_lt (Epoch.start_time e) (Epoch.start_time p) then (Raise ValueError, h)
    else
      let end_time :=
        match Epoch.end_time e with
        | None => Epoch.end_time p
        | Some t => Some t
        end in
      let initial_size :=
        match Epoch.initial_size e with
        | None => Epoch.final_size p
        | Some n => Some n
        end in
      let final_size :=
        match Epoch.final_size e with
        | None => initial_size
        | Some n => Some n
        end in
      (Ok (Deme.mk (Deme.id self) (Deme.ancestor self)
                   (Deme.epochs self ++ [epoch])),
       <[epoch := Epoch.mk (Epoch.start_time e) end_time initial_size final_size]>
         (<[prev_epoch := Epoch.set_end_time (Some (Epoch.start_time e)) p]> h)).
Proof.
  intros Hlast He Hp Hne. unfold Deme.add_epoch. rewrite Hlast.
  rewrite (bind_load _ _ _ _ He), (bind_load _ _ _ _ Hp).
  destruct (num_lt (Epoch.start_time e) (Epoch.start_time p)); [done |].
  destruct e as [s [t|] [n|] [m|]], p as [ps pe pn pm]; step_heap; unfold ret;
    f_equal; apply list_eq; intros i;
    (destruct (decide (i = epoch)) as [->|?];
     [| destruct (decide (i = prev_epoch)) as [->|?]]);
    repeat first
      [ erewrite lookup_insert_alias by heap_lookup
      | rewrite list_lookup_insert_ne by congruence ];
    first [reflexivity | congruence].
Qed.

(** ** What [add_epoch] can touch *)

Section Frames.
Context {A B : Type}.

Lemma frames_ret (S : list loc) (a : A) : frames S (ret a).
Proof. by intros h. Qed.

Lemma frames_raise (S : list loc) (e : exn) : frames S (@raise _ A e).
Proof. by intros h. Qed.

Lemma frames_bind (S : list loc) (m : M Heap A) (k : A -> M Heap B) :
  frames S m -> (forall a, frames S (k a)) -> frames S (bind m k).
Proof.
  intros Hm Hk h. unfold bind. specialize (Hm h).
  destruct (m h) as [[a|e] h1]; simpl in *; [| done].
  destruct (Hk a h1) as [Hl Hf]. destruct Hm as [Hl' Hf'].
  split; [congruence |]. intros l Hl0. rewrite Hf, Hf'; done.
Qed.

Lemma frames_mono (S S' : list loc) (m : M Heap A) :
  S ⊆ S' -> frames S m -> frames S' m.
Proof.
  intros Hsub Hm h. destruct (Hm h) as [Hl Hf]. split; [done |].
  intros l Hl0. apply Hf. set_solver.
Qed.

End Frames.

Lemma frames_load (S : list loc) (l : loc) : frames S (load l).
Proof. intros h. unfold load. by destruct (h !! l). Qed.

Lemma frames_update (S : list loc) (l : loc) (f : Epoch.t -> Epoch.t) :
  l ∈ S -> frames S (update l f).
Proof.
  intros Hin h. unfold update. destruct (h !! l) as [e|]; simpl; [| done].
  split; [apply length_insert |].
  intros l' Hl'. apply list_lookup_insert_ne. set_solver.
Qed.

Lemma frames_when (S : list loc) (b : bool) (m : M Heap unit) :
  frames S m -> frames S (when b m).
Proof. destruct b; [done | intros _; apply frames_ret]. Qed.

Lemma returns_bind {S A B} (P : B -> Prop) (m : M S A) (k : A -> M S B) :
  (forall a, returns P (k a)) -> returns P (bind m k).
Proof.
  intros Hk s b s'. unfold bind.
  destruct (m s) as [[a|e] s1]; [apply Hk | done].
Qed.

Lemma add_epoch_frames (self : Deme.t) (epoch : loc) :
  frames (Deme.epochs self ++ [epoch]) (Deme.add_epoch self epoch).
Proof.
  unfold Deme.add_epoch.
  destruct (last (Deme.epochs self)) as [prev_epoch|] eqn:Hlast;
    [| apply frames_raise].
  apply last_Some_elem_of in Hlast.
  repeat first
    [ apply frames_ret
    | apply frames_raise
    | apply frames_load
    | apply frames_update; set_solver
    | apply frames_when
    | apply frames_bind; [| intros ?]
    | match goal with
      | |- frames _ (if ?b then _ else _) => destruct b
      end ].
Qed.

Lemma add_epoch_returns (self : Deme.t) (epoch : loc) :
  returns (fun d => d = Deme.mk (Deme.id self) (Deme.ancestor self)
                          (Deme.epochs self ++ [epoch]))
          (Deme.add_epoch self epoch).
Proof.
  unfold Deme.add_epoch.
  destruct (last (Deme.epochs self)) as [prev_epoch|]; [| by intros ? ? ?].
  repeat first
    [ apply returns_bind; intros ?
    | match goal with
      | |- returns _ (if ?b then _ else _) => destruct b
      end ].
  - by intros ? ? ?.
  - intros ? ? ?. unfold ret. by intros [= <- _].
Qed.

(** The loop [for epoch in epochs: deme.add_epoch(epoch)]. *)
Lemma add_epochs_returns (epochs : list loc) (d : Deme.t) :
  returns (fun d' => d' = Deme.mk (Deme.id d) (Deme.ancestor d)
                            (Deme.epochs d ++ epochs))
          (foldM Deme.add_epoch d epochs).
Proof.
  revert d. induction epochs as [|l ls IH]; intros d h d' h'; simpl.
  - unfold ret. intros [= <- _]. rewrite app_nil_r. by destruct d.
  - unfold bind. destruct (Deme.add_epoch d l h) as [[d1|e] h1] eqn:E; [| done].
    apply add_epoch_returns in E. subst d1.
    intros H. apply IH in H. simpl in H. by rewrite <- app_assoc in H.
Qed.

Lemma add_epochs_frames (epochs : list loc) (d : Deme.t) :
  frames (Deme.epochs d ++ epochs) (foldM Deme.add_epoch d epochs).
Proof.
  revert d. induction epochs as [|l ls IH]; intros d h; simpl; [done |].
  unfold bind.
  destruct (add_epoch_frames d l h) as [Hlen Hfr].
  destruct (Deme.add_epoch d l h) as [[d1|e] h1] eqn:E; simpl in *.
  - apply add_epoch_returns in E. subst d1.
    destruct (IH (Deme.mk (Deme.id d) (Deme.ancestor d) (Deme.epochs d ++ [l])) h1)
      as [Hlen' Hfr'].
    simpl in *. split; [congruence |].
    intros l' Hl'. rewrite not_elem_of_app, not_elem_of_cons in Hl'.
    rewrite Hfr', Hfr; [done | |];
      rewrite ?not_elem_of_app, ?not_elem_of_cons;
      repeat split; try tauto; apply not_elem_of_nil.
  - split; [done |]. intros l' Hl'. apply Hfr.
    rewrite not_elem_of_app, not_elem_of_cons in *.
    repeat split; try tauto; apply not_elem_of_nil.
Qed.

(** ** [deme] *)

(** [deme], decomposed: the first epoch is validated against the state,
    stored under a new reference, wrapped in a [Deme]; the supplied epochs
    are added; the deme is registered. *)
Lemma deme_eq (w : World) (id : ID) (ancestor : option ID)
    (start_time end_time : Number) (initial_size final_size : option Number)
    (epochs : option (list loc)) :
  deme id ancestor start_time end_time initial_size final_size epochs w =
    match first_epoch w ancestor start_time end_time initial_size final_size with
    | Raise e => (Raise e, w)
    | Ok first =>
        let h := heap w ++ [first] in
        match Deme.new id ancestor [length (heap w)] with
        | Raise e => (Raise e, mkWorld h (graph w))
        | Ok d =>
            match foldM Deme.add_epoch d (default [] epochs) h with
            | (Raise e, h') => (Raise e, mkWorld h' (graph w))
            | (Ok d', h') => (Ok tt, mkWorld h' (register d' (graph w)))
            end
        end
    end.
Proof.
  assert (Hrest : forall (n t : Number),
    (epoch <- pure (Epoch.new start_time (Some t) (Some n)
                      (Some (default n final_size))) ;;
     epoch <- on_heap (alloc epoch) ;;
     deme <- pure (Deme.new id ancestor [epoch]) ;;
     deme <-
       match epochs with
       | Some epochs => on_heap (foldM Deme.add_epoch deme epochs)
       | None => ret deme
       end ;;
     modify_self (fun g =>
       set_demes_and_map (demes g ++ [deme])
         (<[Deme.id deme := deme]> (_deme_map g)) g)) w =
    match Epoch.new start_time (Some t) (Some n) (Some (default n final_size)) with
    | Raise e => (Raise e, w)
    | Ok first =>
        let h := heap w ++ [first] in
        match Deme.new id ancestor [length (heap w)] with
        | Raise e => (Raise e, mkWorld h (graph w))
        | Ok d =>
            match foldM Deme.add_epoch d (default [] epochs) h with
            | (Raise e, h') => (Raise e, mkWorld h' (graph w))
            | (Ok d', h') => (Ok tt, mkWorld h' (register d' (graph w)))
            end
        end
    end).
  { intros n t. unfold bind, pure, on_heap, alloc. simpl.
    destruct (Epoch.new _ _ _ _) as [first|e]; [| done]. simpl.
    destruct (Deme.new id ancestor _) as [d|e]; [| done].
    destruct epochs as [ls|]; simpl.
    - by destruct (foldM Deme.add_epoch d ls (heap w ++ [first])) as [[d'|e] h'].
    - done. }
  unfold deme, first_epoch.
  destruct initial_size as [n|]; simpl.
  - destruct ancestor as [a|].
    + rewrite bind_ret. unfold bind at 1. unfold bind at 1.
      rewrite contains_eq.
      destruct (_deme_map (graph w) !! a) as [anc|] eqn:Ea; simpl; [| done].
      unfold bind at 1. rewrite getitem_eq, Ea.
      rewrite (on_heap_pure _ _ w (start_time_eq (heap w) anc)).
      rewrite start_time_eq. simpl.
      destruct (head (Deme.epochs anc)) as [l|]; [| done].
      destruct (heap w !! l) as [e|]; [| done].
      apply Hrest.
    + rewrite !bind_ret. apply Hrest.
  - unfold bind at 1. unfold bind at 1. simpl.
    destruct (default_Ne (graph w)) as [n|]; [| done]. simpl.
    destruct ancestor as [a|].
    + unfold bind at 1. unfold bind at 1.
      rewrite contains_eq.
      destruct (_deme_map (graph w) !! a) as [anc|] eqn:Ea; simpl; [| done].
      unfold bind at 1. rewrite getitem_eq, Ea.
      rewrite (on_heap_pure _ _ w (start_time_eq (heap w) anc)).
      rewrite start_time_eq. simpl.
      destruct (head (Deme.epochs anc)) as [l|]; [| done].
      destruct (heap w !! l) as [e|]; [| done].
      apply Hrest.
    + rewrite !bind_ret. apply Hrest.
Qed.

(** ** What each method can change *)

Lemma add_pulses_nil (w : World) : add_pulses [] w = w.
Proof.
  unfold add_pulses, set_pulses. rewrite app_nil_r. by destruct w as [h []].
Qed.

Lemma add_pulses_app (ps1 ps2 : list Pulse.t) (w : World) :
  add_pulses ps2 (add_pulses ps1 w) = add_pulses (ps1 ++ ps2) w.
Proof. unfold add_pulses, set_pulses. simpl. by rewrite app_assoc. Qed.

(** [migration] only ever appends to [migrations]. *)
Lemma migration_appends (w : World) (source dest : ID) (rate : Number)
    (start_time end_time : option Number) :
  exists ms, snd (migration source dest rate start_time end_time w)
             = add_migrations ms w.
Proof.
  unfold migration, bind. rewrite check_in_graph_eq.
  destruct (_ && _); [| exists []; by rewrite add_migrations_nil].
  pose proof (check_time_intersection_pure w source dest start_time false) as Hp.
  destruct (check_time_intersection source dest start_time false w)
    as [[lo_hi|e] w1]; simpl in Hp; subst w1;
    [| exists []; by rewrite add_migrations_nil].
  unfold pure.
  destruct (Migration.new source dest _ rate) as [m1|e];
    [| exists []; by rewrite add_migrations_nil].
  unfold modify_self at 1. fold (add_migrations [m1] w).
  destruct end_time as [t|]; [| by exists [m1]].
  pose proof (check_time_intersection_pure (add_migrations [m1] w)
                source dest (Some t) false) as Hp.
  destruct (check_time_intersection source dest (Some t) false _)
    as [[lo_hi'|e] w1]; simpl in Hp; subst w1; [| by exists [m1]].
  destruct (Migration.new source dest t (Fin 0)) as [m2|e]; [| by exists [m1]].
  exists [m1; m2]. unfold modify_self, add_migrations, set_migrations. simpl.
  by rewrite <- app_assoc.
Qed.

Lemma symmetric_migration_appends (w : World) (ids : list ID) (rate : Number)
    (start_time end_time : option Number) :
  exists ms, snd (symmetric_migration ids rate start_time end_time w)
             = add_migrations ms w.
Proof.
  unfold symmetric_migration.
  destruct (length ids <? 2)%nat; [exists []; by rewrite add_migrations_nil |].
  generalize (permutations2 ids). intros pairs. revert w.
  induction pairs as [|[s d] pairs IH]; intros w; simpl.
  - exists []. by rewrite add_migrations_nil.
  - unfold bind at 1.
    destruct (migration_appends w s d rate start_time end_time) as [ms Hms].
    destruct (migration s d rate start_time end_time w) as [[[]|e] w1];
      simpl in Hms; subst w1; [| by exists ms].
    destruct (IH (add_migrations ms w)) as [ms' Hms'].
    exists (ms ++ ms'). by rewrite Hms', add_migrations_app.
Qed.

(** [pulse] appends one record or nothing. *)
Lemma pulse_appends (w : World) (source dest : ID) (proportion time : Number) :
  exists ps, snd (pulse source dest proportion time w) = add_pulses ps w.
Proof.
  destruct (pulse source dest proportion time w) as [r w'] eqn:E.
  apply pulse_outcome in E as [[_ ->]|[_ ->]]; simpl.
  - by eexists [_].
  - exists []. by rewrite add_pulses_nil.
Qed.

Lemma Deme_new_inv (id : ID) (ancestor : option ID) (epochs : list loc) (d : Deme.t) :
  Deme.new id ancestor epochs = Ok d -> d = Deme.mk id ancestor epochs.
Proof.
  unfold Deme.new. destruct (negb _); [done |].
  destruct (match ancestor with Some _ => _ | None => _ end); [done |].
  by intros [= <-].
Qed.

(** [deme] leaves the graph as it was, or registers one deme with the
    given id and ancestor whose epochs are the new first epoch followed by
    the supplied ones. *)
Lemma deme_registers (w : World) (id : ID) (ancestor : option ID)
    (start_time end_time : Number) (initial_size final_size : option Number)
    (epochs : option (list loc)) :
  let r := fst (deme id ancestor start_time end_time initial_size final_size
                  epochs w) in
  let w' := snd (deme id ancestor start_time end_time initial_size final_size
                   epochs w) in
  (r <> Ok tt /\ graph w' = graph w)
  \/ (r = Ok tt
      /\ graph w' = register (Deme.mk id ancestor
                                (length (heap w) :: default [] epochs))
                             (graph w)).
Proof.
  rewrite deme_eq.
  destruct (first_epoch _ _ _ _ _ _) as [first|e]; [| by left].
  simpl. destruct (Deme.new id ancestor _) as [d|e] eqn:Ed; [| by left].
  apply Deme_new_inv in Ed. subst d.
  destruct (foldM Deme.add_epoch _ _ _) as [[d'|e] h'] eqn:E; [| by left].
  apply add_epochs_returns in E. subst d'. by right.
Qed.

Lemma index_ok_register (d : Deme.t) (g : DemeGraph.t) :
  index_ok g -> index_ok (register d g).
Proof.
  intros H i. unfold register. simpl. rewrite filter_app.
  destruct (decide (Deme.id d = i)) as [<-|Hne].
  - rewrite lookup_insert_eq. rewrite filter_cons_True by done.
    rewrite filter_nil. by rewrite last_snoc.
  - rewrite lookup_insert_ne by done. rewrite filter_cons_False by done.
    rewrite filter_nil, app_nil_r. apply H.
Qed.

Lemma index_in_demes (g : DemeGraph.t) (i : ID) (d : Deme.t) :
  index_ok g -> _deme_map g !! i = Some d -> d ∈ demes g /\ Deme.id d = i.
Proof.
  intros H Hd. rewrite H in Hd. apply last_Some_elem_of in Hd.
  by apply list_elem_of_filter in Hd as [? ?].
Qed.

Lemma max_start_time_pure (w : World) (ancestors : list ID) :
  snd (max_start_time ancestors w) = w.
Proof.
  assert (Hstart : forall anc w,
            snd ((d <- __getitem__ anc ;; on_heap (Deme.start_time d)) w) = w).
  { intros anc w0. unfold bind. rewrite getitem_eq.
    destruct (_deme_map (graph w0) !! anc) as [d|]; [| done].
    by rewrite (on_heap_pure _ _ w0 (start_time_eq (heap w0) d)). }
  unfold max_start_time. destruct ancestors as [|anc rest]; [done |].
  unfold bind at 1. specialize (Hstart anc w) as H1.
  destruct ((d <- __getitem__ anc ;; on_heap (Deme.start_time d)) w)
    as [[first|e] w1]; simpl in H1; subst w1; [| done].
  revert first. induction rest as [|a rest IH]; intros first; [done |].
  simpl. unfold bind at 1. unfold bind at 1.
  specialize (Hstart a w) as H2.
  destruct ((d <- __getitem__ a ;; on_heap (Deme.start_time d)) w)
    as [[s|e] w1]; simpl in H2; subst w1; [| done].
  apply IH.
Qed.

(** [subgraph]'s loop only ever appends to [pulses]. *)
Lemma subgraph_loop_appends (deme_id : ID) (proportions : list Q)
    (end_time : Number) (jas : list (nat * ID)) (acc : option Q) (w : World) :
  exists ps, snd (foldM (subgraph_step deme_id proportions end_time) acc jas w)
             = add_pulses ps w.
Proof.
  revert acc w. induction jas as [|[j a] jas IH]; intros acc w; simpl.
  - exists []. by rewrite add_pulses_nil.
  - unfold bind at 1. unfold subgraph_step at 1. simpl.
    destruct (proportions !! j) as [pj|];
      [| exists []; by rewrite add_pulses_nil].
    unfold bind at 1. unfold bind at 1. unfold pure.
    destruct (divide pj (sum (drop j proportions))) as [q|e];
      [| exists []; by rewrite add_pulses_nil].
    destruct (pulse_appends w deme_id a (Fin q) end_time) as [ps Hps].
    destruct (pulse deme_id a (Fin q) end_time w) as [[[]|e] w1];
      simpl in Hps; subst w1; [| by exists ps].
    unfold ret at 1.
    destruct (IH (Some q) (add_pulses ps w)) as [ps' Hps'].
    exists (ps ++ ps'). by rewrite Hps', add_pulses_app.
Qed.

(** [subgraph] changes the state by at most one [deme] call followed by
    appended pulses. *)
Lemma subgraph_effect (w : World) (deme_id : ID) (ancestors : list ID)
    (proportions : list Q) (start_time : Number) (end_time : option Number)
    (initial_size final_size : option Number) (epochs : option (list loc)) :
  exists wd ps,
    (wd = w
     \/ exists t, wd = snd (deme deme_id None start_time t initial_size
                              final_size epochs w))
    /\ snd (subgraph deme_id ancestors proportions start_time end_time
              initial_size final_size epochs w) = add_pulses ps wd.
Proof.
  assert (Hnone : forall r : result unit, exists wd ps,
            (wd = w
             \/ exists t, wd = snd (deme deme_id None start_time t initial_size
                                      final_size epochs w))
            /\ snd (r, w) = add_pulses ps wd).
  { intros r. exists w, []. split; [by left | by rewrite add_pulses_nil]. }
  unfold subgraph.
  destruct (negb (length ancestors =? length proportions)%nat); [apply Hnone |].
  destruct (negb (isclose (sum proportions) 1)); [apply Hnone |].
  unfold bind at 1.
  assert (exists r, (match end_time with
                     | Some t => ret t
                     | None => max_start_time ancestors
                     end) w = (r, w)) as [r ->].
  { destruct end_time as [t|]; [by eexists |].
    pose proof (max_start_time_pure w ancestors) as Hp.
    destruct (max_start_time ancestors w) as [r w1]. simpl in Hp. subst w1.
    by eexists. }
  destruct r as [t|e]; [| apply Hnone].
  exists (snd (deme deme_id None start_time t initial_size final_size epochs w)).
  unfold bind at 1.
  destruct (deme deme_id None start_time t initial_size final_size epochs w)
    as [[[]|e] w1] eqn:Ed; simpl.
  2:{ exists []. split; [right; exists t; by rewrite Ed
                        | by rewrite add_pulses_nil]. }
  unfold bind at 1.
  destruct (subgraph_loop_appends deme_id proportions t
              (enumerate ancestors) None w1) as [ps Hps].
  exists ps. split; [right; exists t; by rewrite Ed |].
  destruct (foldM _ None (enumerate ancestors) w1) as [[p|e] w2];
    simpl in Hps; subst w2; [| done].
  destruct p as [p|]; [| done]. by destruct (Qeq_bool p 1).
Qed.

(** ** The id index *)

Lemma do_call_index (c : call) (w : World) :
  index_ok (graph w) -> index_ok (graph (snd (do_call c w))).
Proof.
  intros H.
  destruct c as [st et i f | id anc st et i f eps | s d rate st et
                | ids rate st et | s d pr tm | id ancs props st et i f eps];
    simpl.
  - unfold bind, pure. destruct (Epoch.new _ _ _ _); done.
  - destruct (deme_registers w id anc st et i f eps) as [[_ ->]|[_ ->]];
      [done | by apply index_ok_register].
  - destruct (migration_appends w s d rate st et) as [ms ->]. done.
  - destruct (symmetric_migration_appends w ids rate st et) as [ms ->]. done.
  - destruct (pulse_appends w s d pr tm) as [ps ->]. done.
  - destruct (subgraph_effect w id ancs props st et i f eps)
      as (wd & ps & [->|[t ->]] & ->); [done |].
    simpl.
    destruct (deme_registers w id None st t i f eps) as [[_ ->]|[_ ->]];
      [done | by apply index_ok_register].
Qed.

(** C10 as stated does not hold: nothing rejects a repeated id, so after
    [deme("A")] twice the list of demes holds the id [A] twice. *)
Lemma deme_ids_repeat :
  ~ (forall w, built w -> NoDup (Deme.id <$> demes (graph w))).
Proof.
  intros H.
  pose (c := deme_ "A" None (Fin 0) Inf None None None).
  assert (built (snd (do_call c (snd (do_call c w0))))) as Hb.
  { apply built_call; [apply built_call |]; try (intros l Hl; by inversion Hl).
    by apply (built_new "" "generations" (Fin 1) (Some (Fin 100)) None). }
  apply H in Hb. vm_compute in Hb.
  apply NoDup_cons in Hb as [Hin _]. apply Hin. by left.
Qed.

(** The index invariant holds in every reachable state. *)
Lemma built_index_ok (w : World) :
  built w -> index_ok (graph w).
Proof.
  induction 1 as [? ? ? ? ? g Hnew|w c Hb IH Hlocs].
  - unfold DemeGraph.new, and_then in Hnew.
    destruct (Validator.all _ _); [| done].
    destruct (Validator.optional _ _); [| done].
    injection Hnew as <-. intros i. simpl. by rewrite lookup_empty.
  - by apply do_call_index.
Qed.

(** ** Failing calls *)

Lemma built_w0 : built w0.
Proof. by apply (built_new "" "generations" (Fin 1) (Some (Fin 100)) None). Qed.

Lemma built_w_ab : built w_ab.
Proof.
  apply (built_call _ (deme_ "B" None (Fin 0) (Fin 100) None None None));
    [| intros l Hl; by inversion Hl].
  apply (built_call _ (deme_ "A" None (Fin 0) (Fin 100) None None None));
    [| intros l Hl; by inversion Hl].
  apply built_w0.
Qed.

(** C1 as stated does not hold: [migration] appends the record for
    [start_time] before it checks [end_time].  With [A] and [B] on
    [[0, 100)], the call with [end_time = 200] raises [ValueError] and
    leaves one more migration in the graph. *)
Lemma failed_migration_keeps_start_record :
  ~ (forall (w w' : World) (c : call) (e : exn),
        built w -> do_call c w = (Raise e, w') -> observe w' = observe w).
Proof.
  intros H.
  specialize (H w_ab
                (add_migrations [Migration.mk "A" "B" (Fin 0) (Fin 1)] w_ab)
                (migration_ "A" "B" (Fin 1) None (Some (Fin 200)))
                ValueError built_w_ab).
  assert (Hrun : do_call (migration_ "A" "B" (Fin 1) None (Some (Fin 200))) w_ab
                 = (Raise ValueError,
                    add_migrations [Migration.mk "A" "B" (Fin 0) (Fin 1)] w_ab))
    by (by vm_compute).
  apply H in Hrun. by vm_compute in Hrun.
Qed.

Lemma view_ext (h h' : Heap) (d : Deme.t) :
  (forall l, l ∈ Deme.epochs d -> h' !! l = h !! l) -> view h' d = view h d.
Proof.
  intros H. unfold view. f_equal.
  apply list_fmap_ext. intros i l Hl. apply H. by eapply list_elem_of_lookup_2.
Qed.

(** A change of the store that spares the objects the graph refers to
    cannot be observed. *)
Lemma observe_heap (g : DemeGraph.t) (h h' : Heap) :
  (forall d l, d ∈ demes g -> l ∈ Deme.epochs d -> h' !! l = h !! l) ->
  (forall i d l, _deme_map g !! i = Some d -> l ∈ Deme.epochs d ->
                 h' !! l = h !! l) ->
  observe (mkWorld h' g) = observe (mkWorld h g).
Proof.
  intros Hl Hm. unfold observe, asdict. simpl. f_equal; [f_equal; f_equal |].
  - apply list_fmap_ext. intros i d Hd. apply view_ext. intros l.
    apply Hl. by eapply list_elem_of_lookup_2.
  - apply map_fmap_ext. intros i d Hd. apply view_ext. intros l. by apply (Hm i).
Qed.

(** A [migration] without [end_time] that raises has changed nothing. *)
Lemma migration_no_end_fails (w w' : World) (source dest : ID) (rate : Number)
    (start_time : option Number) (e : exn) :
  migration source dest rate start_time None w = (Raise e, w') -> w' = w.
Proof.
  unfold migration, bind. rewrite check_in_graph_eq.
  destruct (_ && _); [| by intros [= _ <-]].
  pose proof (check_time_intersection_pure w source dest start_time false) as Hp.
  destruct (check_time_intersection source dest start_time false w)
    as [[lo_hi|e'] w1]; simpl in Hp; subst w1; [| by intros [= _ <-]].
  unfold pure.
  destruct (Migration.new source dest _ rate) as [m1|e']; [| by intros [= _ <-]].
  done.
Qed.

(** A [deme] call that raises has changed no object outside the new first
    epoch and the supplied epochs, and has left the graph object alone. *)
Lemma deme_fails (w w' : World) (id : ID) (ancestor : option ID)
    (start_time end_time : Number) (initial_size final_size : option Number)
    (epochs : option (list loc)) (e : exn) :
  deme id ancestor start_time end_time initial_size final_size epochs w
    = (Raise e, w') ->
  graph w' = graph w
  /\ forall l, (l < length (heap w))%nat -> l ∉ default [] epochs ->
               heap w' !! l = heap w !! l.
Proof.
  rewrite deme_eq.
  destruct (first_epoch _ _ _ _ _ _) as [first|e1]; [| by intros [= _ <-]].
  simpl. destruct (Deme.new id ancestor _) as [d|e1] eqn:Ed.
  2:{ intros [= _ <-]. split; [done |]. intros l Hl _. simpl.
      by apply lookup_app_l. }
  apply Deme_new_inv in Ed. subst d.
  pose proof (add_epochs_frames (default [] epochs)
                (Deme.mk id ancestor [length (heap w)]) (heap w ++ [first]))
    as [_ Hfr].
  destruct (foldM Deme.add_epoch _ _ _) as [[d'|e1] h']; [done |].
  intros [= _ <-]. split; [done |]. intros l Hl Hnin. simpl in *.
  rewrite Hfr.
  - by apply lookup_app_l.
  - rewrite not_elem_of_cons. split; [lia | done].
Qed.

(** C1 (amended). On a graph whose references all point into the store, a
    call to [deme] (given epoch objects that no deme of the graph holds),
    to [pulse], to [migration] without [end_time], or to
    [symmetric_migration] with fewer than two ids that raises, and a
    [subgraph] call rejected by its own length or sum check, leave the
    demes, migrations, pulses and id index of the graph as they were. *)
Theorem failed_call_unchanged (w w' : World) (c : call) (e : exn) :
  closed w -> atomic w c -> do_call c w = (Raise e, w') ->
  observe w' = observe w.
Proof.
  intros [Hcl Hcm] Hat.
  destruct c as [st et i f | id anc st et i f eps | s d rate st et
                | ids rate st et | s d pr tm | id ancs props st et i f eps];
    simpl in *.
  - unfold bind, pure, on_heap, alloc.
    destruct (Epoch.new st et i f); simpl; [done | by intros [= _ <-]].
  - intros H. apply deme_fails in H as [Hg Hh].
    destruct w as [h g], w' as [h' g']. simpl in *. subst g'.
    apply observe_heap.
    + intros d0 l Hd Hl. apply Hh; [by eapply Hcl |].
      intros Hin. destruct (Hat l Hin) as [Hu _]. by apply (Hu d0).
    + intros k d0 l Hd Hl. apply Hh; [by eapply Hcm |].
      intros Hin. destruct (Hat l Hin) as [_ Hu]. by apply (Hu k d0).
  - subst et. intros H. apply migration_no_end_fails in H. by subst.
  - unfold symmetric_migration. apply Nat.ltb_lt in Hat. rewrite Hat.
    by intros [= _ <-].
  - intros H. apply pulse_outcome in H as [[[=] _]|[_ ->]]; done.
  - unfold subgraph. destruct Hat as [Hlen|Hsum].
    + apply Nat.eqb_neq in Hlen. rewrite Hlen. by intros [= _ <-].
    + destruct (negb (length ancs =? length props)%nat); [by intros [= _ <-] |].
      rewrite Hsum. by intros [= _ <-].
Qed.

(** ** References stay inside the store *)

Lemma deme_heap_length (w : World) (id : ID) (ancestor : option ID)
    (start_time end_time : Number) (initial_size final_size : option Number)
    (epochs : option (list loc)) :
  let r := fst (deme id ancestor start_time end_time initial_size final_size
                  epochs w) in
  let w' := snd (deme id ancestor start_time end_time initial_size final_size
                   epochs w) in
  (length (heap w) <= length (heap w'))%nat
  /\ (r = Ok tt -> length (heap w') = S (length (heap w))).
Proof.
  rewrite deme_eq.
  destruct (first_epoch _ _ _ _ _ _) as [first|e]; [| by split].
  simpl. destruct (Deme.new id ancestor _) as [d|e].
  2:{ simpl. rewrite length_app. simpl. split; [lia | done]. }
  pose proof (add_epochs_frames (default [] epochs) d (heap w ++ [first]))
    as [Hlen _].
  rewrite length_app in Hlen. simpl in Hlen.
  destruct (foldM Deme.add_epoch _ _ _) as [[d'|e] h']; simpl in *;
    split; try done; lia.
Qed.

Lemma closed_grow (h h' : Heap) (g : DemeGraph.t) :
  (length h <= length h')%nat -> closed (mkWorld h g) -> closed (mkWorld h' g).
Proof.
  intros Hle [H1 H2]. split; simpl in *.
  - intros d l Hd Hl. specialize (H1 d l Hd Hl). lia.
  - intros i d l Hd Hl. specialize (H2 i d l Hd Hl). lia.
Qed.

Lemma closed_register (h : Heap) (g : DemeGraph.t) (d : Deme.t) :
  closed (mkWorld h g) ->
  (forall l, l ∈ Deme.epochs d -> (l < length h)%nat) ->
  closed (mkWorld h (register d g)).
Proof.
  intros [H1 H2] Hd. split; simpl in *.
  - intros d0 l Hin Hl. apply elem_of_app in Hin as [Hin|Hin].
    + by apply (H1 d0).
    + apply list_elem_of_singleton in Hin. subst d0. by apply Hd.
  - intros i d0 l Hin Hl.
    destruct (decide (Deme.id d = i)) as [<-|Hne].
    + rewrite lookup_insert_eq in Hin. injection Hin as <-. by apply Hd.
    + rewrite lookup_insert_ne in Hin by done. by apply (H2 i d0).
Qed.

Lemma deme_closed (w : World) (id : ID) (ancestor : option ID)
    (start_time end_time : Number) (initial_size final_size : option Number)
    (epochs : option (list loc)) :
  closed w ->
  (forall l, l ∈ default [] epochs -> (l < length (heap w))%nat) ->
  closed (snd (deme id ancestor start_time end_time initial_size final_size
                 epochs w)).
Proof.
  intros Hc Hl.
  pose proof (deme_heap_length w id ancestor start_time end_time initial_size
                final_size epochs) as [Hle Hs].
  pose proof (deme_registers w id ancestor start_time end_time initial_size
                final_size epochs) as Hr.
  simpl in *.
  destruct (deme id ancestor start_time end_time initial_size final_size
              epochs w) as [r [h' g']].
  destruct w as [h g]. simpl in *.
  destruct Hr as [[_ ->]|[Hok ->]].
  - by apply (closed_grow h).
  - apply closed_register; [by apply (closed_grow h) |].
    simpl. intros l Hin. rewrite (Hs Hok).
    apply elem_of_cons in Hin as [->|Hin]; [lia |].
    specialize (Hl l Hin). lia.
Qed.

Lemma do_call_closed (c : call) (w : World) :
  closed w ->
  (forall l, l ∈ call_epochs c -> (l < length (heap w))%nat) ->
  closed (snd (do_call c w)).
Proof.
  intros Hc Hl.
  destruct c as [st et i f | id anc st et i f eps | s d rate st et
                | ids rate st et | s d pr tm | id ancs props st et i f eps];
    simpl in *.
  - unfold bind, pure, on_heap, alloc.
    destruct (Epoch.new st et i f); simpl; [| done].
    destruct w as [h g]. apply (closed_grow h); [| done].
    simpl. rewrite length_app. lia.
  - apply deme_closed; [done |]. by destruct eps.
  - destruct (migration_appends w s d rate st et) as [ms ->]. done.
  - destruct (symmetric_migration_appends w ids rate st et) as [ms ->]. done.
  - destruct (pulse_appends w s d pr tm) as [ps ->]. done.
  - destruct (subgraph_effect w id ancs props st et i f eps)
      as (wd & ps & [->|[t ->]] & ->); [done |].
    assert (closed (snd (deme id None st t i f eps w))) as Hd.
    { apply deme_closed; [done |]. by destruct eps. }
    done.
Qed.

(** Every state a program can reach is closed. *)
Lemma built_closed (w : World) : built w -> closed w.
Proof.
  induction 1 as [? ? ? ? ? g Hnew|w c Hb IH Hlocs].
  - unfold DemeGraph.new, and_then in Hnew.
    destruct (Validator.all _ _); [| done].
    destruct (Validator.optional _ _); [| done].
    injection Hnew as <-. split; simpl.
    + intros d l Hd. by apply elem_of_nil in Hd.
    + intros i d l Hd. by rewrite lookup_empty in Hd.
  - by apply do_call_closed.
Qed.

(** ** The first epoch of a deme *)

Lemma Epoch_new_inv (start_time : Number) (end_time initial_size final_size : option Number)
    (e : Epoch.t) :
  Epoch.new start_time end_time initial_size final_size = Ok e ->
  Epoch.start_time e = start_time
  /\ Epoch.end_time e = end_time
  /\ Epoch.initial_size e = initial_size
  /\ Epoch.final_size e = match final_size with
                           | None => initial_size
                           | Some n => Some n
                           end.
Proof.
  unfold Epoch.new, and_then.
  destruct (Validator.all _ start_time); [| done].
  destruct (Validator.optional _ end_time); [| done].
  destruct (Validator.optional _ initial_size); [| done].
  destruct (Validator.optional _ final_size); [| done].
  unfold Epoch.__attrs_post_init__. simpl.
  destruct (Epoch.is_None initial_size && Epoch.is_None final_size); [done |].
  destruct (match end_time with Some _ => _ | None => _ end); [done |].
  destruct final_size as [n|]; simpl; intros [= <-]; done.
Qed.

Section Keeps.
Context {A B : Type}.

Lemma same_but_end_refl (e : Epoch.t) : same_but_end e e.
Proof. done. Qed.

Lemma same_but_end_trans (e1 e2 e3 : Epoch.t) :
  same_but_end e1 e2 -> same_but_end e2 e3 -> same_but_end e1 e3.
Proof. unfold same_but_end. intros (? & ? & ?) (? & ? & ?). repeat split; congruence. Qed.

Lemma keeps_ret (S : list loc) (a : A) : keeps S (ret a).
Proof. intros h l e _ H. exists e. by split. Qed.

Lemma keeps_raise (S : list loc) (x : exn) : keeps S (@raise _ A x).
Proof. intros h l e _ H. exists e. by split. Qed.

Lemma keeps_bind (S : list loc) (m : M Heap A) (k : A -> M Heap B) :
  keeps S m -> (forall a, keeps S (k a)) -> keeps S (bind m k).
Proof.
  intros Hm Hk h l e Hl He. unfold bind.
  destruct (Hm h l e Hl He) as (e1 & H1 & Hs1).
  destruct (m h) as [[a|x] h1]; simpl in *; [| by exists e1].
  destruct (Hk a h1 l e1 Hl H1) as (e2 & H2 & Hs2).
  exists e2. split; [done |]. by eapply same_but_end_trans.
Qed.

End Keeps.

Lemma keeps_load (S : list loc) (l : loc) : keeps S (load l).
Proof.
  intros h l' e _ H. unfold load. exists e. by destruct (h !! l).
Qed.

Lemma keeps_update (S : list loc) (l : loc) (f : Epoch.t -> Epoch.t) :
  l ∈ S -> keeps S (update l f).
Proof.
  intros Hin h l' e Hl' H. unfold update. exists e.
  destruct (h !! l) as [x|]; simpl; [| done].
  split; [| done]. rewrite list_lookup_insert_ne; [done |].
  intros ->. contradiction.
Qed.

Lemma keeps_update_end (S : list loc) (l : loc) (t : option Number) :
  keeps S (update l (Epoch.set_end_time t)).
Proof.
  intros h l' e Hl' H. unfold update.
  destruct (h !! l) as [x|] eqn:Hx; simpl; [| by exists e].
  destruct (decide (l = l')) as [->|Hne].
  - exists (Epoch.set_end_time t x). split.
    + apply list_lookup_insert_eq. by eapply lookup_lt_Some.
    + replace x with e by congruence. done.
  - exists e. by rewrite list_lookup_insert_ne.
Qed.

Lemma keeps_when (S : list loc) (b : bool) (m : M Heap unit) :
  keeps S m -> keeps S (when b m).
Proof. destruct b; [done | intros _; apply keeps_ret]. Qed.

(** [add_epoch] changes, outside the epoch it is given, at most an
    [end_time]. *)
Lemma add_epoch_keeps (self : Deme.t) (epoch : loc) :
  keeps [epoch] (Deme.add_epoch self epoch).
Proof.
  unfold Deme.add_epoch.
  destruct (last (Deme.epochs self)) as [prev_epoch|]; [| apply keeps_raise].
  repeat first
    [ apply keeps_ret
    | apply keeps_raise
    | apply keeps_load
    | apply keeps_update_end
    | apply keeps_update; by left
    | apply keeps_when
    | apply keeps_bind; [| intros ?]
    | match goal with
      | |- keeps _ (if ?b then _ else _) => destruct b
      end ].
Qed.

Lemma add_epochs_keeps (epochs : list loc) (d : Deme.t) :
  keeps epochs (foldM Deme.add_epoch d epochs).
Proof.
  revert d. induction epochs as [|l ls IH]; intros d; simpl.
  - apply keeps_ret.
  - intros h l' e Hl' He. apply not_elem_of_cons in Hl' as [Hne Hl'].
    unfold bind.
    destruct (add_epoch_keeps d l h l' e) as (e1 & H1 & Hs1);
      [by apply not_elem_of_cons; split; [| apply not_elem_of_nil] | done |].
    destruct (Deme.add_epoch d l h) as [[d1|x] h1]; simpl in *; [| by exists e1].
    destruct (IH d1 h1 l' e1 Hl' H1) as (e2 & H2 & Hs2).
    exists e2. split; [done |]. by eapply same_but_end_trans.
Qed.

(** Adding distinct epoch objects whose [end_time] is unset hands the
    deme's end time on to the last of them. *)
Lemma add_epochs_end_time (ls : list loc) :
  forall (d d' : Deme.t) (h h' : Heap) (p : loc) (ep : Epoch.t) (s : Number),
    last (Deme.epochs d) = Some p -> h !! p = Some ep ->
    Epoch.end_time ep = Some s ->
    NoDup ls -> p ∉ ls ->
    (forall l, l ∈ ls -> exists e, h !! l = Some e /\ Epoch.end_time e = None) ->
    foldM Deme.add_epoch d ls h = (Ok d', h') ->
    exists q eq,
      last (Deme.epochs d') = Some q /\ h' !! q = Some eq
      /\ Epoch.end_time eq = Some s.
Proof.
  induction ls as [|l ls IH]; intros d d' h h' p ep s Hlast Hp Hend Hnd Hnin Hall;
    simpl.
  - intros [= <- <-]. by exists p, ep.
  - apply NoDup_cons in Hnd as [Hl Hnd].
    apply not_elem_of_cons in Hnin as [Hpl Hnin].
    destruct (Hall l) as (e & He & Hunset); [by left |].
    unfold bind.
    rewrite (add_epoch_eq d h l p e ep Hlast He Hp) by congruence.
    destruct (num_lt (Epoch.start_time e) (Epoch.start_time ep)); [done |].
    simpl. rewrite Hunset, Hend.
    intros H. eapply IH; cycle 6.
    + exact H.
    + simpl. apply last_snoc.
    + apply list_lookup_insert_eq. rewrite length_insert.
      by eapply lookup_lt_Some.
    + done.
    + done.
    + done.
    + intros l' Hl'. destruct (Hall l') as (e' & He' & Hunset'); [by right |].
      exists e'. split; [| done].
      rewrite !list_lookup_insert_ne; [done | |]; intros ->; contradiction.
Qed.

(** What a successful [first_epoch] has checked and built. *)
Lemma first_epoch_inv (w : World) (ancestor : option ID)
    (start_time end_time : Number) (initial_size final_size : option Number)
    (first : Epoch.t) :
  first_epoch w ancestor start_time end_time initial_size final_size = Ok first ->
  Epoch.start_time first = start_time
  /\ (exists n, Epoch.initial_size first = Some n
                /\ (initial_size = Some n
                    \/ initial_size = None /\ default_Ne (graph w) = Some n))
  /\ match ancestor with
     | None => Epoch.end_time first = Some end_time
     | Some a => exists s, start_of w a = Some s
                           /\ Epoch.end_time first = Some s
     end.
Proof.
  unfold first_epoch.
  assert (exists r, r = match initial_size with
                        | Some n => Ok n
                        | None => match default_Ne (graph w) with
                                  | Some n => Ok n
                                  | None => Raise ValueError
                                  end
                        end
                    /\ forall n, r = Ok n ->
                         initial_size = Some n
                         \/ initial_size = None /\ default_Ne (graph w) = Some n)
    as (r & <- & Hr).
  { eexists. split; [reflexivity |].
    destruct initial_size as [n|]; [intros ? [= <-]; by left |].
    destruct (default_Ne (graph w)) as [n|]; [| done].
    intros ? [= <-]. by right. }
  destruct r as [n|]; [| done]. specialize (Hr n eq_refl).
  destruct ancestor as [a|].
  - unfold start_of.
    destruct (_deme_map (graph w) !! a) as [anc|]; [| done]. simpl.
    rewrite start_time_eq. simpl.
    destruct (head (Deme.epochs anc)) as [l|]; [| done]. simpl.
    destruct (heap w !! l) as [e|]; [| done]. simpl.
    intros H. apply Epoch_new_inv in H as (? & ? & ? & ?).
    repeat split; eauto.
  - intros H. apply Epoch_new_inv in H as (? & ? & ? & ?).
    repeat split; eauto.
Qed.

Lemma built_w_anc : built w_anc.
Proof.
  apply (built_call _ (Epoch_ (Fin 10) (Some (Fin 50)) (Some (Fin 5)) None));
    [| intros l Hl; by inversion Hl].
  apply (built_call _ (deme_ "A" None (Fin 100) Inf None None None));
    [| intros l Hl; by inversion Hl].
  apply built_w0.
Qed.

(** C5, evaluated where the code breaks it.  [A] starts at [100].  The
    call [deme("B", ancestor="A", epochs=[Epoch(10, 50, 5)])] succeeds:
    [deme] builds the first epoch of [B] to end at [100], the start of
    [A], but [add_epoch] then closes that epoch at [10] and the supplied
    epoch keeps the [end_time] it came with.  [B] ends at [50], and not
    where its ancestor starts. *)
Theorem deme_end_time_not_forced :
  exists w1 w2 w3,
    do_call (deme_ "A" None (Fin 100) Inf None None None) w0 = (Ok tt, w1)
    /\ do_call (Epoch_ (Fin 10) (Some (Fin 50)) (Some (Fin 5)) None) w1
       = (Ok tt, w2)
    /\ do_call (deme_ "B" (Some "A") (Fin 0) Inf None None (Some [1%nat])) w2
       = (Ok tt, w3)
    /\ start_of w3 "A" = Some (Fin 100)
    /\ end_of w3 "B" = Some (Fin 50)
    /\ fst (fst (asdict w3))
       = [mk_view "A" None
            [Some (Epoch.mk (Fin 100) (Some Inf)
                     (Some (Fin 100)) (Some (Fin 100)))];
          mk_view "B" (Some "A")
            [Some (Epoch.mk (Fin 0) (Some (Fin 10))
                     (Some (Fin 100)) (Some (Fin 100)));
             Some (Epoch.mk (Fin 10) (Some (Fin 50))
                     (Some (Fin 5)) (Some (Fin 5)))]].
Proof. eexists _, _, _. repeat split; by vm_compute. Qed.

(** What [deme] does guarantee, given existing epoch objects: with
    [initial_size] omitted and no [default_Ne] the call raises
    [ValueError]; with an ancestor that is not registered it raises
    [ValueError]; in both cases nothing changes.  A successful call
    registers a deme with the given id and ancestor whose first epoch
    starts at [start_time] with the resolved [initial_size] (the given
    one, else [default_Ne]); when an ancestor is given the first epoch is
    built to end at the ancestor's start time whatever [end_time] was
    passed, so the new deme ends at the ancestor's start time provided the
    supplied epochs are distinct objects that leave their own [end_time]
    unset. *)
Theorem deme_spec (w w' : World) (id : ID) (ancestor : option ID)
    (start_time end_time : Number) (initial_size final_size : option Number)
    (epochs : option (list loc)) (r : result unit) :
  (forall l, l ∈ default [] epochs -> (l < length (heap w))%nat) ->
  deme id ancestor start_time end_time initial_size final_size epochs w
    = (r, w') ->
  (initial_size = None -> default_Ne (graph w) = None ->
     r = Raise ValueError /\ w' = w)
  /\ (forall a, ancestor = Some a -> _deme_map (graph w) !! a = None ->
        r = Raise ValueError /\ w' = w)
  /\ (r = Ok tt ->
        graph w' = register (Deme.mk id ancestor
                               (length (heap w) :: default [] epochs))
                            (graph w)
        /\ exists first n,
             heap w' !! length (heap w) = Some first
             /\ Epoch.start_time first = start_time
             /\ Epoch.initial_size first = Some n
             /\ (initial_size = Some n
                 \/ initial_size = None /\ default_Ne (graph w) = Some n)
             /\ forall a, ancestor = Some a ->
                  exists s, start_of w a = Some s
                    /\ (NoDup (default [] epochs) ->
                        (forall l, l ∈ default [] epochs ->
                           exists e, heap w !! l = Some e
                                     /\ Epoch.end_time e = None) ->
                        end_of w' id = Some s)).
Proof.
  intros Hvalid. rewrite deme_eq. intros Hrun.
  split; [| split].
  - intros -> HNe. unfold first_epoch in Hrun. rewrite HNe in Hrun.
    by injection Hrun as <- <-.
  - intros a -> Ha. unfold first_epoch in Hrun. rewrite Ha in Hrun.
    destruct initial_size; [| destruct (default_Ne (graph w))];
      by injection Hrun as <- <-.
  - intros ->.
    destruct (first_epoch w ancestor start_time end_time initial_size final_size)
      as [first0|e] eqn:Hfirst; [| done].
    simpl in Hrun.
    destruct (Deme.new id ancestor [length (heap w)]) as [d0|e] eqn:Ed; [| done].
    apply Deme_new_inv in Ed. subst d0.
    destruct (foldM Deme.add_epoch _ (default [] epochs) (heap w ++ [first0]))
      as [[d'|e] h'] eqn:Hfold; [| done].
    injection Hrun as <-.
    pose proof Hfold as Hshape. apply add_epochs_returns in Hshape.
    simpl in Hshape. subst d'. split; [done |].
    apply first_epoch_inv in Hfirst as (Hst & (n & Hn & Hres) & Hanc).
    assert (Hl0 : length (heap w) ∉ default [] epochs).
    { intros Hin. specialize (Hvalid _ Hin). lia. }
    assert (H0 : (heap w ++ [first0]) !! length (heap w) = Some first0).
    { by apply list_lookup_middle. }
    destruct (add_epochs_keeps (default [] epochs)
                (Deme.mk id ancestor [length (heap w)]) (heap w ++ [first0])
                (length (heap w)) first0 Hl0 H0) as (first & Hf & Hs1 & Hs2 & Hs3).
    rewrite Hfold in Hf. simpl in Hf.
    exists first, n. repeat split; try done; try congruence.
    intros a ->. destruct Hanc as (s & Hs & Hend).
    exists s. split; [done |]. intros Hnd Hunset.
    assert (Hun : forall l, l ∈ default [] epochs ->
              exists e, (heap w ++ [first0]) !! l = Some e
                        /\ Epoch.end_time e = None).
    { intros l Hl. destruct (Hunset l Hl) as (e & He & Hu).
      exists e. split; [| done]. rewrite lookup_app_l; [done |]. by apply Hvalid. }
    destruct (add_epochs_end_time (default [] epochs)
                (Deme.mk id (Some a) [length (heap w)]) _ _ _
                (length (heap w)) first0 s eq_refl H0 Hend Hnd Hl0 Hun Hfold)
      as (q & eq & Hq & Hhq & Heq).
    unfold end_of, register. simpl. rewrite lookup_insert_eq. simpl.
    simpl in Hq. rewrite Hq. simpl. rewrite Hhq. simpl. done.
Qed.

(** ** Epoch times *)

(** C2, evaluated where the code breaks it.  After the two successful calls
    [e = Epoch(0, initial_size=50)] and
    [deme("A", start_time=0, epochs=[e])], the first epoch of [A] runs from
    [0] to [0]: [add_epoch] accepts a new epoch that starts exactly when
    the previous one does and closes the previous one at that time.  The
    constructor [Epoch] itself rejects such times. *)
Theorem add_epoch_empties_previous_epoch :
  exists w1 w2,
    do_call (Epoch_ (Fin 0) None (Some (Fin 50)) None) w0 = (Ok tt, w1)
    /\ do_call (deme_ "A" None (Fin 0) Inf None None (Some [0%nat])) w1
       = (Ok tt, w2)
    /\ fst (fst (asdict w2))
       = [mk_view "A" None
            [Some (Epoch.mk (Fin 0) (Some (Fin 0))
                     (Some (Fin 100)) (Some (Fin 100)));
             Some (Epoch.mk (Fin 0) (Some Inf)
                     (Some (Fin 50)) (Some (Fin 50)))]]
    /\ (exists v, v ∈ fst (fst (asdict w2)) /\ ~ well_timed v)
    /\ Epoch.new (Fin 0) (Some (Fin 0)) (Some (Fin 100)) (Some (Fin 100))
       = Raise ValueError.
Proof.
  eexists _, _. split; [by vm_compute |]. split; [by vm_compute |].
  split; [by vm_compute |]. split; [| by vm_compute].
  eexists. split; [vm_compute; by left |].
  intros [_ Hstrict].
  destruct (Hstrict (Epoch.mk (Fin 0) (Some (Fin 0))
                       (Some (Fin 100)) (Some (Fin 100))))
    as (t & Ht & Hlt); [by left |].
  injection Ht as <-. simpl in Hlt. by apply Qlt_irrefl in Hlt.
Qed.

(** The same defect from the other side: a new epoch with [end_time] unset
    inherits the deme's end time even when it starts later.  After
    [deme("A", start_time=0, end_time=50, epochs=[Epoch(60, initial_size=5)])]
    the last epoch of [A] runs from [60] to [50]. *)
Lemma add_epoch_inherits_earlier_end :
  exists w1 w2,
    do_call (Epoch_ (Fin 60) None (Some (Fin 5)) None) w0 = (Ok tt, w1)
    /\ do_call (deme_ "A" None (Fin 0) (Fin 50) None None (Some [0%nat])) w1
       = (Ok tt, w2)
    /\ fst (fst (asdict w2))
       = [mk_view "A" None
            [Some (Epoch.mk (Fin 0) (Some (Fin 60))
                     (Some (Fin 100)) (Some (Fin 100)));
             Some (Epoch.mk (Fin 60) (Some (Fin 50))
                     (Some (Fin 5)) (Some (Fin 5)))]].
Proof. eexists _, _. repeat split; by vm_compute. Qed.

(** Appending one epoch keeps a deme contiguous. *)
Lemma add_epoch_contiguous (d d' : Deme.t) (h h' : Heap) (l : loc) :
  NoDup (Deme.epochs d) -> l ∉ Deme.epochs d ->
  (forall l0, l0 ∈ Deme.epochs d -> (l0 < length h)%nat) ->
  (l < length h)%nat ->
  contiguous h d ->
  Deme.add_epoch d l h = (Ok d', h') ->
  d' = Deme.mk (Deme.id d) (Deme.ancestor d) (Deme.epochs d ++ [l])
  /\ length h' = length h
  /\ contiguous h' d'.
Proof.
  intros Hnd Hl Hvalid Hlv Hcont Hrun.
  pose proof Hrun as Hshape. apply add_epoch_returns in Hshape. subst d'.
  split; [done |].
  destruct (add_epoch_frames d l h) as [Hlen _]. rewrite Hrun in Hlen.
  split; [done |].
  destruct (last (Deme.epochs d)) as [p|] eqn:Hlast.
  2:{ unfold Deme.add_epoch in Hrun. by rewrite Hlast in Hrun. }
  pose proof Hlast as Hp_in. apply last_Some_elem_of in Hp_in.
  destruct (lookup_lt_is_Some_2 h l Hlv) as [e He].
  destruct (lookup_lt_is_Some_2 h p (Hvalid p Hp_in)) as [ep Hep].
  assert (Hne : l <> p) by (intros ->; contradiction).
  rewrite (add_epoch_eq d h l p e ep Hlast He Hep Hne) in Hrun.
  destruct (num_lt (Epoch.start_time e) (Epoch.start_time ep)) eqn:Hlt; [done |].
  simpl in Hrun. injection Hrun as <-.
  apply num_lt_false_le, num_le_iff in Hlt.
  rewrite last_lookup in Hlast.
  intros i l1 l2 e1 e2 H1 H2. simpl in H1, H2.
  destruct (decide (S i < length (Deme.epochs d))%nat) as [Hi|Hi].
  - rewrite lookup_app_l in H1 by lia. rewrite lookup_app_l in H2 by lia.
    assert (l1 <> l) by (intros ->; by apply Hl, (list_elem_of_lookup_2 _ i)).
    assert (l2 <> l) by (intros ->; by apply Hl, (list_elem_of_lookup_2 _ (S i))).
    assert (l1 <> p).
    { intros ->. apply (NoDup_lookup _ _ _ _ Hnd H1) in Hlast. lia. }
    rewrite !(list_lookup_insert_ne _ l l1), !(list_lookup_insert_ne _ p l1) by done.
    rewrite !(list_lookup_insert_ne _ l l2) by done.
    intros He1. destruct (decide (l2 = p)) as [->|Hl2].
    + rewrite list_lookup_insert_eq by by eapply lookup_lt_Some.
      intros [= <-]. simpl. by apply (Hcont i l1 p).
    + rewrite list_lookup_insert_ne by done. by apply (Hcont i l1 l2).
  - assert (S i = length (Deme.epochs d)) as Hi'.
    { apply lookup_lt_Some in H2. rewrite length_app in H2. simpl in H2. lia. }
    rewrite lookup_app_l in H1 by lia.
    rewrite Hi' in H2. rewrite list_lookup_middle in H2 by done.
    injection H2 as <-.
    assert (l1 = p) as ->.
    { replace (pred (length (Deme.epochs d))) with i in Hlast by lia. congruence. }
    rewrite list_lookup_insert_ne by done.
    rewrite list_lookup_insert_eq by by eapply lookup_lt_Some.
    rewrite list_lookup_insert_eq
      by (rewrite length_insert; by eapply lookup_lt_Some).
    intros [= <-] [= <-]. simpl. by split.
Qed.

(** The loop of [deme] over distinct new epoch objects keeps the deme
    under construction contiguous. *)
Lemma add_epochs_contiguous (ls : list loc) :
  forall (d d' : Deme.t) (h h' : Heap),
    NoDup (Deme.epochs d ++ ls) ->
    (forall l, l ∈ Deme.epochs d ++ ls -> (l < length h)%nat) ->
    contiguous h d ->
    foldM Deme.add_epoch d ls h = (Ok d', h') ->
    contiguous h' d'.
Proof.
  induction ls as [|l ls IH]; intros d d' h h' Hnd Hvalid Hcont; simpl.
  - by intros [= <- <-].
  - unfold bind.
    destruct (Deme.add_epoch d l h) as [[d1|x] h1] eqn:Hadd; [| done].
    apply NoDup_app in Hnd as (Hnd1 & Hdisj & Hnd2).
    apply NoDup_cons in Hnd2 as [Hl Hnd2].
    apply add_epoch_contiguous in Hadd as (-> & Hlen & Hc1); try done.
    + apply IH; [| | done].
      * simpl. rewrite <- app_assoc. simpl. apply NoDup_app. repeat split; try done.
        by apply NoDup_cons.
      * simpl. intros l0 Hl0. rewrite Hlen. apply Hvalid.
        rewrite <- app_assoc in Hl0. done.
    + intros Hin. apply (Hdisj l Hin). by left.
    + intros l0 Hl0. apply Hvalid. apply elem_of_app. by left.
    + apply Hvalid. apply elem_of_app. right. by left.
Qed.

Lemma contiguous_ext (h h' : Heap) (d : Deme.t) :
  (forall l, l ∈ Deme.epochs d -> h' !! l = h !! l) ->
  contiguous h d -> contiguous h' d.
Proof.
  intros Hext Hc i l1 l2 e1 e2 H1 H2.
  rewrite (Hext l1) by by eapply list_elem_of_lookup_2.
  rewrite (Hext l2) by by eapply list_elem_of_lookup_2.
  by apply (Hc i).
Qed.

(** [deme], given distinct existing epoch objects that no deme holds, keeps
    every deme of the graph contiguous, the new one included. *)
Lemma deme_contiguous (w : World) (id : ID) (ancestor : option ID)
    (start_time end_time : Number) (initial_size final_size : option Number)
    (epochs : option (list loc)) :
  closed w ->
  (forall d, d ∈ demes (graph w) -> contiguous (heap w) d) ->
  NoDup (default [] epochs) ->
  (forall l, l ∈ default [] epochs ->
             (l < length (heap w))%nat /\ unused w l) ->
  forall d,
    d ∈ demes (graph (snd (deme id ancestor start_time end_time initial_size
                             final_size epochs w))) ->
    contiguous
      (heap (snd (deme id ancestor start_time end_time initial_size
                    final_size epochs w))) d.
Proof.
  intros [Hcl _] Hinv Hnd Hfresh. rewrite deme_eq.
  destruct (first_epoch _ _ _ _ _ _) as [first|x]; [| done].
  assert (Hold : forall h', (forall l, (l < length (heap w))%nat ->
                                l ∉ default [] epochs ->
                                h' !! l = (heap w ++ [first]) !! l) ->
            forall d, d ∈ demes (graph w) -> contiguous h' d).
  { intros h' Hh' d Hd. apply (contiguous_ext (heap w)); [| by apply Hinv].
    intros l Hl. rewrite Hh'.
    - apply lookup_app_l. by apply (Hcl d).
    - by apply (Hcl d).
    - intros Hin. destruct (Hfresh l Hin) as [_ [Hu _]]. by apply (Hu d). }
  simpl. destruct (Deme.new id ancestor _) as [d0|x] eqn:Ed.
  2:{ simpl. by apply Hold. }
  apply Deme_new_inv in Ed. subst d0.
  pose proof (add_epochs_frames (default [] epochs)
                (Deme.mk id ancestor [length (heap w)]) (heap w ++ [first]))
    as [_ Hfr].
  assert (Hl0 : length (heap w) ∉ default [] epochs).
  { intros Hin. destruct (Hfresh _ Hin). lia. }
  destruct (foldM Deme.add_epoch _ _ _) as [[d'|x] h'] eqn:Hfold; simpl in *.
  - intros d Hd. apply elem_of_app in Hd as [Hd|Hd].
    + apply Hold; [| done]. intros l Hl Hnin. apply Hfr.
      rewrite not_elem_of_cons. split; [lia | done].
    + apply list_elem_of_singleton in Hd. subst d.
      eapply add_epochs_contiguous; [| | | exact Hfold]; simpl.
      * apply NoDup_cons. by split.
      * intros l Hl. rewrite length_app. simpl.
        apply elem_of_cons in Hl as [->|Hl]; [lia |].
        destruct (Hfresh l Hl). lia.
      * intros i l1 l2 e1 e2 _ H2. simpl in H2. by destruct i.
  - apply Hold. intros l Hl Hnin. apply Hfr.
    rewrite not_elem_of_cons. split; [lia | done].
Qed.

Lemma built_fresh_built (w : World) : built_fresh w -> built w.
Proof.
  induction 1 as [? ? ? ? ? g Hnew|w c Hb IH [_ Hf]].
  - by eapply built_new.
  - apply built_call; [done |]. intros l Hl. by destruct (Hf l Hl).
Qed.

(** Contiguity of every deme of the graph, in every state reached by a
    program that hands each epoch object to the graph at most once. *)
Lemma built_fresh_contiguous (w : World) :
  built_fresh w -> forall d, d ∈ demes (graph w) -> contiguous (heap w) d.
Proof.
  induction 1 as [? ? ? ? ? g Hnew|w c Hb IH [Hnd Hf]].
  - unfold DemeGraph.new, and_then in Hnew.
    destruct (Validator.all _ _); [| done].
    destruct (Validator.optional _ _); [| done].
    injection Hnew as <-. intros d Hd. by apply elem_of_nil in Hd.
  - pose proof (built_closed w (built_fresh_built w Hb)) as Hc.
    destruct c as [st et i f | id anc st et i f eps | s d0 rate st et
                  | ids rate st et | s d0 pr tm | id ancs props st et i f eps];
      simpl in *.
    + unfold bind, pure, on_heap, alloc.
      destruct (Epoch.new st et i f); simpl; [| done].
      intros d Hd. apply (contiguous_ext (heap w)); [| by apply IH].
      intros l Hl. apply lookup_app_l. by apply (proj1 Hc d).
    + apply deme_contiguous; try done; by destruct eps.
    + destruct (migration_appends w s d0 rate st et) as [ms ->]. done.
    + destruct (symmetric_migration_appends w ids rate st et) as [ms ->]. done.
    + destruct (pulse_appends w s d0 pr tm) as [ps ->]. done.
    + destruct (subgraph_effect w id ancs props st et i f eps)
        as (wd & ps & [->|[t ->]] & ->); [done |].
      simpl. apply deme_contiguous; try done; by destruct eps.
Qed.

(** Why the epoch objects must not be shared: an epoch object that already
    sits inside deme [A] and is passed again to build [B] gets its
    [end_time] rewritten, and [A] is no longer contiguous.  Here [A] is
    built from epochs starting at [10] and [20], and [B] from the first of
    them and one starting at [15]. *)
Lemma shared_epoch_breaks_contiguity :
  exists w1 w2 w3 w4 w5,
    do_call (Epoch_ (Fin 10) None (Some (Fin 5)) None) w0 = (Ok tt, w1)
    /\ do_call (Epoch_ (Fin 20) None (Some (Fin 5)) None) w1 = (Ok tt, w2)
    /\ do_call (deme_ "A" None (Fin 0) Inf None None (Some [0%nat; 1%nat])) w2
       = (Ok tt, w3)
    /\ do_call (Epoch_ (Fin 15) None (Some (Fin 5)) None) w3 = (Ok tt, w4)
    /\ do_call (deme_ "B" None (Fin 0) Inf None None (Some [0%nat; 3%nat])) w4
       = (Ok tt, w5)
    /\ head (fst (fst (asdict w5)))
       = Some (mk_view "A" None
                 [Some (Epoch.mk (Fin 0) (Some (Fin 10))
                          (Some (Fin 100)) (Some (Fin 100)));
                  Some (Epoch.mk (Fin 10) (Some (Fin 15))
                          (Some (Fin 5)) (Some (Fin 5)));
                  Some (Epoch.mk (Fin 20) (Some Inf)
                          (Some (Fin 5)) (Some (Fin 5)))]).
Proof. eexists _, _, _, _, _. repeat split; by vm_compute. Qed.

(** The same object passed twice in one [epochs] list: at the second
    [add_epoch] the new epoch and [prev_epoch] are one object, whose
    [end_time] is overwritten by its own [start_time]. *)
Lemma add_epoch_same_object :
  exists w1 w2,
    do_call (Epoch_ (Fin 10) None (Some (Fin 5)) None) w0 = (Ok tt, w1)
    /\ do_call (deme_ "A" None (Fin 0) Inf None None (Some [0%nat; 0%nat])) w1
       = (Ok tt, w2)
    /\ head (fst (fst (asdict w2)))
       = Some (mk_view "A" None
                 [Some (Epoch.mk (Fin 0) (Some (Fin 10))
                          (Some (Fin 100)) (Some (Fin 100)));
                  Some (Epoch.mk (Fin 10) (Some (Fin 10))
                          (Some (Fin 5)) (Some (Fin 5)));
                  Some (Epoch.mk (Fin 10) (Some (Fin 10))
                          (Some (Fin 5)) (Some (Fin 5)))]).
Proof. eexists _, _. repeat split; by vm_compute. Qed.

(** ** End times are never lost *)

Section Grows.
Context {A B : Type}.

Lemma grows_ret (a : A) : grows (@ret Heap A a).
Proof. by intros h l. Qed.

Lemma grows_raise (x : exn) : grows (@raise Heap A x).
Proof. by intros h l. Qed.

Lemma grows_bind (m : M Heap A) (k : A -> M Heap B) :
  grows m -> (forall a, grows (k a)) -> grows (bind m k).
Proof.
  intros Hm Hk h l Hl. unfold bind. specialize (Hm h l Hl).
  destruct (m h) as [[a|x] h1]; simpl in *; [by apply Hk | done].
Qed.

(** The same when [m] is only known to behave in the state at hand. *)
Lemma grows_bind_at (m : M Heap A) (k : A -> M Heap B) (h : Heap) :
  (forall l, ended h l -> ended (snd (m h)) l) ->
  (forall a, grows (k a)) ->
  forall l, ended h l -> ended (snd (bind m k h)) l.
Proof.
  intros Hm Hk l Hl. unfold bind. specialize (Hm l Hl).
  destruct (m h) as [[a|x] h1]; simpl in *; [by apply Hk | done].
Qed.

End Grows.

Lemma grows_load (l : loc) : grows (load l).
Proof. intros h x Hx. unfold load. by destruct (h !! l). Qed.

Lemma grows_update (l : loc) (f : Epoch.t -> Epoch.t) :
  (forall e, is_Some (Epoch.end_time e) -> is_Some (Epoch.end_time (f e))) ->
  grows (update l f).
Proof.
  intros Hf h x (e & He & Hend). unfold update.
  destruct (h !! l) as [e0|] eqn:Hl; simpl; [| by exists e].
  destruct (decide (l = x)) as [->|Hne].
  - exists (f e0). split.
    + apply list_lookup_insert_eq. by eapply lookup_lt_Some.
    + apply Hf. by replace e0 with e by congruence.
  - exists e. by rewrite list_lookup_insert_ne.
Qed.

Lemma grows_when (b : bool) (m : M Heap unit) : grows m -> grows (when b m).
Proof. destruct b; [done | intros _; apply grows_ret]. Qed.

(** Once the new epoch's [end_time] is settled, the rest of [add_epoch]
    only sets end times and sizes. *)
Ltac grows_tac :=
  repeat first
    [ apply grows_ret
    | apply grows_raise
    | apply grows_load
    | apply grows_update; by intros [? ? ? ?]
    | apply grows_when
    | apply grows_bind; [| intros ?] ].

(** [add_epoch] never unsets an [end_time]. *)
Lemma add_epoch_grows (self : Deme.t) (epoch : loc) :
  grows (Deme.add_epoch self epoch).
Proof.
  intros h x Hx. unfold Deme.add_epoch.
  destruct (last (Deme.epochs self)) as [prev_epoch|]; [| done].
  destruct (h !! epoch) as [e|] eqn:He.
  2:{ unfold bind, load. by rewrite He. }
  rewrite (bind_load _ _ _ _ He).
  destruct (h !! prev_epoch) as [p|] eqn:Hp.
  2:{ unfold bind, load. by rewrite Hp. }
  rewrite (bind_load _ _ _ _ Hp).
  destruct (num_lt (Epoch.start_time e) (Epoch.start_time p)); [done |].
  rewrite (bind_load _ _ _ _ He).
  apply grows_bind_at; [| intros ?; grows_tac | done].
  intros l Hl. destruct (Epoch.end_time e) as [t|] eqn:Hend; simpl; [done |].
  rewrite (bind_load _ _ _ _ Hp). rewrite (update_eq _ _ _ _ He). simpl.
  destruct Hl as (e0 & He0 & Hsome).
  destruct (decide (epoch = l)) as [<-|Hne].
  - replace e0 with e in Hsome by congruence. rewrite Hend in Hsome.
    by destruct Hsome.
  - exists e0. by rewrite list_lookup_insert_ne.
Qed.

(** When the deme's last epoch has its end set, the epoch [add_epoch]
    appends has its end set afterwards. *)
Lemma add_epoch_ends (self d' : Deme.t) (epoch prev_epoch : loc) (h h' : Heap) :
  last (Deme.epochs self) = Some prev_epoch ->
  ended h prev_epoch ->
  Deme.add_epoch self epoch h = (Ok d', h') ->
  ended h' epoch.
Proof.
  intros Hlast (p & Hp & Hpend). unfold Deme.add_epoch. rewrite Hlast.
  destruct (h !! epoch) as [e|] eqn:He.
  2:{ unfold bind, load. by rewrite He. }
  rewrite (bind_load _ _ _ _ He), (bind_load _ _ _ _ Hp).
  destruct (num_lt (Epoch.start_time e) (Epoch.start_time p)); [done |].
  rewrite (bind_load _ _ _ _ He).
  unfold bind at 1.
  destruct (when (Epoch.is_None (Epoch.end_time e)) _ h) as [[[]|x] h1] eqn:Hw;
    [| done].
  assert (Hh1 : ended h1 epoch).
  { destruct (Epoch.end_time e) as [t|] eqn:Hend; simpl in Hw.
    - injection Hw as <-. exists e. split; [done |]. by rewrite Hend.
    - rewrite (bind_load _ _ _ _ Hp), (update_eq _ _ _ _ He) in Hw.
      injection Hw as <-. eexists. split.
      + apply list_lookup_insert_eq. by eapply lookup_lt_Some.
      + done. }
  intros Hrest.
  assert (Hg : grows
    (e <- load epoch ;;
     update prev_epoch (Epoch.set_end_time (Some (Epoch.start_time e))) ;;;
     e <- load epoch ;;
     when (Epoch.is_None (Epoch.initial_size e))
          (p <- load prev_epoch ;;
           update epoch (Epoch.set_initial_size (Epoch.final_size p))) ;;;
     e <- load epoch ;;
     when (Epoch.is_None (Epoch.final_size e))
          (e <- load epoch ;;
           update epoch (Epoch.set_final_size (Epoch.initial_size e))) ;;;
     ret (Deme.mk (Deme.id self) (Deme.ancestor self)
            (Deme.epochs self ++ [epoch])))) by grows_tac.
  specialize (Hg h1 epoch Hh1). by rewrite Hrest in Hg.
Qed.

(** The loop of [deme] keeps a deme timed, and every end time that is
    set. *)
Lemma add_epochs_timed (ls : list loc) :
  forall (d d' : Deme.t) (h h' : Heap),
    timed h d ->
    foldM Deme.add_epoch d ls h = (Ok d', h') ->
    timed h' d'.
Proof.
  induction ls as [|l ls IH]; intros d d' h h' Ht; simpl.
  - by intros [= <- <-].
  - unfold bind.
    destruct (Deme.add_epoch d l h) as [[d1|x] h1] eqn:Hadd; [| done].
    apply IH. destruct Ht as [Hne Hall].
    destruct (last (Deme.epochs d)) as [p|] eqn:Hlast.
    2:{ apply last_None in Hlast. contradiction. }
    pose proof (add_epoch_ends d d1 l p h h1 Hlast
                  (Hall p (last_Some_elem_of _ _ Hlast)) Hadd) as Hl.
    pose proof (add_epoch_grows d l h) as Hg. rewrite Hadd in Hg. simpl in Hg.
    apply add_epoch_returns in Hadd. subst d1. split; simpl.
    + by destruct (Deme.epochs d).
    + intros l0 Hl0. apply elem_of_app in Hl0 as [Hl0|Hl0].
      * by apply Hg, Hall.
      * apply list_elem_of_singleton in Hl0. by subst l0.
Qed.

Lemma add_epochs_grows (ls : list loc) (d : Deme.t) :
  grows (foldM Deme.add_epoch d ls).
Proof.
  revert d. induction ls as [|l ls IH]; intros d; simpl.
  - apply grows_ret.
  - apply grows_bind; [apply add_epoch_grows | intros d1; apply IH].
Qed.

(** [deme] keeps every deme of the graph timed, the new one included. *)
Lemma deme_timed (w : World) (id : ID) (ancestor : option ID)
    (start_time end_time : Number) (initial_size final_size : option Number)
    (epochs : option (list loc)) :
  (forall d, d ∈ demes (graph w) -> timed (heap w) d) ->
  forall d,
    d ∈ demes (graph (snd (deme id ancestor start_time end_time initial_size
                             final_size epochs w))) ->
    timed (heap (snd (deme id ancestor start_time end_time initial_size
                        final_size epochs w))) d.
Proof.
  intros Hinv. rewrite deme_eq.
  destruct (first_epoch _ _ _ _ _ _) as [first|x] eqn:Hfirst; [| done].
  assert (Happ : forall l, ended (heap w) l -> ended (heap w ++ [first]) l).
  { intros l (e & He & Hend). exists e. split; [| done].
    rewrite lookup_app_l; [done |]. by eapply lookup_lt_Some. }
  assert (Hold : forall h', (forall l, ended (heap w ++ [first]) l -> ended h' l) ->
            forall d, d ∈ demes (graph w) -> timed h' d).
  { intros h' Hh' d Hd. destruct (Hinv d Hd) as [Hne Hall].
    split; [done |]. intros l Hl. by apply Hh', Happ, Hall. }
  simpl. destruct (Deme.new id ancestor _) as [d0|x] eqn:Ed.
  2:{ simpl. by apply Hold. }
  apply Deme_new_inv in Ed. subst d0.
  pose proof (add_epochs_grows (default [] epochs)
                (Deme.mk id ancestor [length (heap w)]) (heap w ++ [first])) as Hg.
  destruct (foldM Deme.add_epoch _ _ _) as [[d'|x] h'] eqn:Hfold; simpl in *.
  - intros d Hd. apply elem_of_app in Hd as [Hd|Hd]; [by apply Hold |].
    apply list_elem_of_singleton in Hd. subst d.
    eapply add_epochs_timed; [| exact Hfold].
    split; [done |]. simpl. intros l Hl. apply list_elem_of_singleton in Hl.
    subst l. exists first. split; [by apply list_lookup_middle |].
    apply first_epoch_inv in Hfirst as (_ & _ & Hend).
    destruct ancestor; [destruct Hend as (? & _ & ->) | rewrite Hend]; done.
  - by apply Hold.
Qed.

(** In every reachable state each deme of the graph has an epoch, and all
    its epochs have their end set. *)
Lemma built_timed (w : World) :
  built w -> forall d, d ∈ demes (graph w) -> timed (heap w) d.
Proof.
  induction 1 as [? ? ? ? ? g Hnew|w c Hb IH _].
  - unfold DemeGraph.new, and_then in Hnew.
    destruct (Validator.all _ _); [| done].
    destruct (Validator.optional _ _); [| done].
    injection Hnew as <-. intros d Hd. by apply elem_of_nil in Hd.
  - destruct c as [st et i f | id anc st et i f eps | s d0 rate st et
                  | ids rate st et | s d0 pr tm | id ancs props st et i f eps];
      simpl in *.
    + unfold bind, pure, on_heap, alloc.
      destruct (Epoch.new st et i f) as [e0|]; simpl; [| done].
      intros d Hd. destruct (IH d Hd) as [Hne Hall]. split; [done |].
      intros l Hl. destruct (Hall l Hl) as (e & He & Hend).
      exists e. split; [| done]. rewrite lookup_app_l; [done |].
      by eapply lookup_lt_Some.
    + by apply deme_timed.
    + destruct (migration_appends w s d0 rate st et) as [ms ->]. done.
    + destruct (symmetric_migration_appends w ids rate st et) as [ms ->]. done.
    + destruct (pulse_appends w s d0 pr tm) as [ps ->]. done.
    + destruct (subgraph_effect w id ancs props st et i f eps)
        as (wd & ps & [->|[t ->]] & ->); [done |].
      simpl. by apply deme_timed.
Qed.

(** So every registered id has a start time and an end time: the
    hypotheses of the time-intersection results hold in every reachable
    state. *)
Lemma built_times_set (w : World) (i : ID) :
  built w -> is_Some (_deme_map (graph w) !! i) ->
  exists start_time end_time,
    start_of w i = Some start_time /\ end_of w i = Some end_time.
Proof.
  intros Hb [d Hd]. unfold start_of, end_of. rewrite Hd. simpl.
  destruct (index_in_demes _ _ _ (built_index_ok w Hb) Hd) as [Hin _].
  destruct (built_timed w Hb d Hin) as [Hne Hall].
  destruct (Deme.epochs d) as [|l0 ls] eqn:Hep; [done |].
  destruct (Hall l0) as (e0 & He0 & _); [by left |].
  destruct (last (l0 :: ls)) as [ll|] eqn:Hlast.
  2:{ by apply last_None in Hlast. }
  destruct (Hall ll (last_Some_elem_of _ _ Hlast)) as (el & Hel & [t Ht]).
  exists (Epoch.start_time e0), t. simpl. rewrite He0, Hel. simpl. by rewrite Ht.
Qed.

(** ** [subgraph] *)

Lemma built_w_late : built w_late.
Proof.
  apply (built_call _ (deme_ "B" None (Fin 10) Inf None None None));
    [| intros l Hl; by inversion Hl].
  apply (built_call _ (deme_ "A" None (Fin 10) Inf None None None));
    [| intros l Hl; by inversion Hl].
  apply built_w0.
Qed.

Lemma divide_ok (a b q : Q) :
  divide a b = Ok q -> Qeq_bool b 0 = false /\ q = a / b.
Proof.
  unfold divide. destruct (Qeq_bool b 0); [done |]. by intros [= <-].
Qed.

(** [subgraph]'s loop, when it runs to its end: every ancestor has
    received its renormalised pulse, and the variable [p] holds the
    proportion of the last one. *)
Lemma subgraph_loop_ok (deme_id : ID) (proportions : list Q) (end_time : Number)
    (jas : list (nat * ID)) :
  forall (acc p : option Q) (w w' : World),
    foldM (subgraph_step deme_id proportions end_time) acc jas w = (Ok p, w') ->
    exists ps,
      w' = add_pulses ps w
      /\ Forall2 (renormalised deme_id proportions end_time) jas ps
      /\ p = match last ps with
             | Some pl =>
                 match Pulse.proportion pl with
                 | Fin q => Some q
                 | Inf => None
                 end
             | None => acc
             end.
Proof.
  induction jas as [|[j a] jas IH]; intros acc p w w'; simpl.
  - intros [= <- <-]. exists []. rewrite add_pulses_nil.
    split; [done |]. split; [constructor | done].
  - unfold bind at 1. unfold subgraph_step at 1. simpl.
    destruct (proportions !! j) as [pj|] eqn:Hj; [| done].
    unfold bind at 1. unfold bind at 1. unfold pure.
    destruct (divide pj (sum (drop j proportions))) as [q|e] eqn:Hq; [| done].
    apply divide_ok in Hq as [Hnz ->].
    destruct (pulse deme_id a (Fin (pj / sum (drop j proportions))) end_time w)
      as [r w1] eqn:Hp.
    apply pulse_outcome in Hp as [[-> ->]|[Hr ->]].
    2:{ destruct r as [[]|e]; done. }
    unfold ret at 1. intros Hrest.
    apply IH in Hrest as (ps & -> & Hfa & ->).
    exists (Pulse.mk deme_id a end_time (Fin (pj / sum (drop j proportions)))
            :: ps).
    split; [| split].
    + unfold add_pulses, add_pulse, set_pulses. simpl. by rewrite <- app_assoc.
    + constructor; [| done]. exists pj. by repeat split.
    + rewrite last_cons. by destruct (last ps).
Qed.

Lemma drop_last_singleton {A} (l : list A) (x : A) :
  l !! (length l - 1)%nat = Some x -> drop (length l - 1) l = [x].
Proof.
  intros H. rewrite (drop_S _ _ _ H).
  rewrite drop_ge; [done |]. lia.
Qed.

Lemma last_fraction_is_one (pj : Q) :
  Qeq_bool (sum [pj]) 0 = false -> Qeq_bool (pj / sum [pj]) 1 = true.
Proof.
  unfold sum. simpl. intros H. apply Qeq_bool_neq in H.
  apply Qeq_bool_iff. rewrite Qplus_0_l in *. unfold Qdiv.
  by apply Qmult_inv_r.
Qed.

(** When [subgraph]'s loop has run to its end over ancestors and
    proportions of equal length, the value left in [p] is [1]: the trailing
    [assert] holds whenever it is reached. *)
Lemma subgraph_final_p (deme_id : ID) (ancestors : list ID) (proportions : list Q)
    (end_time : Number) (p : option Q) (w w' : World) :
  length ancestors = length proportions ->
  ancestors <> [] ->
  foldM (subgraph_step deme_id proportions end_time) None (enumerate ancestors) w
    = (Ok p, w') ->
  exists q, p = Some q /\ Qeq_bool q 1 = true.
Proof.
  intros Hlen Hne Hloop.
  apply subgraph_loop_ok in Hloop as (ps & _ & Hfa & ->).
  pose proof (Forall2_length _ _ _ Hfa) as Hl.
  unfold enumerate in Hl. rewrite length_imap in Hl.
  rewrite last_lookup.
  destruct (ps !! pred (length ps)) as [pl|] eqn:Hpl.
  2:{ apply lookup_ge_None in Hpl. destruct ancestors; [done |]. simpl in Hl. lia. }
  destruct (Forall2_lookup_r _ _ _ _ _ Hfa Hpl) as ([j a] & Hja & pj & Hpj & Hnz & ->).
  unfold enumerate in Hja. apply list_lookup_imap_Some in Hja as (a' & _ & [= -> ->]).
  simpl in *. rewrite <- Hl, Hlen in *.
  replace (pred (length proportions)) with (length proportions - 1)%nat in * by lia.
  rewrite (drop_last_singleton _ _ Hpj) in *.
  eexists. split; [done |]. by apply last_fraction_is_one.
Qed.

(** A [subgraph] call that returns has created the deme and appended, for
    every ancestor in order, its renormalised pulse at the resolved end
    time. *)
Lemma subgraph_ok_inv (w w' : World) (deme_id : ID) (ancestors : list ID)
    (proportions : list Q) (start_time : Number) (end_time : option Number)
    (initial_size final_size : option Number) (epochs : option (list loc)) :
  subgraph deme_id ancestors proportions start_time end_time
    initial_size final_size epochs w = (Ok tt, w') ->
  exists t wd ps,
    deme deme_id None start_time t initial_size final_size epochs w = (Ok tt, wd)
    /\ w' = add_pulses ps wd
    /\ Forall2 (renormalised deme_id proportions t) (enumerate ancestors) ps.
Proof.
  unfold subgraph.
  destruct (negb (length ancestors =? length proportions)%nat); [done |].
  destruct (negb (isclose (sum proportions) 1)); [done |].
  unfold bind at 1.
  assert (exists r, (match end_time with
                     | Some t => ret t
                     | None => max_start_time ancestors
                     end) w = (r, w)) as [r ->].
  { destruct end_time as [t|]; [by eexists |].
    pose proof (max_start_time_pure w ancestors) as Hp.
    destruct (max_start_time ancestors w) as [r w1]. simpl in Hp. subst w1.
    by eexists. }
  destruct r as [t|e]; [| done].
  unfold bind at 1.
  destruct (deme deme_id None start_time t initial_size final_size epochs w)
    as [[[]|e] wd] eqn:Hd; [| done].
  unfold bind at 1.
  destruct (foldM _ None (enumerate ancestors) wd) as [[p|e] w2] eqn:Hloop;
    [| done].
  apply subgraph_loop_ok in Hloop as (ps & -> & Hfa & _).
  intros H. exists t, wd, ps. split; [exact Hd |]. split; [| done].
  destruct p as [q|]; [| done]. destruct (Qeq_bool q 1); [| done].
  by injection H as <-.
Qed.


(** C8, evaluated where the code breaks it.  With ancestors [A], [B] and
    proportions [[1, 0]] the two checks pass, the deme is created and the
    pulse for [A] is appended with proportion [1 / (1 + 0)]; for [B] the
    remaining mass [sum([0])] is zero and the division raises
    [ZeroDivisionError], so no final [p] exists.  The same ancestry given
    in the other order, proportions [[0, 1]], goes through. *)
Theorem subgraph_zero_last_proportion :
  built w_late
  /\ length ["A"; "B"] = length [1; 0]
  /\ isclose (sum [1; 0]) 1 = true
  /\ (exists w',
        subgraph "C" ["A"; "B"] [1; 0] (Fin 0) None None None None w_late
          = (Raise ZeroDivisionError, w')
        /\ pulses (graph w') = [Pulse.mk "C" "A" (Fin 10) (Fin 1)])
  /\ fst (subgraph "C" ["A"; "B"] [0; 1] (Fin 0) None None None None w_late)
     = Ok tt.
Proof.
  split; [apply built_w_late |]. split; [done |]. split; [by vm_compute |].
  split; [eexists; split; by vm_compute | by vm_compute].
Qed.

(** ** The compact form *)



Lemma load_all_pure (ls : list loc) (h : Heap) : snd (load_all ls h) = h.
Proof.
  induction ls as [|l ls IH]; simpl; [done |].
  unfold bind at 1. unfold load. destruct (h !! l) as [e|]; [| done].
  unfold bind. destruct (load_all ls h) as [[es|x] h1]; simpl in *; done.
Qed.


Lemma deme_dict_pure (deme : Deme.t) (h : Heap) : snd (deme_dict deme h) = h.
Proof.
  unfold deme_dict, bind.
  pose proof (load_all_pure (Deme.epochs deme) h) as Hp.
  destruct (load_all (Deme.epochs deme) h) as [[es|x] h1]; simpl in Hp; subst h1;
    [| done].
  destruct es as [|first es]; [done |].
  unfold pure. by destruct (collect _ _).
Qed.


(** The loop of [asdict_compact] over the demes: it leaves the state alone,
    builds a dict for every deme, and files under each id the dict of the
    last deme that carries it. *)
Lemma compact_loop (ds : list Deme.t) :
  forall (D0 D : gmap ID (gmap string dval)) (w w' : World),
    foldM (fun (d : gmap ID (gmap string dval)) deme =>
             deme_dict <- on_heap (deme_dict deme) ;;
             ret (<[Deme.id deme := deme_dict]> d))
          D0 ds w = (Ok D, w') ->
    w' = w
    /\ (forall deme, deme ∈ ds ->
          is_Some (ok (fst (deme_dict deme (heap w)))))
    /\ (forall i, D !! i
                  = match last (filter (fun d => Deme.id d = i) ds) with
                    | Some d => ok (fst (deme_dict d (heap w)))
                    | None => D0 !! i
                    end).
Proof.
  induction ds as [|d1 ds IH]; intros D0 D w w'; simpl.
  - intros [= <- <-]. split; [done |]. split; [| done].
    intros deme Hd. by apply elem_of_nil in Hd.
  - unfold bind at 1. unfold bind at 1. unfold on_heap at 1.
    pose proof (deme_dict_pure d1 (heap w)) as Hp.
    destruct (deme_dict d1 (heap w)) as [[dd1|x] h1] eqn:Hd1; simpl in Hp;
      subst h1; [| done].
    unfold ret at 1. replace (mkWorld (heap w) (graph w)) with w by by destruct w.
    intros Hrest. apply IH in Hrest as (-> & Hall & Hlook).
    split; [done |]. split.
    + intros deme Hin. apply elem_of_cons in Hin as [->|Hin]; [| by apply Hall].
      rewrite Hd1. by eexists.
    + intros i. rewrite Hlook.
      destruct (decide (Deme.id d1 = i)) as [<-|Hne].
      * rewrite filter_cons_True by done. rewrite last_cons.
        destruct (last (filter _ ds)); [done |].
        rewrite lookup_insert_eq. by rewrite Hd1.
      * rewrite filter_cons_False by done.
        destruct (last (filter _ ds)); [done |].
        by rewrite lookup_insert_ne.
Qed.


(** * The claims *)

(** C3. [add_epoch] on a deme whose last epoch is [prev_epoch], given a new
    epoch object (one that is not [prev_epoch] itself): when the new
    epoch starts before [prev_epoch] does, the call raises [ValueError] and
    leaves the deme and the store as they were; otherwise the epoch is
    appended to the deme's list, [prev_epoch.end_time] becomes the new
    epoch's [start_time], an unset [end_time] of the new epoch becomes the
    deme's former end time, an unset [initial_size] becomes
    [prev_epoch.final_size], an unset [final_size] becomes the new epoch's
    (resolved) [initial_size], and no other object changes. *)
Theorem add_epoch_spec (self : Deme.t) (h h' : Heap) (epoch prev_epoch : loc)
    (e p : Epoch.t) (r : result Deme.t) :
  last (Deme.epochs self) = Some prev_epoch ->
  h !! epoch = Some e -> h !! prev_epoch = Some p ->
  epoch <> prev_epoch ->
  Deme.add_epoch self epoch h = (r, h') ->
  if num_lt (Epoch.start_time e) (Epoch.start_time p) then
    r = Raise ValueError /\ h' = h
  else
    r = Ok (Deme.mk (Deme.id self) (Deme.ancestor self)
                    (Deme.epochs self ++ [epoch]))
    /\ h' !! prev_epoch = Some (Epoch.set_end_time (Some (Epoch.start_time e)) p)
    /\ (exists e',
          h' !! epoch = Some e'
          /\ Epoch.start_time e' = Epoch.start_time e
          /\ Epoch.end_time e' = match Epoch.end_time e with
                                 | None => Epoch.end_time p
                                 | Some t => Some t
                                 end
          /\ Epoch.initial_size e' = match Epoch.initial_size e with
                                     | None => Epoch.final_size p
                                     | Some n => Some n
                                     end
          /\ Epoch.final_size e' = match Epoch.final_size e with
                                   | None => Epoch.initial_size e'
                                   | Some n => Some n
                                   end)
    /\ (forall l, l <> epoch -> l <> prev_epoch -> h' !! l = h !! l).
Proof.
  intros Hlast He Hp Hne.
  rewrite (add_epoch_eq self h epoch prev_epoch e p Hlast He Hp Hne).
  destruct (num_lt (Epoch.start_time e) (Epoch.start_time p)).
  - by intros [= <- <-].
  - simpl. intros [= <- <-].
    assert (Hlp : (prev_epoch < length h)%nat) by by eapply lookup_lt_Some.
    assert (Hle : (epoch < length h)%nat) by by eapply lookup_lt_Some.
    split; [done |]. split; [| split].
    + rewrite list_lookup_insert_ne by done. by apply list_lookup_insert_eq.
    + eexists. split; [apply list_lookup_insert_eq; by rewrite length_insert |].
      simpl. by destruct (Epoch.final_size e).
    + intros l Hl1 Hl2. by rewrite !list_lookup_insert_ne.
Qed.

(** [add_epoch_spec] at work: an epoch with nothing but its start set is
    added to a deme on [[0, inf)]. *)
Lemma add_epoch_spec_witness :
  last (Deme.epochs (Deme.mk "A" None [0%nat])) = Some 0%nat
  /\ h_two !! 1%nat = Some (Epoch.mk (Fin 10) None None None)
  /\ h_two !! 0%nat
     = Some (Epoch.mk (Fin 0) (Some Inf) (Some (Fin 100)) (Some (Fin 100)))
  /\ 1%nat <> 0%nat
  /\ Deme.add_epoch (Deme.mk "A" None [0%nat]) 1%nat h_two
     = (Ok (Deme.mk "A" None [0%nat; 1%nat]),
        [Epoch.mk (Fin 0) (Some (Fin 10)) (Some (Fin 100)) (Some (Fin 100));
         Epoch.mk (Fin 10) (Some Inf) (Some (Fin 100)) (Some (Fin 100))])
  /\ exists e',
       [Epoch.mk (Fin 0) (Some (Fin 10)) (Some (Fin 100)) (Some (Fin 100));
        Epoch.mk (Fin 10) (Some Inf) (Some (Fin 100)) (Some (Fin 100))] !! 1%nat
       = Some e'
       /\ Epoch.end_time e' = Some Inf
       /\ Epoch.initial_size e' = Some (Fin 100).
Proof.
  assert (Hne : 1%nat <> 0%nat) by lia.
  assert (Hrun : Deme.add_epoch (Deme.mk "A" None [0%nat]) 1%nat h_two
     = (Ok (Deme.mk "A" None [0%nat; 1%nat]),
        [Epoch.mk (Fin 0) (Some (Fin 10)) (Some (Fin 100)) (Some (Fin 100));
         Epoch.mk (Fin 10) (Some Inf) (Some (Fin 100)) (Some (Fin 100))]))
    by reflexivity.
  repeat (split; [done |]).
  pose proof (add_epoch_spec (Deme.mk "A" None [0%nat]) h_two _ 1%nat 0%nat
                (Epoch.mk (Fin 10) None None None)
                (Epoch.mk (Fin 0) (Some Inf) (Some (Fin 100)) (Some (Fin 100)))
                _ eq_refl eq_refl eq_refl Hne Hrun) as H.
  cbn in H. destruct H as (_ & _ & (e' & He' & _ & Hend & Hinit & _) & _).
  exists e'. by repeat split.
Defined.


(** C10 (amended). After any sequence of calls on a new graph, looking an
    id up in the index yields the most recently registered deme with that
    id, that is, the last deme of the list that carries the id; the list
    itself may hold an id more than once. *)
Theorem index_most_recent (w : World) :
  built w ->
  index_ok (graph w)
  /\ forall i d, _deme_map (graph w) !! i = Some d ->
                 d ∈ demes (graph w) /\ Deme.id d = i.
Proof.
  intros Hb. apply built_index_ok in Hb. split; [done |].
  intros i d. by apply index_in_demes.
Qed.

(** [index_most_recent] at work on the graph of [A] and [B]. *)
Lemma index_most_recent_witness :
  built w_ab
  /\ index_ok (graph w_ab)
  /\ forall i d, _deme_map (graph w_ab) !! i = Some d ->
                 d ∈ demes (graph w_ab) /\ Deme.id d = i.
Proof. split; [apply built_w_ab | exact (index_most_recent w_ab built_w_ab)]. Defined.

(** [check_time_intersection_spec] at work: time [50] for [A] and [B] on
    [[0, 100)]. *)
Lemma check_time_intersection_spec_witness :
  start_of w_ab "A" = Some (Fin 0) /\ start_of w_ab "B" = Some (Fin 0)
  /\ end_of w_ab "A" = Some (Fin 100) /\ end_of w_ab "B" = Some (Fin 100)
  /\ (fst (check_time_intersection "A" "B" (Some (Fin 50)) false w_ab)
       = Ok (num_max (Fin 0) (Fin 0), num_min (Fin 100) (Fin 100))
      \/ fst (check_time_intersection "A" "B" (Some (Fin 50)) false w_ab)
         = Raise ValueError)
  /\ snd (check_time_intersection "A" "B" (Some (Fin 50)) false w_ab) = w_ab.
Proof.
  assert (H1 : start_of w_ab "A" = Some (Fin 0)) by (by vm_compute).
  assert (H2 : start_of w_ab "B" = Some (Fin 0)) by (by vm_compute).
  assert (H3 : end_of w_ab "A" = Some (Fin 100)) by (by vm_compute).
  assert (H4 : end_of w_ab "B" = Some (Fin 100)) by (by vm_compute).
  repeat (split; [done |]).
  pose proof (check_time_intersection_spec w_ab "A" "B" (Some (Fin 50)) false
                _ _ _ _ H1 H2 H3 H4) as H.
  cbv zeta in H. destruct H as (Hr & _ & _ & _ & _ & _ & Hpure).
  by split.
Defined.

(** [migration_spec] at work: one migration, and the symmetric migration
    of the spec's scenario, over three coexisting demes. *)
Lemma migration_spec_witness :
  start_of w_abc "A" = Some (Fin 0) /\ start_of w_abc "B" = Some (Fin 0)
  /\ end_of w_abc "A" = Some Inf /\ end_of w_abc "B" = Some Inf
  /\ migration "A" "B" (Fin 1) None None w_abc
     = (Ok tt, add_migrations [Migration.mk "A" "B" (Fin 0) (Fin 1)] w_abc)
  /\ exists ms,
       symmetric_migration ["A"; "B"; "C"] (Fin 1) None None w_abc
       = (Ok tt, add_migrations ms w_abc)
       /\ length ms = 6%nat.
Proof.
  assert (H1 : start_of w_abc "A" = Some (Fin 0)) by (by vm_compute).
  assert (H2 : start_of w_abc "B" = Some (Fin 0)) by (by vm_compute).
  assert (H3 : end_of w_abc "A" = Some Inf) by (by vm_compute).
  assert (H4 : end_of w_abc "B" = Some Inf) by (by vm_compute).
  assert (Hrun : migration "A" "B" (Fin 1) None None w_abc
     = (Ok tt, add_migrations [Migration.mk "A" "B" (Fin 0) (Fin 1)] w_abc))
    by (by vm_compute).
  repeat (split; [done |]).
  pose proof (migration_spec w_abc _ "A" "B" (Fin 1) None None _ _ _ _ _
                H1 H2 H3 H4 Hrun) as H.
  cbv zeta in H. destruct H as (_ & _ & _ & _ & _ & Hthree).
  apply (Hthree "A" "B" "C" (Fin 0) (Fin 0) (Fin 0) Inf Inf Inf); by vm_compute.
Defined.

Lemma built_w_open : built w_open.
Proof.
  apply (built_call _ (Epoch_ (Fin 10) None (Some (Fin 5)) None));
    [| intros l Hl; by inversion Hl].
  apply (built_call _ (deme_ "A" None (Fin 100) Inf None None None));
    [| intros l Hl; by inversion Hl].
  apply built_w0.
Qed.

Lemma built_w_open_b : built w_open_b.
Proof.
  apply (built_call _ (deme_ "B" (Some "A") (Fin 0) Inf None None (Some [1%nat])));
    [apply built_w_open |].
  intros l Hl. apply list_elem_of_singleton in Hl. subst l. vm_compute. lia.
Qed.

(** The epoch object of [w_anc] belongs to no deme. *)
Lemma w_anc_epoch_unused : forall l, l ∈ [1%nat] -> unused w_anc l.
Proof.
  intros l Hl. apply list_elem_of_singleton in Hl. subst l.
  assert (Hd : forall d, d ∈ demes (graph w_anc) -> 1%nat ∉ Deme.epochs d).
  { intros d Hd. vm_compute in Hd. apply list_elem_of_singleton in Hd. subst d.
    simpl. intros Hin. apply list_elem_of_singleton in Hin. lia. }
  split; [done |]. intros i d Hi. apply Hd.
  apply (index_in_demes (graph w_anc) i d); [| done].
  apply built_index_ok, built_w_anc.
Qed.

(** [failed_call_unchanged] at work: a [deme] call that allocates its
    first epoch and is then rejected by [add_epoch]. *)
Lemma failed_call_unchanged_witness :
  closed w_anc
  /\ atomic w_anc (deme_ "B" None (Fin 20) Inf None None (Some [1%nat]))
  /\ do_call (deme_ "B" None (Fin 20) Inf None None (Some [1%nat])) w_anc
     = (Raise ValueError,
        mkWorld (heap w_anc
                 ++ [Epoch.mk (Fin 20) (Some Inf)
                       (Some (Fin 100)) (Some (Fin 100))])
                (graph w_anc))
  /\ observe (mkWorld (heap w_anc
                       ++ [Epoch.mk (Fin 20) (Some Inf)
                             (Some (Fin 100)) (Some (Fin 100))])
                      (graph w_anc))
     = observe w_anc.
Proof.
  assert (Hc : closed w_anc) by exact (built_closed w_anc built_w_anc).
  assert (Ha : atomic w_anc (deme_ "B" None (Fin 20) Inf None None (Some [1%nat])))
    by exact w_anc_epoch_unused.
  assert (Hrun : do_call (deme_ "B" None (Fin 20) Inf None None (Some [1%nat])) w_anc
     = (Raise ValueError,
        mkWorld (heap w_anc
                 ++ [Epoch.mk (Fin 20) (Some Inf)
                       (Some (Fin 100)) (Some (Fin 100))])
                (graph w_anc))) by (by vm_compute).
  repeat (split; [done |]).
  exact (failed_call_unchanged _ _ _ _ Hc Ha Hrun).
Defined.

(** [deme_spec] at work: [B], built with ancestor [A] and one epoch whose
    end is unset, ends where [A] starts. *)
Lemma deme_spec_witness :
  (forall l, l ∈ default [] (Some [1%nat]) -> (l < length (heap w_open))%nat)
  /\ deme "B" (Some "A") (Fin 0) Inf None None (Some [1%nat]) w_open
     = (Ok tt, w_open_b)
  /\ start_of w_open "A" = Some (Fin 100)
  /\ end_of w_open_b "B" = Some (Fin 100).
Proof.
  assert (Hv : forall l, l ∈ default [] (Some [1%nat]) ->
                         (l < length (heap w_open))%nat).
  { intros l Hl. apply list_elem_of_singleton in Hl. subst l. vm_compute. lia. }
  assert (Hrun : deme "B" (Some "A") (Fin 0) Inf None None (Some [1%nat]) w_open
                 = (Ok tt, w_open_b)) by (by vm_compute).
  split; [done |]. split; [done |]. split; [by vm_compute |].
  destruct (deme_spec _ _ _ _ _ _ _ _ _ _ Hv Hrun) as (_ & _ & Hok).
  destruct (Hok eq_refl) as (_ & first & n & _ & _ & _ & _ & Hanc).
  destruct (Hanc "A" eq_refl) as (s & Hs & Hend).
  assert (s = Fin 100) as ->.
  { vm_compute in Hs. by injection Hs as <-. }
  apply Hend.
  - apply NoDup_singleton.
  - intros l Hl. apply list_elem_of_singleton in Hl. subst l.
    eexists. split; by vm_compute.
Defined.


(** * Further properties *)

(** ** What the constructors accept *)

Lemma isinf_raise (n : Number) (x : exn) :
  isinf n = Raise x -> x = OverflowError.
Proof.
  destruct n as [q|]; simpl; [| done].
  destruct (Qle_bool float_limit (Qabs q)); congruence.
Qed.

(** The limit itself is too large for a [float], the [int] just below it
    is not. *)
Lemma isinf_float_limit :
  isinf (Fin float_limit) = Raise OverflowError
  /\ isinf (Fin (float_limit - 1)) = Ok false.
Proof. split; by vm_compute. Qed.

(** [Epoch(10**400, initial_size=1)]: the start passes [non_negative], and
    [math.isinf] fails on it. *)
Lemma Epoch_new_overflow :
  Epoch.new (Fin (inject_Z (10 ^ 400))) None (Some (Fin 1)) None
  = Raise OverflowError.
Proof. by vm_compute. Qed.

Lemma non_negative_finite_iff (n : Number) :
  Validator.all [Validator.non_negative; Validator.finite] n = Ok tt
  <-> accepted_time n.
Proof.
  unfold accepted_time. simpl.
  unfold Validator.non_negative, Validator.finite.
  destruct (num_lt n (Fin 0)); [split; [done | by intros [? _]] |].
  destruct (isinf n) as [[]|x]; split; try done; by intros [_ ?].
Qed.

Lemma positive_finite_iff (n : Number) :
  Validator.all [Validator.positive; Validator.finite] n = Ok tt
  <-> accepted_size n.
Proof.
  unfold accepted_size. simpl.
  unfold Validator.positive, Validator.finite.
  destruct (num_le n (Fin 0)); [split; [done | by intros [? _]] |].
  destruct (isinf n) as [[]|x]; split; try done; by intros [_ ?].
Qed.

Lemma non_negative_iff (n : Number) :
  Validator.all [Validator.non_negative] n = Ok tt <-> num_lt n (Fin 0) = false.
Proof.
  simpl. unfold Validator.non_negative. by destruct (num_lt n (Fin 0)).
Qed.

Lemma unit_interval_iff (n : Number) :
  Validator.unit_interval n = Ok tt <-> accepted_proportion n.
Proof.
  unfold accepted_proportion, Validator.unit_interval.
  rewrite <- andb_true_iff. by destruct (_ && _).
Qed.

Lemma num_lt_negb (a b : Number) : num_lt b a = negb (num_le a b).
Proof. by destruct a, b. Qed.

(** A validator that rejects a value raises [ValueError], unless
    [math.isinf] has failed on the value. *)
Lemma validators_raise (n : Number) (x : exn) :
  (Validator.all [Validator.non_negative; Validator.finite] n = Raise x
   \/ Validator.all [Validator.positive; Validator.finite] n = Raise x
   \/ Validator.all [Validator.non_negative] n = Raise x
   \/ Validator.unit_interval n = Raise x) ->
  x = ValueError \/ (x = OverflowError /\ isinf n = Raise OverflowError).
Proof.
  simpl. unfold Validator.non_negative, Validator.positive, Validator.finite,
    Validator.unit_interval.
  intros [H|[H|[H|H]]]; revert H;
    repeat (match goal with
            | |- context [if ?b then _ else _] => destruct b
            end; simpl; try (intros [= <-]; by left));
    try done;
    destruct (isinf n) as [[]|y] eqn:E; intros [= <-]; try (by left);
    right; by rewrite (isinf_raise _ _ E).
Qed.

Lemma optional_raise (fs : list Validator.t) (o : option Number) (x : exn) :
  Validator.optional fs o = Raise x ->
  exists n, o = Some n /\ Validator.all fs n = Raise x.
Proof. destruct o as [n|]; [by exists n | done]. Qed.

Lemma optional_ok (fs : list Validator.t) (o : option Number) (u : unit) :
  Validator.optional fs o = Ok u <->
  forall n, o = Some n -> Validator.all fs n = Ok tt.
Proof.
  destruct u. destruct o as [n|]; simpl.
  - split; [by intros H ? [= <-] | auto].
  - split; [done | done].
Qed.

(** What a successful [Epoch(...)] has checked, and the object it
    returns. *)
Lemma Epoch_new_checked (start_time : Number)
    (end_time initial_size final_size : option Number) (e : Epoch.t) :
  Epoch.new start_time end_time initial_size final_size = Ok e ->
  accepted_time start_time
  /\ (forall t, end_time = Some t ->
        num_lt t (Fin 0) = false /\ num_le t start_time = false)
  /\ (forall n, initial_size = Some n -> accepted_size n)
  /\ (forall n, final_size = Some n -> accepted_size n)
  /\ (is_Some initial_size \/ is_Some final_size)
  /\ e = Epoch.mk start_time end_time initial_size
           (match final_size with
            | Some n => Some n
            | None => initial_size
            end).
Proof.
  unfold Epoch.new, and_then.
  destruct (Validator.all _ start_time) as [[]|x] eqn:Hs; [| done].
  destruct (Validator.optional _ end_time) as [[]|x] eqn:He; [| done].
  destruct (Validator.optional _ initial_size) as [[]|x] eqn:Hi; [| done].
  destruct (Validator.optional _ final_size) as [[]|x] eqn:Hf; [| done].
  apply non_negative_finite_iff in Hs.
  unfold Epoch.__attrs_post_init__. simpl.
  destruct (Epoch.is_None initial_size && Epoch.is_None final_size) eqn:Hn;
    [done |].
  destruct (match end_time with Some _ => _ | None => _ end) eqn:Hlt; [done |].
  intros H. split; [done |]. split; [| split; [| split; [| split]]].
  - intros t ->. split; [| done].
    by apply non_negative_iff, (proj1 (optional_ok _ _ _) He).
  - intros n Hn'. apply positive_finite_iff.
    by apply (proj1 (optional_ok _ _ _) Hi).
  - intros n Hn'. apply positive_finite_iff.
    by apply (proj1 (optional_ok _ _ _) Hf).
  - destruct initial_size, final_size; simpl in Hn; try done; eauto.
  - destruct final_size; simpl in H; by injection H as <-.
Qed.

(** X1. [Epoch(start_time, end_time, initial_size, final_size)] returns an
    object exactly when every test of its validators and of
    [__attrs_post_init__] lets it through: [start_time < 0] is false and
    [math.isinf(start_time)] returns [False]; for a given [end_time],
    [end_time < 0] and [start_time >= end_time] are false; for every
    given size, [size <= 0] is false and [math.isinf(size)] returns
    [False]; and at least one of the two sizes is given.  The object
    holds the attributes as passed, with [final_size] taken from
    [initial_size] when it is omitted (an omitted [initial_size] stays
    [None]).  In every other case the constructor raises [ValueError] or
    [OverflowError], the latter only when [math.isinf] fails on
    [start_time] or on a size, an [int] too large for a [float]. *)
Theorem Epoch_new_iff (start_time : Number)
    (end_time initial_size final_size : option Number) :
  (forall e,
     Epoch.new start_time end_time initial_size final_size = Ok e <->
       accepted_time start_time
       /\ (forall t, end_time = Some t ->
             num_lt t (Fin 0) = false /\ num_le t start_time = false)
       /\ (forall n, initial_size = Some n -> accepted_size n)
       /\ (forall n, final_size = Some n -> accepted_size n)
       /\ (is_Some initial_size \/ is_Some final_size)
       /\ e = Epoch.mk start_time end_time initial_size
                (match final_size with
                 | Some n => Some n
                 | None => initial_size
                 end))
  /\ (forall x,
        Epoch.new start_time end_time initial_size final_size = Raise x ->
        x = ValueError
        \/ (x = OverflowError
            /\ exists n,
                 (n = start_time \/ initial_size = Some n \/ final_size = Some n)
                 /\ isinf n = Raise OverflowError)).
Proof.
  split.
  - intros e. split; [apply Epoch_new_checked |].
    unfold Epoch.new, and_then.
    intros (Hs & He & Hi & Hf & Hset & ->).
    rewrite (proj2 (non_negative_finite_iff _) Hs).
    assert (Validator.optional [Validator.non_negative] end_time = Ok tt) as ->.
    { apply optional_ok. intros t ->. by apply non_negative_iff, He. }
    assert (Validator.optional [Validator.positive; Validator.finite]
              initial_size = Ok tt) as ->.
    { apply optional_ok. intros n Hn. by apply positive_finite_iff, Hi. }
    assert (Validator.optional [Validator.positive; Validator.finite]
              final_size = Ok tt) as ->.
    { apply optional_ok. intros n Hn. by apply positive_finite_iff, Hf. }
    unfold Epoch.__attrs_post_init__. simpl.
    assert (Epoch.is_None initial_size && Epoch.is_None final_size = false) as ->.
    { destruct Hset as [[? ->]|[? ->]]; simpl; [done | by rewrite andb_false_r]. }
    assert (match end_time with
            | Some e => num_le e start_time
            | None => false
            end = false) as ->.
    { destruct end_time as [t|]; [| done]. by apply He. }
    by destruct final_size.
  - unfold Epoch.new, and_then. intros x.
    destruct (Validator.all _ start_time) as [[]|x1] eqn:Hs.
    2:{ intros [= <-].
        destruct (validators_raise start_time x1) as [?|[? ?]]; eauto 10. }
    destruct (Validator.optional _ end_time) as [[]|x1] eqn:He.
    2:{ intros [= <-]. apply optional_raise in He as (n & _ & He). left.
        revert He. simpl. unfold Validator.non_negative.
        destruct (num_lt n (Fin 0)); congruence. }
    destruct (Validator.optional _ initial_size) as [[]|x1] eqn:Hi.
    2:{ intros [= <-]. apply optional_raise in Hi as (n & Hn & Hi).
        destruct (validators_raise n x1) as [?|[? ?]]; eauto 10. }
    destruct (Validator.optional _ final_size) as [[]|x1] eqn:Hf.
    2:{ intros [= <-]. apply optional_raise in Hf as (n & Hn & Hf).
        destruct (validators_raise n x1) as [?|[? ?]]; eauto 10. }
    unfold Epoch.__attrs_post_init__. simpl.
    destruct (_ && _); [intros [= <-]; by left |].
    destruct (match end_time with Some _ => _ | None => _ end);
      [intros [= <-]; by left |].
    by destruct (Epoch.is_None final_size).
Qed.

Lemma Migration_new_checked (source dest : ID) (time rate : Number)
    (m : Migration.t) :
  Migration.new source dest time rate = Ok m ->
  accepted_time time /\ accepted_time rate /\ source <> dest
  /\ m = Migration.mk source dest time rate.
Proof.
  unfold Migration.new, and_then.
  destruct (Validator.all _ time) as [[]|x] eqn:Ht; [| done].
  destruct (Validator.all _ rate) as [[]|x] eqn:Hr; [| done].
  apply non_negative_finite_iff in Ht, Hr.
  destruct (String.eqb source dest) eqn:E; [done |].
  apply String.eqb_neq in E. by intros [= <-].
Qed.

(** X3. [Migration(source, dest, time, rate)] returns a record exactly
    when, for [time] and for [rate], the test [value < 0] is false and
    [math.isinf(value)] returns [False], and [source] differs from
    [dest]; the record holds the four values as passed.  Otherwise it
    raises [ValueError] or [OverflowError], the latter only when
    [math.isinf] fails on [time] or on [rate], an [int] too large for a
    [float]. *)
Theorem Migration_new_iff (source dest : ID) (time rate : Number) :
  (forall m,
     Migration.new source dest time rate = Ok m <->
       accepted_time time /\ accepted_time rate /\ source <> dest
       /\ m = Migration.mk source dest time rate)
  /\ (forall x,
        Migration.new source dest time rate = Raise x ->
        x = ValueError
        \/ (x = OverflowError
            /\ (isinf time = Raise OverflowError
                \/ isinf rate = Raise OverflowError))).
Proof.
  split.
  - intros m. split; [apply Migration_new_checked |].
    unfold Migration.new, and_then. intros (Ht & Hr & Hne & ->).
    rewrite (proj2 (non_negative_finite_iff _) Ht).
    rewrite (proj2 (non_negative_finite_iff _) Hr).
    apply String.eqb_neq in Hne. by rewrite Hne.
  - unfold Migration.new, and_then. intros x.
    destruct (Validator.all _ time) as [[]|x1] eqn:Ht.
    2:{ intros [= <-].
        destruct (validators_raise time x1) as [?|[? ?]]; eauto 10. }
    destruct (Validator.all _ rate) as [[]|x1] eqn:Hr.
    2:{ intros [= <-].
        destruct (validators_raise rate x1) as [?|[? ?]]; eauto 10. }
    destruct (String.eqb source dest); intros [= <-]. by left.
Qed.

Lemma Pulse_new_checked (source dest : ID) (time proportion : Number)
    (p : Pulse.t) :
  Pulse.new source dest time proportion = Ok p ->
  accepted_time time /\ accepted_proportion proportion /\ source <> dest
  /\ p = Pulse.mk source dest time proportion.
Proof.
  unfold Pulse.new, and_then.
  destruct (Validator.all _ time) as [[]|x] eqn:Ht; [| done].
  destruct (Validator.unit_interval proportion) as [[]|x] eqn:Hp; [| done].
  apply non_negative_finite_iff in Ht. apply unit_interval_iff in Hp.
  destruct (String.eqb source dest) eqn:E; [done |].
  apply String.eqb_neq in E. by intros [= <-].
Qed.

(** X4. [Pulse(source, dest, time, proportion)] returns a record exactly
    when [time < 0] is false and [math.isinf(time)] returns [False],
    [0 <= proportion <= 1] is true, and [source] differs from [dest]; the
    record holds the four values as passed.  Otherwise it raises
    [ValueError] or [OverflowError], the latter only when [math.isinf]
    fails on [time], an [int] too large for a [float]. *)
Theorem Pulse_new_iff (source dest : ID) (time proportion : Number) :
  (forall p,
     Pulse.new source dest time proportion = Ok p <->
       accepted_time time /\ accepted_proportion proportion /\ source <> dest
       /\ p = Pulse.mk source dest time proportion)
  /\ (forall x,
        Pulse.new source dest time proportion = Raise x ->
        x = ValueError
        \/ (x = OverflowError /\ isinf time = Raise OverflowError)).
Proof.
  split.
  - intros p. split; [apply Pulse_new_checked |].
    unfold Pulse.new, and_then. intros (Ht & Hp & Hne & ->).
    rewrite (proj2 (non_negative_finite_iff _) Ht).
    rewrite (proj2 (unit_interval_iff _) Hp).
    apply String.eqb_neq in Hne. by rewrite Hne.
  - unfold Pulse.new, and_then. intros x.
    destruct (Validator.all _ time) as [[]|x1] eqn:Ht.
    2:{ intros [= <-].
        destruct (validators_raise time x1) as [?|[? ?]]; eauto 10. }
    destruct (Validator.unit_interval proportion) as [[]|x1] eqn:Hp.
    2:{ intros [= <-]. left. revert Hp. unfold Validator.unit_interval.
        destruct (_ && _); congruence. }
    destruct (String.eqb source dest); intros [= <-]. by left.
Qed.

(** X5. [Deme(id, ancestor, epochs)] returns a deme exactly when [epochs]
    holds one epoch and [ancestor] is not [id] itself; the deme holds the
    three values as passed.  Otherwise it raises [ValueError], and nothing
    else. *)
Theorem Deme_new_iff (id : ID) (ancestor : option ID) (epochs : list loc) :
  (forall d,
     Deme.new id ancestor epochs = Ok d <->
       length epochs = 1%nat /\ ancestor <> Some id
       /\ d = Deme.mk id ancestor epochs)
  /\ (forall x, Deme.new id ancestor epochs = Raise x -> x = ValueError).
Proof.
  unfold Deme.new. split.
  - intros d. destruct (length epochs =? 1)%nat eqn:Hlen; simpl.
    + apply Nat.eqb_eq in Hlen. destruct ancestor as [a|].
      * destruct (String.eqb id a) eqn:E.
        -- apply String.eqb_eq in E. subst a. split; [done |].
           by intros (_ & Hne & _).
        -- apply String.eqb_neq in E. split.
           ++ intros [= <-]. split; [done |]. split; [congruence | done].
           ++ by intros (_ & _ & ->).
      * split; [by intros [= <-] | by intros (_ & _ & ->)].
    + apply Nat.eqb_neq in Hlen. split; [done | by intros (? & _)].
  - intros x. destruct (negb _); [congruence |].
    destruct (match ancestor with Some _ => _ | None => _ end); congruence.
Qed.

(** X6. [DemeGraph(description, time_units, generation_time, default_Ne,
    doi)] returns a graph exactly when, for [generation_time] and for a
    given [default_Ne], the test [value <= 0] is false and
    [math.isinf(value)] returns [False]; otherwise it raises [ValueError]
    or [OverflowError], the latter only when [math.isinf] fails on one of
    the two, an [int] too large for a [float].  The new graph has no
    demes, migrations or pulses and an empty id index: for every id,
    [id in graph] is [False] and [graph[id]] raises [KeyError]. *)
Theorem DemeGraph_new_spec (description time_units : string)
    (generation_time : Number) (default_Ne : option Number) (doi : option string) :
  (forall g,
     DemeGraph.new description time_units generation_time default_Ne doi = Ok g
     <-> accepted_size generation_time
         /\ (forall n, default_Ne = Some n -> accepted_size n)
         /\ g = DemeGraph.mk description time_units generation_time default_Ne
                  doi [] [] [] ∅)
  /\ (forall x,
        DemeGraph.new description time_units generation_time default_Ne doi
          = Raise x ->
        x = ValueError
        \/ (x = OverflowError
            /\ exists n, (n = generation_time \/ default_Ne = Some n)
                         /\ isinf n = Raise OverflowError))
  /\ (forall g h deme_id,
        DemeGraph.new description time_units generation_time default_Ne doi
          = Ok g ->
        __contains__ deme_id (mkWorld h g) = (Ok false, mkWorld h g)
        /\ __getitem__ deme_id (mkWorld h g) = (Raise KeyError, mkWorld h g)).
Proof.
  unfold DemeGraph.new, and_then. split; [| split].
  - intros g. split.
    + destruct (Validator.all _ generation_time) as [[]|x] eqn:Hg; [| done].
      destruct (Validator.optional _ default_Ne) as [[]|x] eqn:Hn; [| done].
      intros [= <-]. split; [by apply positive_finite_iff |]. split; [| done].
      intros n Hn'. apply positive_finite_iff.
      by apply (proj1 (optional_ok _ _ _) Hn).
    + intros (Hg & Hn & ->).
      rewrite (proj2 (positive_finite_iff _) Hg).
      assert (Validator.optional [Validator.positive; Validator.finite]
                default_Ne = Ok tt) as ->; [| done].
      apply optional_ok. intros n Hn'. by apply positive_finite_iff, Hn.
  - intros x.
    destruct (Validator.all _ generation_time) as [[]|x1] eqn:Hg.
    2:{ intros [= <-].
        destruct (validators_raise generation_time x1) as [?|[? ?]]; eauto 10. }
    destruct (Validator.optional _ default_Ne) as [[]|x1] eqn:Hn; [done |].
    intros [= <-]. apply optional_raise in Hn as (n & Hn' & Hn).
    destruct (validators_raise n x1) as [?|[? ?]]; eauto 10.
  - intros g h deme_id.
    destruct (Validator.all _ generation_time) as [[]|x1]; [| done].
    destruct (Validator.optional _ default_Ne) as [[]|x1]; [| done].
    intros [= <-]. rewrite contains_eq, getitem_eq. simpl.
    rewrite lookup_empty. split; [| done].
    rewrite bool_decide_eq_false_2; [done |]. by intros [? ?].
Qed.

Lemma built_new_inv (description time_units : string) (generation_time : Number)
    (default_Ne : option Number) (doi : option string) (g : DemeGraph.t) :
  DemeGraph.new description time_units generation_time default_Ne doi = Ok g ->
  demes g = [] /\ migrations g = [] /\ pulses g = [] /\ _deme_map g = ∅.
Proof.
  unfold DemeGraph.new, and_then.
  destruct (Validator.all _ _); [| done].
  destruct (Validator.optional _ _); [| done].
  by intros [= <-].
Qed.

(** ** Lookups by id *)

(** X7. After a successful [deme(id, ...)], [id in graph] is [True],
    [graph[id]] is the deme just built (the given id and ancestor, the new
    first epoch followed by the supplied epochs), that deme is the last of
    the list of demes, and both lookups answer for every other id as they
    did before the call. *)
Theorem deme_then_lookup (w w' : World) (id : ID) (ancestor : option ID)
    (start_time end_time : Number) (initial_size final_size : option Number)
    (epochs : option (list loc)) :
  deme id ancestor start_time end_time initial_size final_size epochs w
    = (Ok tt, w') ->
  let d := Deme.mk id ancestor (length (heap w) :: default [] epochs) in
  __contains__ id w' = (Ok true, w')
  /\ __getitem__ id w' = (Ok d, w')
  /\ demes (graph w') = demes (graph w) ++ [d]
  /\ forall j, j <> id ->
       __contains__ j w' = (fst (__contains__ j w), w')
       /\ __getitem__ j w' = (fst (__getitem__ j w), w').
Proof.
  intros H d.
  pose proof (deme_registers w id ancestor start_time end_time initial_size
                final_size epochs) as Hr.
  rewrite H in Hr. simpl in Hr. destruct Hr as [[Hne _]|[_ Hg]]; [done |].
  rewrite !contains_eq, !getitem_eq, Hg. unfold register. simpl.
  rewrite lookup_insert_eq. split; [| split; [done | split; [done |]]].
  - by rewrite bool_decide_eq_true_2.
  - intros j Hj. rewrite !contains_eq, !getitem_eq, Hg. simpl.
    by rewrite lookup_insert_ne.
Qed.

(** The first deme of a graph, looked up after its registration. *)
Lemma deme_then_lookup_witness :
  deme "A" None (Fin 0) Inf None None None w0
    = (Ok tt, after (deme "A" None (Fin 0) Inf None None None) w0)
  /\ __contains__ "A" (after (deme "A" None (Fin 0) Inf None None None) w0)
     = (Ok true, after (deme "A" None (Fin 0) Inf None None None) w0)
  /\ __getitem__ "A" (after (deme "A" None (Fin 0) Inf None None None) w0)
     = (Ok (Deme.mk "A" None [0%nat]),
        after (deme "A" None (Fin 0) Inf None None None) w0).
Proof.
  assert (H : deme "A" None (Fin 0) Inf None None None w0
              = (Ok tt, after (deme "A" None (Fin 0) Inf None None None) w0))
    by reflexivity.
  split; [exact H |].
  destruct (deme_then_lookup _ _ _ _ _ _ _ _ _ H) as (Hc & Hg & _).
  split; [exact Hc | exact Hg].
Defined.

(** ** What a call can do to the graph *)

Lemma Migration_new_sound (g : DemeGraph.t) (source dest : ID) (time rate : Number)
    (m : Migration.t) :
  registered g source -> registered g dest ->
  Migration.new source dest time rate = Ok m -> sound_migration g m.
Proof.
  intros Hs Hd H. apply Migration_new_checked in H as (Ht & Hr & Hne & ->).
  unfold sound_migration. simpl. tauto.
Qed.

Lemma Pulse_new_sound (g : DemeGraph.t) (source dest : ID) (time proportion : Number)
    (p : Pulse.t) :
  registered g source -> registered g dest ->
  Pulse.new source dest time proportion = Ok p -> sound_pulse g p.
Proof.
  intros Hs Hd H. apply Pulse_new_checked in H as (Ht & Hr & Hne & ->).
  unfold sound_pulse. simpl. tauto.
Qed.

Lemma check_in_graph_ok (w w' : World) (source dest : ID) :
  check_in_graph [source; dest] w = (Ok tt, w') ->
  w' = w /\ registered (graph w) source /\ registered (graph w) dest.
Proof.
  rewrite check_in_graph_eq.
  destruct (bool_decide _) eqn:E1; [| done].
  destruct (bool_decide (is_Some (_deme_map (graph w) !! dest))) eqn:E2; [| done].
  apply bool_decide_eq_true in E1, E2. by intros [= <-].
Qed.

(** What [migration] leaves behind, whatever its outcome: records that
    passed the constructor, between registered demes. *)
Lemma migration_effect (w : World) (source dest : ID) (rate : Number)
    (start_time end_time : option Number) :
  exists ms, snd (migration source dest rate start_time end_time w)
             = add_migrations ms w
             /\ Forall (sound_migration (graph w)) ms.
Proof.
  unfold migration. unfold bind at 1.
  destruct (check_in_graph [source; dest] w) as [[[]|e] w1] eqn:Hc.
  2:{ rewrite check_in_graph_eq in Hc. exists [].
      rewrite add_migrations_nil.
      destruct (_ && _); injection Hc as <-; done. }
  apply check_in_graph_ok in Hc as (-> & Hs & Hd).
  unfold bind.
  pose proof (check_time_intersection_pure w source dest start_time false) as Hp.
  destruct (check_time_intersection source dest start_time false w)
    as [[lo_hi|e] w1]; simpl in Hp; subst w1;
    [| exists []; by rewrite add_migrations_nil].
  unfold pure.
  destruct (Migration.new source dest _ rate) as [m1|e] eqn:E1;
    [| exists []; by rewrite add_migrations_nil].
  apply (Migration_new_sound (graph w)) in E1; [| done | done].
  unfold modify_self at 1. fold (add_migrations [m1] w).
  destruct end_time as [t|]; [| exists [m1]; split; [done | by constructor]].
  pose proof (check_time_intersection_pure (add_migrations [m1] w)
                source dest (Some t) false) as Hp.
  destruct (check_time_intersection source dest (Some t) false _)
    as [[lo_hi'|e] w1]; simpl in Hp; subst w1;
    [| exists [m1]; split; [done | by constructor]].
  destruct (Migration.new source dest t (Fin 0)) as [m2|e] eqn:E2;
    [| exists [m1]; split; [done | by constructor]].
  apply (Migration_new_sound (graph w)) in E2; [| done | done].
  exists [m1; m2]. split; [| constructor; [done | by constructor]].
  unfold modify_self, add_migrations, set_migrations. simpl.
  by rewrite <- app_assoc.
Qed.

Lemma symmetric_migration_effect (w : World) (ids : list ID) (rate : Number)
    (start_time end_time : option Number) :
  exists ms, snd (symmetric_migration ids rate start_time end_time w)
             = add_migrations ms w
             /\ Forall (sound_migration (graph w)) ms.
Proof.
  unfold symmetric_migration.
  destruct (length ids <? 2)%nat;
    [exists []; by rewrite add_migrations_nil |].
  generalize (permutations2 ids). intros pairs. revert w.
  induction pairs as [|[s d] pairs IH]; intros w; simpl.
  - exists []. by rewrite add_migrations_nil.
  - unfold bind at 1.
    destruct (migration_effect w s d rate start_time end_time) as (ms & Hms & Hfa).
    destruct (migration s d rate start_time end_time w) as [[[]|e] w1];
      simpl in Hms; subst w1; [| by exists ms].
    destruct (IH (add_migrations ms w)) as (ms' & Hms' & Hfa').
    exists (ms ++ ms'). rewrite Hms', add_migrations_app. split; [done |].
    apply Forall_app. by split.
Qed.

Lemma pulse_effect (w : World) (source dest : ID) (proportion time : Number) :
  exists ps, snd (pulse source dest proportion time w) = add_pulses ps w
             /\ Forall (sound_pulse (graph w)) ps.
Proof.
  assert (Hnil : exists ps, w = add_pulses ps w
                            /\ Forall (sound_pulse (graph w)) ps).
  { exists []. by rewrite add_pulses_nil. }
  unfold pulse. unfold bind at 1.
  destruct (check_in_graph [source; dest] w) as [[[]|e] w1] eqn:Hc.
  2:{ rewrite check_in_graph_eq in Hc.
      destruct (_ && _); [done |]. injection Hc as _ <-. exact Hnil. }
  apply check_in_graph_ok in Hc as (-> & Hs & Hd).
  unfold bind. rewrite !getitem_eq.
  destruct (_deme_map (graph w) !! source) as [s|]; [| exact Hnil].
  destruct (_deme_map (graph w) !! dest) as [d|]; [| exact Hnil].
  simpl. destruct (_ || _); [exact Hnil |].
  pose proof (check_time_intersection_pure w source dest (Some time) true) as Hp.
  destruct (check_time_intersection source dest (Some time) true w)
    as [[lo_hi|e] w1]; simpl in Hp; subst w1; [| exact Hnil].
  unfold pure.
  destruct (Pulse.new source dest time proportion) as [p|e] eqn:E;
    [| exact Hnil].
  apply (Pulse_new_sound (graph w)) in E; [| done | done].
  exists [p]. split; [done | by constructor].
Qed.

Lemma subgraph_loop_effect (deme_id : ID) (proportions : list Q)
    (end_time : Number) (jas : list (nat * ID)) (acc : option Q) (w : World) :
  exists ps, snd (foldM (subgraph_step deme_id proportions end_time) acc jas w)
             = add_pulses ps w
             /\ Forall (sound_pulse (graph w)) ps.
Proof.
  revert acc w. induction jas as [|[j a] jas IH]; intros acc w; simpl.
  - exists []. by rewrite add_pulses_nil.
  - unfold bind at 1. unfold subgraph_step at 1. simpl.
    destruct (proportions !! j) as [pj|];
      [| exists []; by rewrite add_pulses_nil].
    unfold bind at 1. unfold bind at 1. unfold pure.
    destruct (divide pj (sum (drop j proportions))) as [q|e];
      [| exists []; by rewrite add_pulses_nil].
    destruct (pulse_effect w deme_id a (Fin q) end_time) as (ps & Hps & Hfa).
    destruct (pulse deme_id a (Fin q) end_time w) as [[[]|e] w1];
      simpl in Hps; subst w1; [| by exists ps].
    unfold ret at 1.
    destruct (IH (Some q) (add_pulses ps w)) as (ps' & Hps' & Hfa').
    exists (ps ++ ps'). rewrite Hps', add_pulses_app. split; [done |].
    apply Forall_app. by split.
Qed.

Lemma subgraph_effect_sound (w : World) (deme_id : ID) (ancestors : list ID)
    (proportions : list Q) (start_time : Number) (end_time : option Number)
    (initial_size final_size : option Number) (epochs : option (list loc)) :
  exists wd ps,
    (wd = w
     \/ exists t, wd = snd (deme deme_id None start_time t initial_size
                              final_size epochs w))
    /\ snd (subgraph deme_id ancestors proportions start_time end_time
              initial_size final_size epochs w) = add_pulses ps wd
    /\ Forall (sound_pulse (graph wd)) ps.
Proof.
  assert (Hnone : forall r : result unit, exists wd ps,
            (wd = w
             \/ exists t, wd = snd (deme deme_id None start_time t initial_size
                                      final_size epochs w))
            /\ snd (r, w) = add_pulses ps wd
            /\ Forall (sound_pulse (graph wd)) ps).
  { intros r. exists w, []. split; [by left | by rewrite add_pulses_nil]. }
  unfold subgraph.
  destruct (negb (length ancestors =? length proportions)%nat); [apply Hnone |].
  destruct (negb (isclose (sum proportions) 1)); [apply Hnone |].
  unfold bind at 1.
  assert (exists r, (match end_time with
                     | Some t => ret t
                     | None => max_start_time ancestors
                     end) w = (r, w)) as [r ->].
  { destruct end_time as [t|]; [by eexists |].
    pose proof (max_start_time_pure w ancestors) as Hp.
    destruct (max_start_time ancestors w) as [r w1]. simpl in Hp. subst w1.
    by eexists. }
  destruct r as [t|e]; [| apply Hnone].
  exists (snd (deme deme_id None start_time t initial_size final_size epochs w)).
  unfold bind at 1.
  destruct (deme deme_id None start_time t initial_size final_size epochs w)
    as [[[]|e] w1] eqn:Ed; simpl.
  2:{ exists []. split; [right; exists t; by rewrite Ed
                        | by rewrite add_pulses_nil]. }
  unfold bind at 1.
  destruct (subgraph_loop_effect deme_id proportions t
              (enumerate ancestors) None w1) as (ps & Hps & Hfa).
  exists ps. split; [right; exists t; by rewrite Ed |]. split; [| done].
  destruct (foldM _ None (enumerate ancestors) w1) as [[p|e] w2];
    simpl in Hps; subst w2; [| done].
  destruct p as [p|]; [| done]. by destruct (Qeq_bool p 1).
Qed.

(** A deme that [deme] registers names an ancestor that is registered and
    is not the deme itself. *)
Lemma deme_effect (w : World) (id : ID) (ancestor : option ID)
    (start_time end_time : Number) (initial_size final_size : option Number)
    (epochs : option (list loc)) :
  let w' := snd (deme id ancestor start_time end_time initial_size final_size
                   epochs w) in
  graph w' = graph w
  \/ (graph w' = register (Deme.mk id ancestor
                             (length (heap w) :: default [] epochs))
                          (graph w)
      /\ forall a, ancestor = Some a -> a <> id /\ registered (graph w) a).
Proof.
  rewrite deme_eq.
  destruct (first_epoch _ _ _ _ _ _) as [first|e] eqn:Hf; [| by left].
  simpl. destruct (Deme.new id ancestor _) as [d|e] eqn:Ed; [| by left].
  destruct (foldM Deme.add_epoch _ _ _) as [[d'|e] h'] eqn:E; [| by left].
  right. simpl. split.
  - apply Deme_new_inv in Ed. subst d.
    apply add_epochs_returns in E. by subst d'.
  - intros a ->. split.
    + unfold Deme.new in Ed. simpl in Ed.
      destruct (String.eqb id a) eqn:Eq; [done |].
      apply String.eqb_neq in Eq. congruence.
    + unfold first_epoch in Hf. unfold registered.
      destruct (match initial_size with Some _ => _ | None => _ end); [| done].
      by destruct (_deme_map (graph w) !! a).
Qed.

Lemma sound_pulse_ext (g g' : DemeGraph.t) (p : Pulse.t) :
  _deme_map g' = _deme_map g -> sound_pulse g p -> sound_pulse g' p.
Proof. unfold sound_pulse, registered. by intros ->. Qed.

(** The change any call makes to the graph object: at most one deme
    registered, records appended, everything else as it was. *)
Lemma do_call_effect (c : call) (w : World) :
  exists od ms ps,
    graph (snd (do_call c w))
    = DemeGraph.mk (description (graph w)) (time_units (graph w))
        (generation_time (graph w)) (default_Ne (graph w)) (doi (graph w))
        (demes (graph w) ++ option_list od)
        (migrations (graph w) ++ ms) (pulses (graph w) ++ ps)
        (match od with
         | Some d => <[Deme.id d := d]> (_deme_map (graph w))
         | None => _deme_map (graph w)
         end)
    /\ Forall (sound_migration (graph w)) ms
    /\ Forall (sound_pulse (graph (snd (do_call c w)))) ps
    /\ forall d a, od = Some d -> Deme.ancestor d = Some a ->
         a <> Deme.id d /\ registered (graph w) a.
Proof.
  assert (Hsame : forall g : DemeGraph.t,
            g = DemeGraph.mk (description g) (time_units g) (generation_time g)
                  (default_Ne g) (doi g) (demes g ++ option_list None)
                  (migrations g ++ []) (pulses g ++ []) (_deme_map g)).
  { intros []. simpl. by rewrite !app_nil_r. }
  assert (Hdeme : forall id anc st et i f eps w1 ps,
    w1 = snd (deme id anc st et i f eps w) ->
    Forall (sound_pulse (graph w1)) ps ->
    exists od ms ps0,
      graph (add_pulses ps w1)
      = DemeGraph.mk (description (graph w)) (time_units (graph w))
          (generation_time (graph w)) (default_Ne (graph w)) (doi (graph w))
          (demes (graph w) ++ option_list od)
          (migrations (graph w) ++ ms) (pulses (graph w) ++ ps0)
          (match od with
           | Some d => <[Deme.id d := d]> (_deme_map (graph w))
           | None => _deme_map (graph w)
           end)
      /\ Forall (sound_migration (graph w)) ms
      /\ Forall (sound_pulse (graph (add_pulses ps w1))) ps0
      /\ forall d a, od = Some d -> Deme.ancestor d = Some a ->
           a <> Deme.id d /\ registered (graph w) a).
  { intros id anc st et i f eps w1 ps -> Hps.
    destruct (deme_effect w id anc st et i f eps) as [Hg|[Hg Hanc]].
    - exists None, [], ps. simpl. rewrite Hg.
      split; [by destruct (graph w); simpl; rewrite !app_nil_r |].
      split; [done |]. split; [| done].
      eapply Forall_impl; [exact Hps |]. intros p. apply sound_pulse_ext.
      by rewrite Hg.
    - eexists (Some _), [], ps. simpl. rewrite Hg.
      split; [by destruct (graph w); simpl; rewrite !app_nil_r |].
      split; [done |]. split.
      + eapply Forall_impl; [exact Hps |]. intros p. apply sound_pulse_ext.
        by rewrite Hg.
      + intros d a [= <-]. simpl. apply Hanc. }
  destruct c as [st et i f | id anc st et i f eps | s d rate st et
                | ids rate st et | s d pr tm | id ancs props st et i f eps];
    simpl.
  - exists None, [], []. unfold bind, pure, on_heap, alloc.
    destruct (Epoch.new st et i f); simpl; (split; [apply Hsame | by auto]).
  - destruct (Hdeme id anc st et i f eps _ [] eq_refl) as (od & ms & ps & H);
      [done |].
    rewrite add_pulses_nil in H. by exists od, ms, ps.
  - destruct (migration_effect w s d rate st et) as (ms & -> & Hfa).
    exists None, ms, []. simpl. rewrite !app_nil_r. by auto.
  - destruct (symmetric_migration_effect w ids rate st et) as (ms & -> & Hfa).
    exists None, ms, []. simpl. rewrite !app_nil_r. by auto.
  - destruct (pulse_effect w s d pr tm) as (ps & -> & Hfa).
    exists None, [], ps. simpl. rewrite !app_nil_r. by auto.
  - destruct (subgraph_effect_sound w id ancs props st et i f eps)
      as (wd & ps & [->|[t ->]] & -> & Hfa).
    + exists None, [], ps. simpl. rewrite !app_nil_r. by auto.
    + by apply (Hdeme id None st t i f eps _ ps eq_refl).
Qed.

Lemma do_call_registered (c : call) (w : World) (i : ID) :
  registered (graph w) i -> registered (graph (snd (do_call c w))) i.
Proof.
  destruct (do_call_effect c w) as (od & ms & ps & -> & _).
  unfold registered. simpl. intros Hi. destruct od as [d|]; [| done].
  destruct (decide (Deme.id d = i)) as [<-|Hne].
  - rewrite lookup_insert_eq. by eexists.
  - by rewrite lookup_insert_ne.
Qed.

(** X8. Whatever its outcome, a call (constructing an [Epoch], [deme],
    [migration], [symmetric_migration], [pulse] or [subgraph]) only appends:
    the lists of demes, of migrations and of pulses before the call are
    prefixes of the lists after it, an id that is in the index stays in it,
    and [description], [time_units], [generation_time], [default_Ne] and
    [doi] are untouched. *)
Theorem calls_only_append (c : call) (w : World) :
  let g := graph w in
  let g' := graph (snd (do_call c w)) in
  demes g `prefix_of` demes g'
  /\ migrations g `prefix_of` migrations g'
  /\ pulses g `prefix_of` pulses g'
  /\ (forall i, registered g i -> registered g' i)
  /\ description g' = description g /\ time_units g' = time_units g
  /\ generation_time g' = generation_time g /\ default_Ne g' = default_Ne g
  /\ doi g' = doi g.
Proof.
  simpl. split; [| split; [| split; [| split]]].
  4:{ intros i. apply do_call_registered. }
  all: destruct (do_call_effect c w) as (od & ms & ps & -> & _); simpl.
  all: first [by eexists | done].
Qed.

Lemma sound_migration_mono (g g' : DemeGraph.t) (m : Migration.t) :
  (forall i, registered g i -> registered g' i) ->
  sound_migration g m -> sound_migration g' m.
Proof. intros H (? & ? & ? & ? & ?). split_and!; auto. Qed.

Lemma sound_pulse_mono (g g' : DemeGraph.t) (p : Pulse.t) :
  (forall i, registered g i -> registered g' i) ->
  sound_pulse g p -> sound_pulse g' p.
Proof. intros H (? & ? & ? & ? & ?). split_and!; auto. Qed.

Lemma do_call_sound (c : call) (w : World) :
  Forall (sound_migration (graph w)) (migrations (graph w)) ->
  Forall (sound_pulse (graph w)) (pulses (graph w)) ->
  Forall (sound_migration (graph (snd (do_call c w))))
         (migrations (graph (snd (do_call c w))))
  /\ Forall (sound_pulse (graph (snd (do_call c w))))
            (pulses (graph (snd (do_call c w)))).
Proof.
  intros Hm Hp.
  pose proof (do_call_registered c w) as Hreg.
  destruct (do_call_effect c w) as (od & ms & ps & Hg & Hms & Hps & _).
  revert Hps Hreg. rewrite Hg. simpl. intros Hps Hreg. split.
  - apply Forall_app. split; (eapply Forall_impl; [eassumption |]);
      intros m; by apply sound_migration_mono.
  - apply Forall_app. split; [| done].
    eapply Forall_impl; [exact Hp |]. intros p. by apply sound_pulse_mono.
Qed.

Lemma built_sound (w : World) :
  built w ->
  Forall (sound_migration (graph w)) (migrations (graph w))
  /\ Forall (sound_pulse (graph w)) (pulses (graph w)).
Proof.
  induction 1 as [? ? ? ? ? g Hnew|w c Hb [IHm IHp] _].
  - apply built_new_inv in Hnew as (_ & Hm & Hp & _). simpl.
    rewrite Hm, Hp. by split.
  - by apply do_call_sound.
Qed.

Lemma built_w_ab_mp : built w_ab_mp.
Proof.
  apply (built_call _ (pulse_ "A" "B" (Fin (1 # 2)) (Fin 50)));
    [| intros l Hl; by inversion Hl].
  apply (built_call _ (migration_ "A" "B" (Fin 1) None (Some (Fin 50))));
    [| intros l Hl; by inversion Hl].
  apply built_w_ab.
Qed.

(** X9. In a graph reached from a new [DemeGraph] by any sequence of
    calls, every migration goes between two different ids that are both
    in the id index, and its [time] and its [rate] have passed the tests
    of the constructor: [value < 0] is false and [math.isinf(value)]
    returns [False].  Every pulse goes between two different ids that are
    both in the id index, its [time] has passed the same two tests, and
    [0 <= proportion <= 1] is true. *)
Theorem records_sound (w : World) :
  built w ->
  (forall m, m ∈ migrations (graph w) -> sound_migration (graph w) m)
  /\ (forall p, p ∈ pulses (graph w) -> sound_pulse (graph w) p).
Proof.
  intros Hb. destruct (built_sound w Hb) as [Hm Hp].
  split; [intros m Hin | intros p Hin].
  - by apply (proj1 (Forall_forall _ _) Hm).
  - by apply (proj1 (Forall_forall _ _) Hp).
Qed.

(** The migration and the pulse of [w_ab_mp]. *)
Lemma records_sound_witness :
  built w_ab_mp
  /\ sound_migration (graph w_ab_mp) (Migration.mk "A" "B" (Fin 0) (Fin 1))
  /\ sound_pulse (graph w_ab_mp) (Pulse.mk "A" "B" (Fin 50) (Fin (1 # 2))).
Proof.
  split; [exact built_w_ab_mp |].
  destruct (records_sound w_ab_mp built_w_ab_mp) as [Hm Hp].
  split; [apply Hm | apply Hp]; vm_compute; by repeat constructor.
Defined.

Lemma do_call_ancestors (c : call) (w : World) :
  index_ok (graph w) -> ancestors_first (graph w) ->
  ancestors_first (graph (snd (do_call c w))).
Proof.
  intros Hix Hanc.
  destruct (do_call_effect c w) as (od & ms & ps & -> & _ & _ & Hnew).
  intros i d a. simpl. destruct od as [d0|]; simpl.
  2:{ rewrite app_nil_r. apply Hanc. }
  intros Hd Ha. destruct (decide (i < length (demes (graph w)))%nat) as [Hlt|Hge].
  - rewrite lookup_app_l in Hd by done.
    destruct (Hanc i d a Hd Ha) as (Hne & j & d' & Hj & Hd' & Hid).
    split; [done |]. exists j, d'. split; [done |]. split; [| done].
    rewrite lookup_app_l; [done | lia].
  - rewrite lookup_app_r in Hd by lia.
    destruct (i - length (demes (graph w)))%nat as [|k] eqn:Hk; [| done].
    injection Hd as <-. destruct (Hnew d0 a eq_refl Ha) as [Hne [da Hda]].
    split; [done |].
    apply (index_in_demes _ _ _ Hix) in Hda as [Hin Hid].
    apply list_elem_of_lookup in Hin as [j Hj].
    exists j, da. split; [| split; [| done]].
    + apply lookup_lt_Some in Hj. lia.
    + rewrite lookup_app_l; [done |]. by eapply lookup_lt_Some.
Qed.

Lemma built_ancestors (w : World) : built w -> ancestors_first (graph w).
Proof.
  induction 1 as [? ? ? ? ? g Hnew|w c Hb IH _].
  - apply built_new_inv in Hnew as (Hd & _). intros i d a. simpl.
    by rewrite Hd.
  - apply do_call_ancestors; [by apply built_index_ok | done].
Qed.

(** X10. In a graph reached by any sequence of calls, a deme that
    names an ancestor is not its own ancestor, the ancestor's id is in the
    id index, and a deme with that id stands earlier in the list of
    demes. *)
Theorem ancestors_registered_first (w : World) (i : nat) (d : Deme.t) (a : ID) :
  built w ->
  demes (graph w) !! i = Some d -> Deme.ancestor d = Some a ->
  a <> Deme.id d
  /\ registered (graph w) a
  /\ exists j d', (j < i)%nat /\ demes (graph w) !! j = Some d' /\ Deme.id d' = a.
Proof.
  intros Hb Hd Ha.
  destruct (built_ancestors w Hb i d a Hd Ha) as (Hne & j & d' & Hj & Hd' & Hid).
  split; [done |]. split; [| by exists j, d'].
  unfold registered. rewrite (built_index_ok w Hb a).
  destruct (last (filter (fun d => Deme.id d = a) (demes (graph w)))) eqn:E;
    [by eexists |].
  apply last_None in E.
  assert (d' ∈ filter (fun d => Deme.id d = a) (demes (graph w))) as Hin.
  { apply list_elem_of_filter. split; [done |]. by eapply list_elem_of_lookup_2. }
  rewrite E in Hin. by apply elem_of_nil in Hin.
Qed.

(** Deme [B] of [w_open_b] and its ancestor [A]. *)
Lemma ancestors_registered_first_witness :
  built w_open_b
  /\ demes (graph w_open_b) !! 1%nat = Some (Deme.mk "B" (Some "A") [2%nat; 1%nat])
  /\ "A" <> "B"
  /\ registered (graph w_open_b) "A"
  /\ exists j d', (j < 1)%nat /\ demes (graph w_open_b) !! j = Some d'
                  /\ Deme.id d' = "A".
Proof.
  split; [exact built_w_open_b |]. split; [reflexivity |].
  exact (ancestors_registered_first w_open_b 1
           (Deme.mk "B" (Some "A") [2%nat; 1%nat]) "A"
           built_w_open_b eq_refl eq_refl).
Defined.

(** ** What a call can do to the epoch objects *)

Lemma extends_refl (e : Epoch.t) : extends e e.
Proof. by repeat split. Qed.

Lemma extends_trans (e1 e2 e3 : Epoch.t) :
  extends e1 e2 -> extends e2 e3 -> extends e1 e3.
Proof.
  intros (Hs & Hi & Hf & He) (Hs' & Hi' & Hf' & He'). repeat split.
  - congruence.
  - intros H. rewrite <- (Hi H). apply Hi'. by rewrite (Hi H).
  - intros H. rewrite <- (Hf H). apply Hf'. by rewrite (Hf H).
  - auto.
Qed.

Section Extending.
Context {A B : Type}.

Lemma extending_ret (a : A) : extending (@ret Heap A a).
Proof. intros h l e H. exists e. split; [done | apply extends_refl]. Qed.

Lemma extending_raise (x : exn) : extending (@raise Heap A x).
Proof. intros h l e H. exists e. split; [done | apply extends_refl]. Qed.

Lemma extending_bind (m : M Heap A) (k : A -> M Heap B) :
  extending m -> (forall a, extending (k a)) -> extending (bind m k).
Proof.
  intros Hm Hk h l e He. unfold bind.
  destruct (Hm h l e He) as (e1 & H1 & Hx1).
  destruct (m h) as [[a|x] h1]; simpl in *; [| by exists e1].
  destruct (Hk a h1 l e1 H1) as (e2 & H2 & Hx2).
  exists e2. split; [done |]. by eapply extends_trans.
Qed.

End Extending.

Lemma extending_load (l : loc) : extending (load l).
Proof.
  intros h l' e H. unfold load. exists e.
  split; [by destruct (h !! l) | apply extends_refl].
Qed.

(** An assignment guarded by a test made on the object as it is in the
    store at that moment. *)
Lemma extending_update_at (l : loc) (f : Epoch.t -> Epoch.t) (h : Heap) :
  (forall e, h !! l = Some e -> extends e (f e)) ->
  forall l' e, h !! l' = Some e ->
    exists e', snd (update l f h) !! l' = Some e' /\ extends e e'.
Proof.
  intros Hf l' e H. unfold update.
  destruct (h !! l) as [x|] eqn:Hx; simpl.
  2:{ exists e. split; [done | apply extends_refl]. }
  destruct (decide (l = l')) as [->|Hne].
  - exists (f x). split.
    + apply list_lookup_insert_eq. by eapply lookup_lt_Some.
    + replace e with x by congruence. by apply Hf.
  - exists e. rewrite list_lookup_insert_ne by done.
    split; [done | apply extends_refl].
Qed.

Lemma extending_set_end_time (l : loc) (t : Number) :
  extending (update l (Epoch.set_end_time (Some t))).
Proof.
  intros h. apply extending_update_at. intros e _.
  by repeat split; simpl; eauto.
Qed.

Lemma extending_bind_at {A B} (m : M Heap A) (k : A -> M Heap B) (h : Heap) :
  (forall l e, h !! l = Some e ->
     exists e', snd (m h) !! l = Some e' /\ extends e e') ->
  (forall a, extending (k a)) ->
  forall l e, h !! l = Some e ->
    exists e', snd (bind m k h) !! l = Some e' /\ extends e e'.
Proof.
  intros Hm Hk l e He. unfold bind.
  destruct (Hm l e He) as (e1 & H1 & Hx1).
  destruct (m h) as [[a|x] h1]; simpl in *; [| by exists e1].
  destruct (Hk a h1 l e1 H1) as (e2 & H2 & Hx2).
  exists e2. split; [done |]. by eapply extends_trans.
Qed.

(** The pattern of [add_epoch]: read an object, and fill one of its
    attributes in when the attribute read is [None]. *)
Lemma extending_guarded {B} (l : loc) (guard : Epoch.t -> bool)
    (body : Epoch.t -> M Heap unit) (rest : M Heap B) :
  (forall h e, h !! l = Some e -> guard e = true ->
     forall l' e0, h !! l' = Some e0 ->
       exists e', snd (body e h) !! l' = Some e' /\ extends e0 e') ->
  extending rest ->
  extending (e <- load l ;; when (guard e) (body e) ;;; rest).
Proof.
  intros Hbody Hrest h l' e0 H0. unfold bind at 1, load.
  destruct (h !! l) as [e|] eqn:He; simpl.
  2:{ exists e0. split; [done | apply extends_refl]. }
  apply extending_bind_at; [| by intros _ | done].
  intros l1 e1 H1. destruct (guard e) eqn:Hg; simpl.
  - by apply (Hbody h e He Hg).
  - exists e1. split; [done | apply extends_refl].
Qed.

Lemma fill_from_prev (epoch prev_epoch : loc) (f : Epoch.t -> Epoch.t -> Epoch.t)
    (h : Heap) (e : Epoch.t) :
  h !! epoch = Some e -> (forall p, extends e (f p e)) ->
  forall l' e0, h !! l' = Some e0 ->
    exists e', snd ((p <- load prev_epoch ;; update epoch (f p)) h) !! l' = Some e'
               /\ extends e0 e'.
Proof.
  intros He Hf l' e0 H0. unfold bind, load.
  destruct (h !! prev_epoch) as [p|]; simpl.
  2:{ exists e0. split; [done | apply extends_refl]. }
  apply extending_update_at; [| done].
  intros e' He'. replace e' with e by congruence. apply Hf.
Qed.

(** [add_epoch] only extends the objects of the store. *)
Lemma add_epoch_extending (self : Deme.t) (epoch : loc) :
  extending (Deme.add_epoch self epoch).
Proof.
  unfold Deme.add_epoch.
  destruct (last (Deme.epochs self)) as [prev_epoch|]; [| apply extending_raise].
  apply extending_bind; [apply extending_load | intros e].
  apply extending_bind; [apply extending_load | intros p].
  destruct (num_lt _ _); [apply extending_raise |].
  apply (extending_guarded epoch (fun e => Epoch.is_None (Epoch.end_time e))
           (fun _ => p <- load prev_epoch ;;
                     update epoch (Epoch.set_end_time (Epoch.end_time p)))).
  { intros h e1 He1 Hg. apply (fill_from_prev epoch prev_epoch
      (fun p => Epoch.set_end_time (Epoch.end_time p)) h e1 He1).
    intros p1. destruct e1 as [s [t|] i f]; [done |]. repeat split.
    by intros [? [=]]. }
  apply extending_bind; [apply extending_load | intros e2].
  apply extending_bind; [apply extending_set_end_time | intros _].
  apply (extending_guarded epoch (fun e => Epoch.is_None (Epoch.initial_size e))
           (fun _ => p <- load prev_epoch ;;
                     update epoch (Epoch.set_initial_size (Epoch.final_size p)))).
  { intros h e1 He1 Hg. apply (fill_from_prev epoch prev_epoch
      (fun p => Epoch.set_initial_size (Epoch.final_size p)) h e1 He1).
    intros p1. destruct e1 as [s t [i|] f]; [done |]. repeat split; try done.
    by intros [? [=]]. }
  apply (extending_guarded epoch (fun e => Epoch.is_None (Epoch.final_size e))
           (fun _ => e <- load epoch ;;
                     update epoch (Epoch.set_final_size (Epoch.initial_size e)))).
  { intros h e1 He1 Hg. apply (fill_from_prev epoch epoch
      (fun p => Epoch.set_final_size (Epoch.initial_size p)) h e1 He1).
    intros p1. destruct e1 as [s t i [f|]]; [done |]. repeat split; try done.
    by intros [? [=]]. }
  apply extending_ret.
Qed.

Lemma add_epochs_extending (ls : list loc) (d : Deme.t) :
  extending (foldM Deme.add_epoch d ls).
Proof.
  revert d. induction ls as [|l ls IH]; intros d; simpl.
  - apply extending_ret.
  - apply extending_bind; [apply add_epoch_extending | intros d1; apply IH].
Qed.

Lemma num_lt_irrefl (a : Number) : num_lt a a = false.
Proof.
  destruct a as [x|]; simpl; [| done]. unfold Qlt_bool.
  apply negb_false_iff, Qle_bool_iff, Qle_refl.
Qed.

(** [add_epoch] in closed form when the epoch passed in is the very
    object that is the deme's last epoch: the call goes through, and the
    object ends when it starts. *)
Lemma add_epoch_eq_same (self : Deme.t) (h : Heap) (epoch : loc) (e : Epoch.t) :
  last (Deme.epochs self) = Some epoch ->
  h !! epoch = Some e ->
  Deme.add_epoch self epoch h =
    let initial_size :=
      match Epoch.initial_size e with
      | None => Epoch.final_size e
      | Some n => Some n
      end in
    let final_size :=
      match Epoch.final_size e with
      | None => initial_size
      | Some n => Some n
      end in
    (Ok (Deme.mk (Deme.id self) (Deme.ancestor self)
                 (Deme.epochs self ++ [epoch])),
     <[epoch := Epoch.mk (Epoch.start_time e) (Some (Epoch.start_time e))
                  initial_size final_size]> h).
Proof.
  intros Hlast He. unfold Deme.add_epoch. rewrite Hlast.
  rewrite !(bind_load _ _ _ _ He). rewrite num_lt_irrefl.
  destruct e as [s [t|] [n|] [m|]]; step_heap; unfold ret;
    f_equal; apply list_eq; intros i;
    (destruct (decide (i = epoch)) as [->|?]);
    repeat first
      [ erewrite lookup_insert_alias by heap_lookup
      | rewrite list_lookup_insert_ne by congruence ];
    first [reflexivity | congruence].
Qed.

(** X11. [add_epoch] given the very object that is the deme's last
    epoch: the call does not raise; the reference is appended a second
    time; the object keeps its [start_time], its [end_time] becomes its
    own [start_time], an unset [initial_size] becomes its [final_size] and
    an unset [final_size] its [initial_size]; no other object changes. *)
Theorem add_epoch_own_last_epoch (self : Deme.t) (h h' : Heap) (epoch : loc)
    (e : Epoch.t) (r : result Deme.t) :
  last (Deme.epochs self) = Some epoch ->
  h !! epoch = Some e ->
  Deme.add_epoch self epoch h = (r, h') ->
  r = Ok (Deme.mk (Deme.id self) (Deme.ancestor self)
                  (Deme.epochs self ++ [epoch]))
  /\ (exists e',
        h' !! epoch = Some e'
        /\ Epoch.start_time e' = Epoch.start_time e
        /\ Epoch.end_time e' = Some (Epoch.start_time e)
        /\ Epoch.initial_size e' = match Epoch.initial_size e with
                                   | None => Epoch.final_size e
                                   | Some n => Some n
                                   end
        /\ Epoch.final_size e' = match Epoch.final_size e with
                                 | None => Epoch.initial_size e
                                 | Some n => Some n
                                 end)
  /\ (forall l, l <> epoch -> h' !! l = h !! l).
Proof.
  intros Hlast He. rewrite (add_epoch_eq_same self h epoch e Hlast He).
  simpl. intros [= <- <-]. split; [done |]. split.
  - eexists. split; [apply list_lookup_insert_eq; by eapply lookup_lt_Some |].
    simpl. repeat split.
    destruct (Epoch.final_size e); [done |]. by destruct (Epoch.initial_size e).
  - intros l Hl. by rewrite list_lookup_insert_ne.
Qed.

(** A deme with two epochs is given its second epoch once more. *)
Lemma add_epoch_own_last_epoch_witness :
  last (Deme.epochs (Deme.mk "A" None [0%nat; 1%nat])) = Some 1%nat
  /\ [Epoch.mk (Fin 0) (Some (Fin 10)) (Some (Fin 100)) (Some (Fin 100));
      Epoch.mk (Fin 10) (Some Inf) (Some (Fin 5)) (Some (Fin 5))] !! 1%nat
     = Some (Epoch.mk (Fin 10) (Some Inf) (Some (Fin 5)) (Some (Fin 5)))
  /\ fst (Deme.add_epoch (Deme.mk "A" None [0%nat; 1%nat]) 1%nat
            [Epoch.mk (Fin 0) (Some (Fin 10)) (Some (Fin 100)) (Some (Fin 100));
             Epoch.mk (Fin 10) (Some Inf) (Some (Fin 5)) (Some (Fin 5))])
     = Ok (Deme.mk "A" None [0%nat; 1%nat; 1%nat]).
Proof.
  split; [reflexivity |]. split; [reflexivity |].
  exact (proj1 (add_epoch_own_last_epoch
                  (Deme.mk "A" None [0%nat; 1%nat])
                  [Epoch.mk (Fin 0) (Some (Fin 10)) (Some (Fin 100)) (Some (Fin 100));
                   Epoch.mk (Fin 10) (Some Inf) (Some (Fin 5)) (Some (Fin 5))]
                  _ 1%nat _ _ eq_refl eq_refl
                  (surjective_pairing _))).
Defined.

Lemma app_extends (h : Heap) (x : Epoch.t) (l : loc) (e : Epoch.t) :
  h !! l = Some e -> exists e', (h ++ [x]) !! l = Some e' /\ extends e e'.
Proof.
  intros H. exists e. split; [| apply extends_refl].
  rewrite lookup_app_l; [done |]. by eapply lookup_lt_Some.
Qed.

(** [deme] only extends the objects of the store. *)
Lemma deme_extends (w : World) (id : ID) (ancestor : option ID)
    (start_time end_time : Number) (initial_size final_size : option Number)
    (epochs : option (list loc)) (l : loc) (e : Epoch.t) :
  heap w !! l = Some e ->
  exists e', heap (snd (deme id ancestor start_time end_time initial_size
                          final_size epochs w)) !! l = Some e'
             /\ extends e e'.
Proof.
  intros H. rewrite deme_eq.
  destruct (first_epoch _ _ _ _ _ _) as [first|x]; simpl.
  2:{ exists e. split; [done | apply extends_refl]. }
  destruct (app_extends (heap w) first l e H) as (e1 & H1 & Hx1).
  destruct (Deme.new id ancestor _) as [d|x]; simpl; [| by exists e1].
  destruct (add_epochs_extending (default [] epochs) d (heap w ++ [first])
              l e1 H1) as (e2 & H2 & Hx2).
  exists e2. split; [| by eapply extends_trans].
  by destruct (foldM Deme.add_epoch d _ _) as [[d'|x] h'].
Qed.

(** X12. Whatever its outcome, a call leaves every [Epoch] object in
    place and only extends it: the [start_time] is never changed, an
    [initial_size] or [final_size] that is set is never changed, and an
    [end_time] that is set stays set (it may be overwritten). *)
Theorem calls_extend_epochs (c : call) (w : World) (l : loc) (e : Epoch.t) :
  heap w !! l = Some e ->
  exists e', heap (snd (do_call c w)) !! l = Some e' /\ extends e e'.
Proof.
  intros H.
  assert (Hsame : exists e', heap w !! l = Some e' /\ extends e e').
  { exists e. split; [done | apply extends_refl]. }
  destruct c as [st et i f | id anc st et i f eps | s d rate st et
                | ids rate st et | s d pr tm | id ancs props st et i f eps];
    simpl.
  - unfold bind, pure, on_heap, alloc.
    destruct (Epoch.new st et i f) as [e0|]; simpl; [| done].
    by apply app_extends.
  - by apply deme_extends.
  - destruct (migration_appends w s d rate st et) as [ms ->]. done.
  - destruct (symmetric_migration_appends w ids rate st et) as [ms ->]. done.
  - destruct (pulse_appends w s d pr tm) as [ps ->]. done.
  - destruct (subgraph_effect w id ancs props st et i f eps)
      as (wd & ps & [->|[t ->]] & ->); [done |].
    simpl. by apply deme_extends.
Qed.

(** The epoch object of [w_open], handed to [deme]. *)
Lemma calls_extend_epochs_witness :
  heap w_open !! 1%nat = Some (Epoch.mk (Fin 10) None (Some (Fin 5)) (Some (Fin 5)))
  /\ exists e',
       heap (snd (do_call (deme_ "B" (Some "A") (Fin 0) Inf None None
                             (Some [1%nat])) w_open)) !! 1%nat = Some e'
       /\ extends (Epoch.mk (Fin 10) None (Some (Fin 5)) (Some (Fin 5))) e'.
Proof.
  split; [reflexivity |].
  exact (calls_extend_epochs
           (deme_ "B" (Some "A") (Fin 0) Inf None None (Some [1%nat]))
           w_open 1 _ eq_refl).
Defined.

(** ** Epochs of registered demes are complete *)

Lemma Epoch_new_constructed (start_time : Number)
    (end_time initial_size final_size : option Number) (e : Epoch.t) :
  Epoch.new start_time end_time initial_size final_size = Ok e -> constructed e.
Proof.
  intros H. apply Epoch_new_checked in H as (Hs & He & Hi & Hf & Hset & ->).
  split; [done |]. simpl. split; [| split; [done |]].
  - intros t Ht. by apply He.
  - destruct final_size as [n|]; [by eauto |].
    destruct initial_size as [n|]; [by eauto |].
    by destruct Hset as [[? ?]|[? ?]].
Qed.

(** [add_epoch] keeps every object of the store as the constructor
    leaves them. *)
Lemma add_epoch_constructed (self : Deme.t) (epoch : loc) (h : Heap) :
  Forall constructed h ->
  Forall constructed (snd (Deme.add_epoch self epoch h)).
Proof.
  intros Hh.
  destruct (last (Deme.epochs self)) as [prev_epoch|] eqn:Hlast.
  2:{ unfold Deme.add_epoch. by rewrite Hlast. }
  destruct (h !! epoch) as [e|] eqn:He.
  2:{ unfold Deme.add_epoch, bind, load. by rewrite Hlast, He. }
  destruct (h !! prev_epoch) as [p|] eqn:Hp.
  2:{ unfold Deme.add_epoch, bind, load. by rewrite Hlast, He, Hp. }
  pose proof (Forall_lookup_1 _ _ _ _ Hh He) as (Hes & Hee & Hei & n & Hef & Hn).
  pose proof (Forall_lookup_1 _ _ _ _ Hh Hp) as (Hps & Hpe & Hpi & m & Hpf & Hm).
  destruct (decide (epoch = prev_epoch)) as [<-|Hne].
  - rewrite (add_epoch_eq_same self h epoch e Hlast He). simpl.
    apply Forall_insert; [done |]. rewrite Hef.
    split; [done |]. simpl. split; [| split; [| by eauto]].
    + intros t [= <-]. by destruct Hes.
    + intros n0. destruct (Epoch.initial_size e) as [i|] eqn:Hi.
      * intros [= <-]. by apply Hei.
      * intros [= <-]. done.
  - rewrite (add_epoch_eq self h epoch prev_epoch e p Hlast He Hp Hne).
    destruct (num_lt _ _); [done |]. simpl.
    apply Forall_insert; [apply Forall_insert; [done |] |].
    + split; [done |]. simpl. split; [| split; [done | by eauto]].
      intros t [= <-]. by destruct Hes.
    + rewrite Hef. split; [done |]. simpl. split; [| split; [| by eauto]].
      * intros t. destruct (Epoch.end_time e) as [t'|] eqn:Ht.
        -- intros [= <-]. by apply Hee.
        -- apply Hpe.
      * intros n0. destruct (Epoch.initial_size e) as [i|] eqn:Hi.
        -- intros [= <-]. by apply Hei.
        -- rewrite Hpf. by intros [= <-].
Qed.

Lemma add_epochs_constructed (ls : list loc) (d : Deme.t) (h : Heap) :
  Forall constructed h ->
  Forall constructed (snd (foldM Deme.add_epoch d ls h)).
Proof.
  revert d h. induction ls as [|l ls IH]; intros d h Hh; simpl; [done |].
  unfold bind. pose proof (add_epoch_constructed d l h Hh) as H1.
  destruct (Deme.add_epoch d l h) as [[d1|x] h1]; simpl in *; [| done].
  by apply IH.
Qed.

Lemma complete_extends (e e' : Epoch.t) :
  complete e -> extends e e' -> constructed e' -> complete e'.
Proof.
  intros (_ & He & Hi) (_ & Hi' & _ & He') Hc. split; [done |].
  split; [by apply He' |]. by rewrite (Hi' Hi).
Qed.

(** The epoch [add_epoch] appends is complete afterwards, when the deme's
    epochs were. *)
Lemma add_epoch_filled (d d' : Deme.t) (l : loc) (h h' : Heap) :
  Forall constructed h -> filled h d ->
  Deme.add_epoch d l h = (Ok d', h') ->
  filled h' d'.
Proof.
  intros Hh [Hne Hall] Hadd.
  pose proof (add_epoch_constructed d l h Hh) as Hh'.
  pose proof (add_epoch_extending d l h) as Hext.
  rewrite Hadd in Hh', Hext. simpl in *.
  assert (Hold : forall l0, l0 ∈ Deme.epochs d ->
            exists e, h' !! l0 = Some e /\ complete e).
  { intros l0 Hl0. destruct (Hall l0 Hl0) as (e0 & He0 & Hc0).
    destruct (Hext l0 e0 He0) as (e' & He' & Hx).
    exists e'. split; [done |]. eapply complete_extends; eauto.
    by eapply Forall_lookup_1. }
  pose proof Hadd as Hret. apply add_epoch_returns in Hret. subst d'.
  split; simpl; [by destruct (Deme.epochs d) |].
  intros l0 Hl0. apply elem_of_app in Hl0 as [Hl0|Hl0]; [by apply Hold |].
  apply list_elem_of_singleton in Hl0. subst l0.
  destruct (last (Deme.epochs d)) as [prev_epoch|] eqn:Hlast.
  2:{ by apply last_None in Hlast. }
  destruct (decide (l = prev_epoch)) as [->|Hneq].
  { apply Hold. by apply last_Some_elem_of. }
  destruct (Hall prev_epoch (last_Some_elem_of _ _ Hlast))
    as (p & Hp & (_ & _ & _ & m & Hpf & _) & [pt Hpt] & _).
  destruct (h !! l) as [e|] eqn:He.
  2:{ unfold Deme.add_epoch, bind, load in Hadd. by rewrite Hlast, He in Hadd. }
  rewrite (add_epoch_eq d h l prev_epoch e p Hlast He Hp Hneq) in Hadd.
  destruct (num_lt _ _); [done |]. simpl in Hadd. injection Hadd as <-.
  eexists. split.
  - apply list_lookup_insert_eq. rewrite length_insert. by eapply lookup_lt_Some.
  - split; [| split; simpl].
    + eapply Forall_lookup_1; [exact Hh' |].
      apply list_lookup_insert_eq. rewrite length_insert.
      by eapply lookup_lt_Some.
    + destruct (Epoch.end_time e); [by eauto | by rewrite Hpt].
    + destruct (Epoch.initial_size e); [by eauto | by rewrite Hpf].
Qed.

Lemma add_epochs_filled (ls : list loc) :
  forall (d d' : Deme.t) (h h' : Heap),
    Forall constructed h -> filled h d ->
    foldM Deme.add_epoch d ls h = (Ok d', h') ->
    filled h' d'.
Proof.
  induction ls as [|l ls IH]; intros d d' h h' Hh Hf; simpl.
  - by intros [= <- <-].
  - unfold bind.
    destruct (Deme.add_epoch d l h) as [[d1|x] h1] eqn:Hadd; [| done].
    apply IH.
    + pose proof (add_epoch_constructed d l h Hh) as H1. by rewrite Hadd in H1.
    + by eapply add_epoch_filled.
Qed.

Lemma filled_extends (h h' : Heap) (d : Deme.t) :
  Forall constructed h' ->
  (forall l e, h !! l = Some e -> exists e', h' !! l = Some e' /\ extends e e') ->
  filled h d -> filled h' d.
Proof.
  intros Hh' Hext [Hne Hall]. split; [done |].
  intros l Hl. destruct (Hall l Hl) as (e & He & Hc).
  destruct (Hext l e He) as (e' & He' & Hx). exists e'. split; [done |].
  eapply complete_extends; eauto. by eapply Forall_lookup_1.
Qed.

Lemma first_epoch_complete (w : World) (ancestor : option ID)
    (start_time end_time : Number) (initial_size final_size : option Number)
    (first : Epoch.t) :
  first_epoch w ancestor start_time end_time initial_size final_size = Ok first ->
  complete first.
Proof.
  unfold first_epoch.
  destruct (match initial_size with Some _ => _ | None => _ end) as [n|];
    [| done].
  destruct (match ancestor with Some _ => _ | None => _ end) as [t|]; [| done].
  intros H. split; [by eapply Epoch_new_constructed |].
  apply Epoch_new_inv in H as (_ & -> & -> & _). by eauto.
Qed.

Lemma deme_filled (w : World) (id : ID) (ancestor : option ID)
    (start_time end_time : Number) (initial_size final_size : option Number)
    (epochs : option (list loc)) :
  let w' := snd (deme id ancestor start_time end_time initial_size final_size
                   epochs w) in
  Forall constructed (heap w) ->
  (forall d, d ∈ demes (graph w) -> filled (heap w) d) ->
  Forall constructed (heap w')
  /\ forall d, d ∈ demes (graph w') -> filled (heap w') d.
Proof.
  intros w' Hh Hinv.
  pose proof (deme_extends w id ancestor start_time end_time initial_size
                final_size epochs) as Hext. fold w' in Hext.
  assert (Hc : Forall constructed (heap w')).
  { subst w'. rewrite deme_eq.
    destruct (first_epoch _ _ _ _ _ _) as [first|x] eqn:Hfirst; [| done].
    assert (Forall constructed (heap w ++ [first])) as Hh1.
    { apply Forall_app. split; [done |]. constructor; [| done].
      by apply first_epoch_complete in Hfirst as [? _]. }
    simpl. destruct (Deme.new id ancestor _) as [d0|x]; [| done].
    pose proof (add_epochs_constructed (default [] epochs) d0 _ Hh1) as H2.
    by destruct (foldM Deme.add_epoch d0 _ _) as [[d'|x] h']. }
  split; [done |].
  assert (Hold : forall d, d ∈ demes (graph w) -> filled (heap w') d).
  { intros d Hd. by apply (filled_extends (heap w)); [| | apply Hinv]. }
  clear Hext. subst w'. revert Hc Hold. rewrite deme_eq.
  destruct (first_epoch _ _ _ _ _ _) as [first|x] eqn:Hfirst;
    [| simpl; by auto].
  simpl. destruct (Deme.new id ancestor _) as [d0|x] eqn:Ed;
    [| simpl; by auto].
  apply Deme_new_inv in Ed. subst d0.
  destruct (foldM Deme.add_epoch _ _ _) as [[d'|x] h'] eqn:Hfold;
    [| simpl; by auto].
  simpl. intros Hc Hold d Hd.
  apply elem_of_app in Hd as [Hd|Hd]; [by apply Hold |].
  apply list_elem_of_singleton in Hd. subst d.
  eapply add_epochs_filled; [| | exact Hfold].
  - apply Forall_app. split; [done |]. constructor; [| done].
    by apply first_epoch_complete in Hfirst as [? _].
  - split; [done |]. simpl. intros l Hl. apply list_elem_of_singleton in Hl.
    subst l. exists first. split; [by apply list_lookup_middle |].
    by eapply first_epoch_complete.
Qed.

Lemma do_call_filled (c : call) (w : World) :
  let w' := snd (do_call c w) in
  Forall constructed (heap w) ->
  (forall d, d ∈ demes (graph w) -> filled (heap w) d) ->
  Forall constructed (heap w')
  /\ forall d, d ∈ demes (graph w') -> filled (heap w') d.
Proof.
  intros w' Hh Hinv. subst w'.
  destruct c as [st et i f | id anc st et i f eps | s d rate st et
                | ids rate st et | s d pr tm | id ancs props st et i f eps];
    simpl.
  - unfold bind, pure, on_heap, alloc.
    destruct (Epoch.new st et i f) as [e0|] eqn:E; simpl; [| done].
    assert (Forall constructed (heap w ++ [e0])) as Hh1.
    { apply Forall_app. split; [done |]. constructor; [| done].
      by eapply Epoch_new_constructed. }
    split; [done |]. intros d Hd.
    apply (filled_extends (heap w)); [done | | by apply Hinv].
    intros l e. apply app_extends.
  - by apply deme_filled.
  - destruct (migration_appends w s d rate st et) as [ms ->]. done.
  - destruct (symmetric_migration_appends w ids rate st et) as [ms ->]. done.
  - destruct (pulse_appends w s d pr tm) as [ps ->]. done.
  - destruct (subgraph_effect w id ancs props st et i f eps)
      as (wd & ps & [->|[t ->]] & ->); [done |].
    simpl. by apply deme_filled.
Qed.

Lemma built_filled (w : World) :
  built w ->
  Forall constructed (heap w)
  /\ forall d, d ∈ demes (graph w) -> filled (heap w) d.
Proof.
  induction 1 as [? ? ? ? ? g Hnew|w c Hb [IHh IHd] _].
  - apply built_new_inv in Hnew as (Hd & _). simpl. rewrite Hd.
    split; [done |]. intros d Hin. by apply elem_of_nil in Hin.
  - by apply do_call_filled.
Qed.

(** X13. In a graph reached by any sequence of calls, every epoch
    of every deme of the graph has all four attributes set, none is
    [None], and each value has passed the tests of its validator: for
    [start_time] and [end_time] the test [value < 0] is false, for both
    sizes [value <= 0] is false, and [math.isinf] returns [False] on
    [start_time] and on both sizes. *)
Theorem registered_epochs_complete (w : World) (d : Deme.t) (l : loc) :
  built w -> d ∈ demes (graph w) -> l ∈ Deme.epochs d ->
  exists e t i f,
    heap w !! l = Some e
    /\ accepted_time (Epoch.start_time e)
    /\ Epoch.end_time e = Some t /\ num_lt t (Fin 0) = false
    /\ Epoch.initial_size e = Some i /\ accepted_size i
    /\ Epoch.final_size e = Some f /\ accepted_size f.
Proof.
  intros Hb Hd Hl. destruct (built_filled w Hb) as [_ Hf].
  destruct (Hf d Hd) as [_ Hall].
  destruct (Hall l Hl)
    as (e & He & (Hs & Het & Hi & f & Hf' & Hfp) & [t Ht] & [i Hi']).
  exists e, t, i, f. split_and!; auto.
Qed.

(** The epoch handed to deme [B] of [w_open_b]. *)
Lemma registered_epochs_complete_witness :
  built w_open_b
  /\ exists e t i f,
       heap w_open_b !! 1%nat = Some e
       /\ accepted_time (Epoch.start_time e)
       /\ Epoch.end_time e = Some t /\ num_lt t (Fin 0) = false
       /\ Epoch.initial_size e = Some i /\ accepted_size i
       /\ Epoch.final_size e = Some f /\ accepted_size f.
Proof.
  split; [exact built_w_open_b |].
  apply (registered_epochs_complete w_open_b
           (Deme.mk "B" (Some "A") [2%nat; 1%nat]) 1 built_w_open_b).
  - vm_compute. by repeat constructor.
  - by repeat constructor.
Defined.

(** X14. For every deme of a graph reached by any sequence of calls,
    the properties [start_time] and [end_time] return without raising and
    leave the objects as they are: [start_time] is a number that has
    passed the tests of its validator ([value < 0] is false,
    [math.isinf(value)] returns [False]), and [end_time] is a number, not
    [None], for which [value < 0] is false. *)
Theorem deme_times_defined (w : World) (d : Deme.t) :
  built w -> d ∈ demes (graph w) ->
  exists s t,
    Deme.start_time d (heap w) = (Ok s, heap w) /\ accepted_time s
    /\ Deme.end_time d (heap w) = (Ok (Some t), heap w)
    /\ num_lt t (Fin 0) = false.
Proof.
  intros Hb Hd. destruct (built_filled w Hb) as [_ Hf].
  destruct (Hf d Hd) as [Hne Hall].
  destruct (Deme.epochs d) as [|l0 ls] eqn:Hep; [done |].
  destruct (Hall l0) as (e0 & He0 & (Hs & _) & _); [by left |].
  destruct (last (l0 :: ls)) as [ll|] eqn:Hlast.
  2:{ by apply last_None in Hlast. }
  destruct (Hall ll (last_Some_elem_of _ _ Hlast))
    as (el & Hel & (_ & Hneg & _) & [t Ht] & _).
  exists (Epoch.start_time e0), t. split_and!; [| done | | by apply Hneg].
  - rewrite start_time_eq, Hep. simpl. by rewrite He0.
  - rewrite end_time_eq, Hep, Hlast. by rewrite Hel, Ht.
Qed.

(** The times of deme [B] of [w_open_b]. *)
Lemma deme_times_defined_witness :
  built w_open_b
  /\ exists s t,
       Deme.start_time (Deme.mk "B" (Some "A") [2%nat; 1%nat]) (heap w_open_b)
         = (Ok s, heap w_open_b) /\ accepted_time s
       /\ Deme.end_time (Deme.mk "B" (Some "A") [2%nat; 1%nat]) (heap w_open_b)
          = (Ok (Some t), heap w_open_b)
       /\ num_lt t (Fin 0) = false.
Proof.
  split; [exact built_w_open_b |].
  apply (deme_times_defined w_open_b _ built_w_open_b).
  vm_compute. by repeat constructor.
Defined.

Lemma built_fresh_w_open_b : built_fresh w_open_b.
Proof.
  apply (built_fresh_call _
           (deme_ "B" (Some "A") (Fin 0) Inf None None (Some [1%nat]))).
  - apply (built_fresh_call _ (Epoch_ (Fin 10) None (Some (Fin 5)) None)).
    + apply (built_fresh_call _ (deme_ "A" None (Fin 100) Inf None None None)).
      * by apply (built_fresh_new "" "generations" (Fin 1) (Some (Fin 100)) None).
      * split; [constructor |]. intros l Hl. by inversion Hl.
    + split; [constructor |]. intros l Hl. by inversion Hl.
  - split; [by apply NoDup_singleton |].
    intros l Hl. apply list_elem_of_singleton in Hl. subst l.
    split; [vm_compute; lia |].
    assert (Hd : forall d, d ∈ demes (graph w_open) -> 1%nat ∉ Deme.epochs d).
    { intros d Hd. vm_compute in Hd. apply list_elem_of_singleton in Hd.
      subst d. simpl. intros Hin. apply list_elem_of_singleton in Hin. lia. }
    split; [done |]. intros i d Hi. apply Hd.
    apply (index_in_demes (graph w_open) i d); [| done].
    apply built_index_ok, built_w_open.
Qed.

(** X15. In a graph built by calls that hand every [Epoch] object
    to the graph at most once, two consecutive epochs of a deme are both
    there, the [end_time] of the first holds the value of the
    [start_time] of the second, and the test
    [second.start_time < first.start_time], on which [add_epoch] rejects
    an epoch, is false. *)
Theorem fresh_epochs_contiguous (w : World) (d : Deme.t) (i : nat)
    (l1 l2 : loc) :
  built_fresh w -> d ∈ demes (graph w) ->
  Deme.epochs d !! i = Some l1 -> Deme.epochs d !! S i = Some l2 ->
  exists e1 e2,
    heap w !! l1 = Some e1 /\ heap w !! l2 = Some e2
    /\ Epoch.end_time e1 = Some (Epoch.start_time e2)
    /\ num_lt (Epoch.start_time e2) (Epoch.start_time e1) = false.
Proof.
  intros Hb Hd H1 H2.
  destruct (built_filled w (built_fresh_built w Hb)) as [_ Hf].
  destruct (Hf d Hd) as [_ Hall].
  destruct (Hall l1) as (e1 & He1 & _); [by eapply list_elem_of_lookup_2 |].
  destruct (Hall l2) as (e2 & He2 & _); [by eapply list_elem_of_lookup_2 |].
  exists e1, e2. split; [done |]. split; [done |].
  destruct (built_fresh_contiguous w Hb d Hd i l1 l2 e1 e2) as [Hend Hle];
    try done.
  split; [done |]. apply num_le_iff in Hle.
  by rewrite num_lt_negb, Hle.
Qed.

(** The two epochs of deme [B] of [w_open_b]. *)
Lemma fresh_epochs_contiguous_witness :
  built_fresh w_open_b
  /\ exists e1 e2,
       heap w_open_b !! 2%nat = Some e1 /\ heap w_open_b !! 1%nat = Some e2
       /\ Epoch.end_time e1 = Some (Epoch.start_time e2)
       /\ num_lt (Epoch.start_time e2) (Epoch.start_time e1) = false.
Proof.
  split; [exact built_fresh_w_open_b |].
  apply (fresh_epochs_contiguous w_open_b
           (Deme.mk "B" (Some "A") [2%nat; 1%nat]) 0 2 1 built_fresh_w_open_b).
  - vm_compute. by repeat constructor.
  - reflexivity.
  - reflexivity.
Defined.

(** ** Ordered pairs *)

Lemma elem_of_enumerate {A} (l : list A) (i : nat) (x : A) :
  (i, x) ∈ enumerate l <-> l !! i = Some x.
Proof.
  unfold enumerate. rewrite list_elem_of_lookup. split.
  - intros [k Hk]. apply list_lookup_imap_Some in Hk as (y & Hy & [= -> ->]).
    done.
  - intros H. exists i. apply list_lookup_imap_Some. by exists x.
Qed.

(** [permutations2] yields the pairs of elements at two different
    positions. *)
Lemma elem_of_permutations2 {A} (l : list A) (a b : A) :
  (a, b) ∈ permutations2 l <->
  exists i j, i <> j /\ l !! i = Some a /\ l !! j = Some b.
Proof.
  unfold permutations2. rewrite list_elem_of_In, in_flat_map. split.
  - intros ([i x] & Hi & Hin). apply in_flat_map in Hin as ([j y] & Hj & Hin).
    apply list_elem_of_In, elem_of_enumerate in Hi, Hj. simpl in Hin.
    destruct (i =? j)%nat eqn:E; [done |]. apply Nat.eqb_neq in E.
    destruct Hin as [[= <- <-]|[]]. by exists i, j.
  - intros (i & j & Hne & Hi & Hj). exists (i, a). split.
    + by apply list_elem_of_In, elem_of_enumerate.
    + apply in_flat_map. exists (j, b). split.
      * by apply list_elem_of_In, elem_of_enumerate.
      * simpl. apply Nat.eqb_neq in Hne. rewrite Hne. by left.
Qed.

Lemma length_skip_index {A B} (g : nat * A -> B) (i : nat) (l : list A) :
  forall k,
    length (flat_map (fun jy => if (i =? fst jy)%nat then [] else [g jy])
                     (imap (fun j x => (k + j, x)%nat) l))
    = (length l - (if bool_decide (k <= i < k + length l)%nat then 1 else 0))%nat.
Proof.
  induction l as [|x l IH]; intros k; simpl.
  - by destruct (bool_decide _).
  - rewrite length_app.
    rewrite (imap_ext _ (fun j y => (S k + j, y)%nat) l).
    2:{ intros j y _. simpl. f_equal. lia. }
    rewrite IH. replace (k + 0)%nat with k by lia.
    destruct (i =? k)%nat eqn:E; simpl;
      [apply Nat.eqb_eq in E | apply Nat.eqb_neq in E];
      repeat case_bool_decide; lia.
Qed.

(** A list of [n] elements has [n * (n - 1)] ordered pairs. *)
Lemma length_permutations2 {A} (l : list A) :
  length (permutations2 l) = (length l * (length l - 1))%nat.
Proof.
  unfold permutations2.
  rewrite (flat_map_constant_length (c := (length l - 1)%nat)).
  - unfold enumerate. by rewrite length_imap.
  - intros [i x] Hin. apply list_elem_of_In, elem_of_enumerate in Hin.
    apply lookup_lt_Some in Hin. simpl.
    change (enumerate l) with (imap (fun j y => (0 + j, y)%nat) l).
    rewrite length_skip_index. rewrite bool_decide_eq_true_2; [done |]. lia.
Qed.

(** ** [symmetric_migration] *)

Lemma forM_ok_each {S A} (f : A -> M S unit) (l : list A) (s s' : S) (a : A) :
  forM_ f l s = (Ok tt, s') -> a ∈ l ->
  exists s1 s2, f a s1 = (Ok tt, s2).
Proof.
  revert s. induction l as [|x l IH]; intros s; simpl.
  - intros _ Hin. by apply elem_of_nil in Hin.
  - unfold bind at 1. destruct (f x s) as [[[]|e] s1] eqn:Hx; [| done].
    intros Hrest Hin. apply elem_of_cons in Hin as [->|Hin]; [by eauto |].
    by apply (IH s1).
Qed.

(** No migration goes from a deme to itself: the constructor of the
    record refuses it. *)
Lemma migration_self_fails (w w' : World) (id : ID) (rate : Number)
    (start_time end_time : option Number) :
  migration id id rate start_time end_time w <> (Ok tt, w').
Proof.
  unfold migration, bind.
  destruct (check_in_graph [id; id] w) as [[[]|e] w1]; [| done].
  destruct (check_time_intersection id id start_time false w1)
    as [[lo_hi|e] w2]; [| done].
  unfold pure.
  destruct (Migration.new id id _ rate) as [m|e] eqn:E; [| done].
  by apply Migration_new_checked in E as (_ & _ & Hne & _).
Qed.

(** X16. A [symmetric_migration] call that returns was given at
    least two ids, all different: with an id repeated the call raises,
    since the pair of the id with itself reaches the [Migration]
    constructor, which refuses [source == dest]. *)
Theorem symmetric_migration_distinct (w w' : World) (ids : list ID)
    (rate : Number) (start_time end_time : option Number) :
  symmetric_migration ids rate start_time end_time w = (Ok tt, w') ->
  NoDup ids /\ (2 <= length ids)%nat.
Proof.
  unfold symmetric_migration.
  destruct (length ids <? 2)%nat eqn:Hlen; [done |].
  apply Nat.ltb_ge in Hlen. intros Hloop. split; [| done].
  apply NoDup_alt. intros i j x Hi Hj.
  destruct (decide (i = j)) as [|Hne]; [done |]. exfalso.
  assert ((x, x) ∈ permutations2 ids) as Hin.
  { apply elem_of_permutations2. by exists i, j. }
  destruct (forM_ok_each _ _ _ _ _ Hloop Hin) as (w1 & w2 & Hm).
  by apply migration_self_fails in Hm.
Qed.

(** Symmetric migration between [A] and [B]. *)
Lemma symmetric_migration_distinct_witness :
  symmetric_migration ["A"; "B"] (Fin 1) None None w_ab
    = (Ok tt, after (symmetric_migration ["A"; "B"] (Fin 1) None None) w_ab)
  /\ NoDup ["A"; "B"] /\ (2 <= length ["A"; "B"])%nat.
Proof.
  assert (H : symmetric_migration ["A"; "B"] (Fin 1) None None w_ab
              = (Ok tt, after (symmetric_migration ["A"; "B"] (Fin 1) None None)
                          w_ab)) by (by vm_compute).
  split; [exact H |].
  exact (symmetric_migration_distinct _ _ _ _ _ _ H).
Defined.

Lemma symmetric_loop_coexist (pairs : list (ID * ID)) (w w' : World)
    (rate : Number) (start_time end_time : option Number) :
  forM_ (fun sd => migration sd.1 sd.2 rate start_time end_time) pairs w
    = (Ok tt, w') ->
  Forall (fun sd => is_Some (coexistence w sd.1 sd.2)) pairs.
Proof.
  revert w. induction pairs as [|[s d] pairs IH]; intros w; simpl.
  - by constructor.
  - unfold bind at 1.
    destruct (migration s d rate start_time end_time w) as [[[]|e] w1] eqn:Hm;
      [| done].
    intros Hrest. apply IH in Hrest.
    apply migration_ok_inv in Hm as (lo & hi & Hco & _ & _ & ->).
    constructor; [simpl; by rewrite Hco | exact Hrest].
Qed.

Lemma length_migration_records (w : World) (rate : Number)
    (start_time end_time : option Number) (pairs : list (ID * ID)) :
  Forall (fun sd => is_Some (coexistence w sd.1 sd.2)) pairs ->
  length (pairs ≫= migration_records w rate start_time end_time)
  = (length pairs * match end_time with Some _ => 2 | None => 1 end)%nat.
Proof.
  induction 1 as [|[s d] pairs [[lo hi] Hco] _ IH]; [done |].
  change (((s, d) :: pairs) ≫= migration_records w rate start_time end_time)
    with (migration_records w rate start_time end_time (s, d)
          ++ (pairs ≫= migration_records w rate start_time end_time)).
  rewrite length_app, IH. unfold migration_records. simpl in *. rewrite Hco.
  destruct end_time; simpl; lia.
Qed.

(** X17. A [symmetric_migration] call over [n] ids that returns has
    appended [n * (n - 1)] migration records (twice as many when
    [end_time] is given) and nothing else, and among them there is, for any
    two different ids [a] and [b] of the list, a record from [a] to [b]
    with the given rate. *)
Theorem symmetric_migration_count (w w' : World) (ids : list ID)
    (rate : Number) (start_time end_time : option Number) :
  symmetric_migration ids rate start_time end_time w = (Ok tt, w') ->
  exists ms,
    w' = add_migrations ms w
    /\ length ms = (length ids * (length ids - 1)
                    * match end_time with Some _ => 2 | None => 1 end)%nat
    /\ forall a b, a ∈ ids -> b ∈ ids -> a <> b ->
         exists m, m ∈ ms /\ Migration.source m = a /\ Migration.dest m = b
                   /\ Migration.rate m = rate.
Proof.
  unfold symmetric_migration.
  destruct (length ids <? 2)%nat; [done |]. intros Hloop.
  pose proof (symmetric_loop_coexist _ _ _ _ _ _ Hloop) as Hco.
  apply symmetric_loop_ok in Hloop.
  eexists. split; [exact Hloop |]. split.
  - by rewrite length_migration_records, length_permutations2.
  - intros a b Ha Hb Hne.
    apply list_elem_of_lookup in Ha as [i Hi], Hb as [j Hj].
    assert ((a, b) ∈ permutations2 ids) as Hin.
    { apply elem_of_permutations2. exists i, j. split; [congruence | done]. }
    destruct (proj1 (Forall_forall _ _) Hco _ Hin) as [[lo hi] Hlh].
    simpl in Hlh.
    exists (Migration.mk a b (default lo start_time) rate).
    split; [| done]. apply list_elem_of_bind. exists (a, b). split; [| done].
    unfold migration_records. simpl. rewrite Hlh. by left.
Qed.

(** Two ids give two records. *)
Lemma symmetric_migration_count_witness :
  symmetric_migration ["A"; "B"] (Fin 1) None None w_ab
    = (Ok tt, after (symmetric_migration ["A"; "B"] (Fin 1) None None) w_ab)
  /\ exists ms,
       after (symmetric_migration ["A"; "B"] (Fin 1) None None) w_ab
         = add_migrations ms w_ab
       /\ length ms = 2%nat.
Proof.
  assert (H : symmetric_migration ["A"; "B"] (Fin 1) None None w_ab
              = (Ok tt, after (symmetric_migration ["A"; "B"] (Fin 1) None None)
                          w_ab)) by (by vm_compute).
  split; [exact H |].
  destruct (symmetric_migration_count _ _ _ _ _ _ H) as (ms & Hw & Hlen & _).
  exists ms. split; [exact Hw | exact Hlen].
Defined.

(** ** Unknown ids, and times that are always there *)

(** X18. When one of two ids is not in the id index,
    [check_time_intersection] on them raises [KeyError] and [migration]
    raises [ValueError], whatever the other arguments are, and both leave
    the state as it was. *)
Theorem unknown_deme_errors (w : World) (id1 id2 : ID) :
  ~ registered (graph w) id1 \/ ~ registered (graph w) id2 ->
  (forall time closed,
     check_time_intersection id1 id2 time closed w = (Raise KeyError, w))
  /\ (forall rate start_time end_time,
        migration id1 id2 rate start_time end_time w = (Raise ValueError, w)).
Proof.
  unfold registered. intros H. split.
  - intros time closed. unfold check_time_intersection, bind.
    rewrite !getitem_eq.
    destruct (_deme_map (graph w) !! id1) as [d1|] eqn:E1; [| done].
    destruct (_deme_map (graph w) !! id2) as [d2|] eqn:E2; [| done].
    destruct H as [H|H]; exfalso; apply H; by eexists.
  - intros rate start_time end_time. unfold migration, bind.
    rewrite check_in_graph_eq.
    destruct (bool_decide (is_Some (_deme_map (graph w) !! id1))) eqn:E1;
      [| done].
    destruct (bool_decide (is_Some (_deme_map (graph w) !! id2))) eqn:E2;
      [| done].
    apply bool_decide_eq_true in E1, E2. by destruct H.
Qed.

(** The graph [w_ab] has no deme [C]. *)
Lemma unknown_deme_errors_witness :
  (~ registered (graph w_ab) "C" \/ ~ registered (graph w_ab) "A")
  /\ check_time_intersection "C" "A" None false w_ab = (Raise KeyError, w_ab)
  /\ migration "C" "A" (Fin 1) None None w_ab = (Raise ValueError, w_ab).
Proof.
  assert (H : ~ registered (graph w_ab) "C" \/ ~ registered (graph w_ab) "A").
  { left. intros [d Hd]. by vm_compute in Hd. }
  split; [exact H |].
  destruct (unknown_deme_errors w_ab "C" "A" H) as [Hc Hm].
  split; [apply Hc | apply Hm].
Defined.

Lemma built_registered_demes (w : World) (i : ID) :
  built w -> registered (graph w) i ->
  exists d, _deme_map (graph w) !! i = Some d /\ d ∈ demes (graph w).
Proof.
  intros Hb [d Hd]. exists d. split; [done |].
  by destruct (index_in_demes _ _ _ (built_index_ok w Hb) Hd).
Qed.

(** The coexistence interval of two registered demes is always there. *)
Lemma built_coexistence (w : World) (id1 id2 : ID) :
  built w -> registered (graph w) id1 -> registered (graph w) id2 ->
  exists s1 s2 e1 e2,
    start_of w id1 = Some s1 /\ start_of w id2 = Some s2
    /\ end_of w id1 = Some e1 /\ end_of w id2 = Some e2
    /\ accepted_time s1 /\ accepted_time s2
    /\ num_lt e1 (Fin 0) = false /\ num_lt e2 (Fin 0) = false.
Proof.
  intros Hb H1 H2.
  assert (Hone : forall i, registered (graph w) i ->
            exists s e, start_of w i = Some s /\ end_of w i = Some e
                        /\ accepted_time s /\ num_lt e (Fin 0) = false).
  { intros i Hi. destruct (built_registered_demes w i Hb Hi) as (d & Hd & Hin).
    destruct (built_filled w Hb) as [_ Hf]. destruct (Hf d Hin) as [Hne Hall].
    unfold start_of, end_of. rewrite Hd. simpl.
    destruct (Deme.epochs d) as [|l0 ls] eqn:Hep; [done |].
    destruct (Hall l0) as (e0 & He0 & (Hs & _) & _); [by left |].
    destruct (last (l0 :: ls)) as [ll|] eqn:Hlast.
    2:{ by apply last_None in Hlast. }
    destruct (Hall ll (last_Some_elem_of _ _ Hlast))
      as (el & Hel & (_ & Hnn & _) & [t Ht] & _).
    exists (Epoch.start_time e0), t. simpl. rewrite He0, Hel. simpl.
    rewrite Ht. split; [done |]. split; [done |]. split; [done | by apply Hnn]. }
  destruct (Hone id1 H1) as (s1 & e1 & ? & ? & ? & ?).
  destruct (Hone id2 H2) as (s2 & e2 & ? & ? & ? & ?).
  by exists s1, s2, e1, e2.
Qed.

Lemma num_max_cases (P : Number -> Prop) (a b : Number) :
  P a -> P b -> P (num_max a b).
Proof. unfold num_max. by destruct (num_lt a b). Qed.

Lemma num_min_cases (P : Number -> Prop) (a b : Number) :
  P a -> P b -> P (num_min a b).
Proof. unfold num_min. by destruct (num_lt b a). Qed.

(** X19. In a graph reached by any sequence of calls,
    [check_time_intersection] with no time, on two ids of the id index,
    returns the coexistence interval without raising and without changing
    the state.  The lower bound is the start time of one of the two demes
    and has passed the tests [value < 0] (false) and [math.isinf(value)]
    ([False]); the upper bound is the end time of one of the two demes,
    and [value < 0] is false for it. *)
Theorem check_time_intersection_defined (w : World) (id1 id2 : ID)
    (closed : bool) :
  built w -> registered (graph w) id1 -> registered (graph w) id2 ->
  exists time_lo time_hi,
    check_time_intersection id1 id2 None closed w = (Ok (time_lo, time_hi), w)
    /\ coexistence w id1 id2 = Some (time_lo, time_hi)
    /\ (start_of w id1 = Some time_lo \/ start_of w id2 = Some time_lo)
    /\ (end_of w id1 = Some time_hi \/ end_of w id2 = Some time_hi)
    /\ accepted_time time_lo /\ num_lt time_hi (Fin 0) = false.
Proof.
  intros Hb H1 H2.
  destruct (built_coexistence w id1 id2 Hb H1 H2)
    as (s1 & s2 & e1 & e2 & Hs1 & Hs2 & He1 & He2 & ? & ? & ? & ?).
  exists (num_max s1 s2), (num_min e1 e2).
  rewrite (check_time_intersection_eq _ _ _ _ _ _ _ _ _ Hs1 Hs2 He1 He2).
  split; [done |]. split; [| split; [| split; [| split]]].
  - apply coexistence_Some. by exists s1, s2, e1, e2.
  - rewrite Hs1, Hs2. unfold num_max. destruct (num_lt s1 s2); auto.
  - rewrite He1, He2. unfold num_min. destruct (num_lt e2 e1); auto.
  - by apply num_max_cases.
  - by apply (num_min_cases (fun t => num_lt t (Fin 0) = false)).
Qed.

(** The demes [A] and [B] of [w_ab]. *)
Lemma check_time_intersection_defined_witness :
  built w_ab /\ registered (graph w_ab) "A" /\ registered (graph w_ab) "B"
  /\ exists time_lo time_hi,
       check_time_intersection "A" "B" None false w_ab
         = (Ok (time_lo, time_hi), w_ab)
       /\ coexistence w_ab "A" "B" = Some (time_lo, time_hi)
       /\ (start_of w_ab "A" = Some time_lo \/ start_of w_ab "B" = Some time_lo)
       /\ (end_of w_ab "A" = Some time_hi \/ end_of w_ab "B" = Some time_hi)
       /\ accepted_time time_lo /\ num_lt time_hi (Fin 0) = false.
Proof.
  assert (Ha : registered (graph w_ab) "A") by (by eexists).
  assert (Hb : registered (graph w_ab) "B") by (by eexists).
  split; [exact built_w_ab |]. split; [exact Ha |]. split; [exact Hb |].
  exact (check_time_intersection_defined w_ab "A" "B" false built_w_ab Ha Hb).
Defined.

(** ** The time [subgraph] picks *)

(** X20. [subgraph] with an empty list of ancestors raises
    [ValueError] and leaves the state as it was, whatever the other
    arguments are: either the lengths differ or the proportions sum to [0],
    so [max] is never taken over an empty sequence. *)
Theorem subgraph_no_ancestors (w : World) (deme_id : ID) (proportions : list Q)
    (start_time : Number) (end_time : option Number)
    (initial_size final_size : option Number) (epochs : option (list loc)) :
  subgraph deme_id [] proportions start_time end_time initial_size final_size
    epochs w = (Raise ValueError, w).
Proof. unfold subgraph. by destruct proportions. Qed.

Lemma Nle_refl (a : Number) : Nle a a.
Proof. destruct a; simpl; [apply Qle_refl | done]. Qed.

Lemma Nle_trans (a b c : Number) : Nle a b -> Nle b c -> Nle a c.
Proof.
  destruct a, b, c; simpl; try done. apply Qle_trans.
Qed.

Lemma deme_start_eq (w : World) (anc : ID) :
  (d <- __getitem__ anc ;; on_heap (Deme.start_time d)) w =
    (match _deme_map (graph w) !! anc with
     | None => Raise KeyError
     | Some d =>
         match head (Deme.epochs d) with
         | None => Raise IndexError
         | Some l =>
             match heap w !! l with
             | Some e => Ok (Epoch.start_time e)
             | None => Raise InvalidRef
             end
         end
     end, w).
Proof.
  unfold bind. rewrite getitem_eq.
  destruct (_deme_map (graph w) !! anc) as [d|]; [| done].
  by rewrite (on_heap_pure _ _ w (start_time_eq (heap w) d)).
Qed.

Lemma deme_start_ok (w w1 : World) (anc : ID) (s : Number) :
  (d <- __getitem__ anc ;; on_heap (Deme.start_time d)) w = (Ok s, w1) ->
  w1 = w /\ start_of w anc = Some s.
Proof.
  rewrite deme_start_eq. unfold start_of.
  destruct (_deme_map (graph w) !! anc) as [d|]; [| done]. simpl.
  destruct (head (Deme.epochs d)) as [l|]; [| done]. simpl.
  destruct (heap w !! l) as [e|]; [| done]. simpl.
  by intros [= <- <-].
Qed.

(** [max_start_time] returns the start time of one of the ancestors, and
    no ancestor starts later. *)
Lemma max_start_time_ok (w w1 : World) (ancestors : list ID) (t : Number) :
  max_start_time ancestors w = (Ok t, w1) ->
  w1 = w
  /\ (forall a, a ∈ ancestors -> exists s, start_of w a = Some s /\ Nle s t)
  /\ (exists a, a ∈ ancestors /\ start_of w a = Some t).
Proof.
  unfold max_start_time. destruct ancestors as [|anc rest]; [done |].
  unfold bind at 1.
  destruct ((d <- __getitem__ anc ;; on_heap (Deme.start_time d)) w)
    as [[first|x] w0] eqn:H0; [| done].
  apply deme_start_ok in H0 as [-> H0].
  assert (Hgen : forall (rest : list ID) (m : Number) (seen : list ID),
    (forall a, a ∈ seen -> exists s, start_of w a = Some s /\ Nle s m) ->
    (exists a, a ∈ seen /\ start_of w a = Some m) ->
    foldM (fun m anc =>
             s <- (d <- __getitem__ anc ;; on_heap (Deme.start_time d)) ;;
             ret (num_max m s)) m rest w = (Ok t, w1) ->
    w1 = w
    /\ (forall a, a ∈ seen ++ rest -> exists s, start_of w a = Some s /\ Nle s t)
    /\ (exists a, a ∈ seen ++ rest /\ start_of w a = Some t)).
  { clear. induction rest as [|a rest IH]; intros m seen Hall Hex; simpl.
    - intros [= <- <-]. rewrite app_nil_r. by split.
    - unfold bind at 1. unfold bind at 1.
      destruct ((d <- __getitem__ a ;; on_heap (Deme.start_time d)) w)
        as [[s|x] w0] eqn:Ha; [| done].
      apply deme_start_ok in Ha as [-> Ha]. unfold ret at 1.
      intros Hrest.
      destruct (num_max_ub m s) as (Hm & Hs & Hcase).
      apply num_le_iff in Hm, Hs.
      apply (IH (num_max m s) (seen ++ [a])) in Hrest.
      + by rewrite <- app_assoc in Hrest.
      + intros a0 Ha0. apply elem_of_app in Ha0 as [Ha0|Ha0].
        * destruct (Hall a0 Ha0) as (s0 & Hs0 & Hle). exists s0.
          split; [done |]. by eapply Nle_trans.
        * apply list_elem_of_singleton in Ha0. subst a0. by exists s.
      + destruct Hcase as [->| ->].
        * destruct Hex as (a0 & Ha0 & Hs0). exists a0. split; [| done].
          apply elem_of_app. by left.
        * exists a. split; [| done]. apply elem_of_app. right. by left. }
  apply (Hgen rest first [anc]).
  - intros a Ha. apply list_elem_of_singleton in Ha. subst a.
    exists first. split; [done | apply Nle_refl].
  - exists anc. split; [by left | done].
Qed.

Lemma renormalised_pulses (deme_id : ID) (proportions : list Q) (t : Number)
    (ancestors : list ID) (ps : list Pulse.t) :
  Forall2 (renormalised deme_id proportions t) (enumerate ancestors) ps ->
  Pulse.dest <$> ps = ancestors
  /\ Forall (fun p => Pulse.source p = deme_id /\ Pulse.time p = t) ps.
Proof.
  unfold enumerate.
  assert (Hgen : forall (g : nat -> ID -> nat * ID),
            (forall j a, (g j a).2 = a) ->
            forall ancestors ps,
              Forall2 (renormalised deme_id proportions t) (imap g ancestors) ps ->
              Pulse.dest <$> ps = ancestors
              /\ Forall (fun p => Pulse.source p = deme_id /\ Pulse.time p = t) ps).
  { clear. intros g Hg ancestors. revert g Hg.
    induction ancestors as [|a ancestors IH]; intros g Hg ps Hfa; simpl in *.
    - apply Forall2_nil_inv_l in Hfa. by subst ps.
    - apply Forall2_cons_inv_l in Hfa as (p & ps' & Hp & Hfa & ->).
      apply IH in Hfa as [Hd Hall]; [| intros j a0; apply Hg].
      destruct Hp as (pj & _ & _ & ->). rewrite fmap_cons, Hd. simpl.
      rewrite Hg. split; [done |]. by constructor. }
  intros H. apply (Hgen pair); [done | exact H].
Qed.

(** X21. A [subgraph] call that returns has registered the deme
    through [deme] with no ancestor and [end_time = t], and has then
    appended one pulse per ancestor, in order, each from the new deme to
    that ancestor at time [t]; [t] is the [end_time] passed or, when it is
    omitted, the start time of one of the ancestors, and no ancestor
    starts later. *)
Theorem subgraph_time_and_pulses (w w' : World) (deme_id : ID)
    (ancestors : list ID) (proportions : list Q) (start_time : Number)
    (end_time : option Number) (initial_size final_size : option Number)
    (epochs : option (list loc)) :
  subgraph deme_id ancestors proportions start_time end_time
    initial_size final_size epochs w = (Ok tt, w') ->
  exists t wd ps,
    match end_time with
    | Some t0 => t = t0
    | None =>
        (forall a, a ∈ ancestors -> exists s, start_of w a = Some s /\ Nle s t)
        /\ (exists a, a ∈ ancestors /\ start_of w a = Some t)
    end
    /\ deme deme_id None start_time t initial_size final_size epochs w
       = (Ok tt, wd)
    /\ w' = add_pulses ps wd
    /\ Pulse.dest <$> ps = ancestors
    /\ Forall (fun p => Pulse.source p = deme_id /\ Pulse.time p = t) ps.
Proof.
  unfold subgraph.
  destruct (negb (length ancestors =? length proportions)%nat); [done |].
  destruct (negb (isclose (sum proportions) 1)); [done |].
  unfold bind at 1.
  destruct ((match end_time with
             | Some t => ret t
             | None => max_start_time ancestors
             end) w) as [[t|x] w1] eqn:Ht; [| done].
  assert (w1 = w
          /\ match end_time with
             | Some t0 => t = t0
             | None =>
                 (forall a, a ∈ ancestors ->
                    exists s, start_of w a = Some s /\ Nle s t)
                 /\ (exists a, a ∈ ancestors /\ start_of w a = Some t)
             end) as [-> Htime].
  { destruct end_time as [t0|].
    - by injection Ht as <- <-.
    - by apply max_start_time_ok in Ht as (-> & ? & ?). }
  unfold bind at 1.
  destruct (deme deme_id None start_time t initial_size final_size epochs w)
    as [[[]|e] wd] eqn:Hd; [| done].
  unfold bind at 1.
  destruct (foldM _ None (enumerate ancestors) wd) as [[p|e] w2] eqn:Hloop;
    [| done].
  apply subgraph_loop_ok in Hloop as (ps & -> & Hfa & _).
  intros H. exists t, wd, ps. split; [exact Htime |]. split; [done |].
  assert (w' = add_pulses ps wd) as ->.
  { destruct p as [q|]; [| done]. destruct (Qeq_bool q 1); [| done].
    by injection H as <-. }
  split; [done |]. by apply (renormalised_pulses deme_id proportions).
Qed.

(** Deme [C] with ancestors [A] and [B], both starting at time [10]. *)
Lemma subgraph_time_and_pulses_witness :
  subgraph "C" ["A"; "B"] [0; 1] (Fin 0) None None None None w_late
    = (Ok tt, after (subgraph "C" ["A"; "B"] [0; 1] (Fin 0) None None None None)
                w_late)
  /\ exists t wd ps,
       ((forall a, a ∈ ["A"; "B"] ->
           exists s, start_of w_late a = Some s /\ Nle s t)
        /\ (exists a, a ∈ ["A"; "B"] /\ start_of w_late a = Some t))
       /\ deme "C" None (Fin 0) t None None None w_late = (Ok tt, wd)
       /\ after (subgraph "C" ["A"; "B"] [0; 1] (Fin 0) None None None None)
            w_late = add_pulses ps wd
       /\ Pulse.dest <$> ps = ["A"; "B"]
       /\ Forall (fun p => Pulse.source p = "C" /\ Pulse.time p = t) ps.
Proof.
  assert (H : subgraph "C" ["A"; "B"] [0; 1] (Fin 0) None None None None w_late
              = (Ok tt, after (subgraph "C" ["A"; "B"] [0; 1] (Fin 0) None None
                                 None None) w_late)) by (by vm_compute).
  split; [exact H |].
  exact (subgraph_time_and_pulses _ _ _ _ _ _ _ _ _ _ H).
Defined.

(** ** The whole compact form *)

Lemma load_all_ok (ls : list loc) (h : Heap) :
  (forall l, l ∈ ls -> is_Some (h !! l)) ->
  exists es, load_all ls h = (Ok es, h) /\ length es = length ls.
Proof.
  induction ls as [|l ls IH]; intros Hall; simpl.
  - by exists [].
  - destruct (Hall l) as [e He]; [by left |].
    destruct IH as (es & Hes & Hlen); [intros l' Hl'; apply Hall; by right |].
    exists (e :: es). unfold bind, load. rewrite He, Hes. simpl.
    by rewrite Hlen.
Qed.

Lemma epoch_dict_ok (epochs : list Epoch.t) (j : nat) (epoch : Epoch.t) :
  (j < length epochs)%nat ->
  exists e, epoch_dict epochs j epoch = Ok e.
Proof.
  intros Hj. unfold epoch_dict.
  destruct (opt_num_eq _ _); [by eexists |].
  destruct (_ || _); [by eexists |].
  destruct (epochs !! (j - 1)%nat) as [prev|] eqn:Hprev.
  - destruct (negb _); by eexists.
  - apply lookup_ge_None in Hprev. lia.
Qed.

Lemma collect_ok {A B} (f : A -> result B) (l : list A) :
  (forall a, a ∈ l -> exists b, f a = Ok b) ->
  exists bs, collect f l = Ok bs.
Proof.
  induction l as [|a l IH]; intros Hall; simpl.
  - by eexists.
  - destruct (Hall a) as [b ->]; [by left |].
    destruct IH as [bs ->]; [intros a' Ha'; apply Hall; by right |].
    by eexists.
Qed.

Lemma deme_dict_ok (h : Heap) (deme : Deme.t) :
  filled h deme -> exists dd, deme_dict deme h = (Ok dd, h).
Proof.
  intros [Hne Hall]. unfold deme_dict, bind.
  destruct (load_all_ok (Deme.epochs deme) h) as (es & -> & Hlen).
  { intros l Hl. destruct (Hall l Hl) as (e & -> & _). by eexists. }
  destruct es as [|first es].
  { destruct (Deme.epochs deme); done. }
  destruct (collect_ok (fun je => epoch_dict (first :: es) je.1 je.2)
              (enumerate (first :: es))) as [e_list He].
  { intros [j x] Hin. apply elem_of_enumerate in Hin.
    apply epoch_dict_ok. by eapply lookup_lt_Some. }
  unfold pure. rewrite He. by eexists.
Qed.

Lemma compact_demes_loop_ok (ds : list Deme.t) (w : World)
    (D0 : gmap ID (gmap string dval)) :
  (forall d, d ∈ ds -> filled (heap w) d) ->
  exists D,
    foldM (fun (d : gmap ID (gmap string dval)) deme =>
             deme_dict <- on_heap (deme_dict deme) ;;
             ret (<[Deme.id deme := deme_dict]> d))
          D0 ds w = (Ok D, w).
Proof.
  revert D0. induction ds as [|d ds IH]; intros D0 Hall; simpl.
  - by eexists.
  - destruct (deme_dict_ok (heap w) d) as [dd Hdd]; [apply Hall; by left |].
    unfold bind at 1. unfold bind at 1.
    rewrite (on_heap_pure _ _ w Hdd). unfold ret at 1.
    apply IH. intros d' Hd'. apply Hall. by right.
Qed.

Lemma asdict_compact_demes_ok (w : World) :
  built w -> demes (graph w) <> [] ->
  exists D, asdict_compact_demes w = (Ok D, w).
Proof.
  intros Hb Hne. unfold asdict_compact_demes. unfold bind at 1, self at 1.
  assert (negb (0 <? length (demes (graph w)))%nat = false) as ->.
  { by destruct (demes (graph w)). }
  apply compact_demes_loop_ok. by destruct (built_filled w Hb).
Qed.

Lemma m_dict_append_ok (ms : list Migration.t) (m : Migration.t)
    (m_dict : list ((ID * ID) * list Migration.t)) :
  m ∈ ms -> Forall (m_dict_item_ok ms) m_dict ->
  Forall (m_dict_item_ok ms)
         (m_dict_append (Migration.source m, Migration.dest m) m m_dict).
Proof.
  intros Hm. induction 1 as [|[k l] rest [Hne Hall] Hrest IH]; simpl.
  - constructor; [| done]. split; simpl; [done |]. intros m' Hin.
    apply list_elem_of_singleton in Hin. by subst m'.
  - case_bool_decide as Hk.
    + constructor; [| done]. split; simpl.
      * by destruct l.
      * intros m' Hin. apply elem_of_app in Hin as [Hin|Hin]; [by apply Hall |].
        apply list_elem_of_singleton in Hin. by subst m'.
    + constructor; [by split | done].
Qed.

Lemma m_dict_of_ok (ms : list Migration.t) :
  Forall (m_dict_item_ok ms) (m_dict_of ms).
Proof.
  unfold m_dict_of.
  assert (Hgen : forall (l : list Migration.t) m_dict,
            (forall m, m ∈ l -> m ∈ ms) ->
            Forall (m_dict_item_ok ms) m_dict ->
            Forall (m_dict_item_ok ms)
              (fold_left
                 (fun m_dict migration =>
                    m_dict_append
                      (Migration.source migration, Migration.dest migration)
                      migration m_dict) l m_dict)).
  { induction l as [|m l IH]; intros m_dict Hsub Hok; simpl; [done |].
    apply IH; [intros m' Hm'; apply Hsub; by right |].
    apply m_dict_append_ok; [apply Hsub; by left | done]. }
  by apply Hgen.
Qed.

Lemma compact_sublist_step (source dest : ID) (time_lo time_hi : Number)
    (migration next : Migration.t) (rest : list Migration.t) :
  compact_sublist source dest time_lo time_hi (migration :: next :: rest) =
    let e := migration_entry source dest time_lo migration in
    if negb (num_eq (Migration.rate migration) (Fin 0))
       && num_eq (Migration.rate next) (Fin 0)
    then
      match rest with
      | [] => Ok [with_end_time time_hi next e]
      | _ :: _ =>
          and_then (compact_sublist source dest time_lo time_hi rest)
                   (fun l => Ok (with_end_time time_hi next e :: l))
      end
    else
      and_then (compact_sublist source dest time_lo time_hi (next :: rest))
               (fun l => Ok (e :: l)).
Proof. reflexivity. Qed.

Lemma compact_sublist_ok (source dest : ID) (time_lo time_hi : Number)
    (m_sublist : list Migration.t) :
  m_sublist <> [] ->
  exists entries,
    compact_sublist source dest time_lo time_hi m_sublist = Ok entries.
Proof.
  assert (Hgen : forall n (l : list Migration.t),
            (length l <= n)%nat -> l <> [] ->
            exists entries,
              compact_sublist source dest time_lo time_hi l = Ok entries).
  { induction n as [|n IH]; intros l Hlen Hne.
    { destruct l; [done | simpl in Hlen; lia]. }
    destruct l as [|m [|next rest]]; [done | by eexists |].
    simpl in Hlen. rewrite compact_sublist_step. cbv zeta.
    destruct (_ && _).
    - destruct rest as [|m3 rest]; [by eexists |].
      destruct (IH (m3 :: rest)) as [r Hr]; [simpl in *; lia | done |].
      rewrite Hr. by eexists.
    - destruct (IH (next :: rest)) as [r Hr]; [simpl in *; lia | done |].
      rewrite Hr. by eexists. }
  by apply (Hgen (length m_sublist)).
Qed.

Lemma compact_migrations_loop_ok (w : World)
    (items : list ((ID * ID) * list Migration.t))
    (m_list0 : list (gmap string scalar)) :
  built w ->
  Forall (fun item : (ID * ID) * list Migration.t =>
            item.2 <> [] /\ registered (graph w) item.1.1
            /\ registered (graph w) item.1.2) items ->
  exists m_list,
    foldM (fun m_list (item : (ID * ID) * list Migration.t) =>
             let source := fst (fst item) in
             let dest := snd (fst item) in
             lo_hi <- check_time_intersection source dest None false ;;
             entries <- pure (compact_sublist source dest (fst lo_hi)
                                (snd lo_hi) (snd item)) ;;
             ret (m_list ++ entries))
          m_list0 items w = (Ok m_list, w).
Proof.
  intros Hb Hall. revert m_list0.
  induction Hall as [|[[s d] l] items (Hne & Hs & Hd) _ IH]; intros m_list0;
    simpl.
  - by eexists.
  - simpl in *. unfold bind at 1. unfold bind at 1.
    destruct (built_coexistence w s d Hb Hs Hd)
      as (s1 & s2 & e1 & e2 & Hs1 & Hs2 & He1 & He2 & _).
    rewrite (check_time_intersection_eq _ _ _ _ _ _ _ _ _ Hs1 Hs2 He1 He2).
    simpl. unfold bind at 1. unfold pure at 1.
    destruct (compact_sublist_ok s d (num_max s1 s2) (num_min e1 e2) l Hne)
      as [entries ->].
    unfold ret at 1. apply IH.
Qed.

Lemma asdict_compact_migrations_ok (w : World) :
  built w -> exists m_list, asdict_compact_migrations w = (Ok m_list, w).
Proof.
  intros Hb. unfold asdict_compact_migrations. unfold bind at 1, self at 1.
  apply compact_migrations_loop_ok; [done |].
  destruct (built_sound w Hb) as [Hm _].
  eapply Forall_impl; [apply m_dict_of_ok |].
  intros [[s d] l] [Hne Hall]. simpl in *. split; [done |].
  destruct l as [|m l]; [done |].
  destruct (Hall m) as [Hin [= <- <-]]; [by left |].
  by destruct (proj1 (Forall_forall _ _) Hm m Hin) as (_ & ? & ? & _).
Qed.

Lemma asdict_compact_ok (w : World) :
  built w -> demes (graph w) <> [] ->
  exists d, asdict_compact w = (Ok d, w).
Proof.
  intros Hb Hne. unfold asdict_compact. unfold bind at 1, self at 1.
  destruct (asdict_compact_demes_ok w Hb Hne) as [D HD].
  unfold bind at 1. rewrite HD.
  destruct (0 <? length (migrations (graph w)))%nat.
  - destruct (asdict_compact_migrations_ok w Hb) as [m_list Hm].
    unfold bind at 1. unfold bind at 1. rewrite Hm. by eexists.
  - unfold bind. by eexists.
Qed.

(** X22. On a graph reached by any sequence of calls,
    [asdict_compact] raises [AssertionError] when the graph has no deme;
    otherwise it returns a dict without raising, and leaves the state as
    it was. *)
Theorem asdict_compact_total (w : World) :
  built w ->
  (demes (graph w) = [] -> asdict_compact w = (Raise AssertionError, w))
  /\ (demes (graph w) <> [] -> exists d, asdict_compact w = (Ok d, w)).
Proof.
  intros Hb. split.
  - intros Hd. unfold asdict_compact.
    unfold bind at 1. unfold self at 1.
    unfold bind at 1. unfold asdict_compact_demes.
    unfold bind at 1. unfold self at 1. by rewrite Hd.
  - by apply asdict_compact_ok.
Qed.

(** The compact form of [w_ab_mp]. *)
Lemma asdict_compact_total_witness :
  built w_ab_mp /\ demes (graph w_ab_mp) <> []
  /\ exists d, asdict_compact w_ab_mp = (Ok d, w_ab_mp).
Proof.
  assert (Hne : demes (graph w_ab_mp) <> []) by (by vm_compute).
  split; [exact built_w_ab_mp |]. split; [exact Hne |].
  destruct (asdict_compact_total w_ab_mp built_w_ab_mp) as [_ H].
  exact (H Hne).
Defined.

Lemma asdict_compact_migrations_pure (w : World) :
  snd (asdict_compact_migrations w) = w.
Proof.
  unfold asdict_compact_migrations. unfold bind at 1, self at 1.
  generalize (m_dict_of (migrations (graph w))) as items.
  generalize ([] : list (gmap string scalar)) as m_list0.
  intros m_list0 items. revert m_list0.
  induction items as [|[[s d] l] items IH]; intros m_list0; simpl; [done |].
  unfold bind at 1. unfold bind at 1.
  pose proof (check_time_intersection_pure w s d None false) as Hp.
  destruct (check_time_intersection s d None false w) as [[lo_hi|x] w1];
    simpl in Hp; subst w1; [| done].
  unfold bind at 1. unfold pure at 1.
  destruct (compact_sublist _ _ _ _ _); [| done].
  unfold ret at 1. apply IH.
Qed.

Lemma asdict_compact_demes_pure (w : World) :
  snd (asdict_compact_demes w) = w.
Proof.
  destruct (asdict_compact_demes w) as [[D|x] w'] eqn:E; simpl.
  - revert E. unfold asdict_compact_demes. unfold bind at 1, self at 1.
    destruct (negb _); [by intros [= _ <-] |]. intros E.
    by apply compact_loop in E as (-> & _).
  - revert E. unfold asdict_compact_demes. unfold bind at 1, self at 1.
    destruct (negb _); [by intros [= _ <-] |].
    generalize (demes (graph w)) as ds.
    generalize (∅ : gmap ID (gmap string dval)) as D0.
    intros D0 ds. revert D0.
    induction ds as [|d ds IH]; intros D0; simpl; [done |].
    unfold bind at 1. unfold bind at 1. unfold on_heap at 1.
    pose proof (deme_dict_pure d (heap w)) as Hp.
    destruct (deme_dict d (heap w)) as [[dd|x'] h1]; simpl in Hp; subst h1.
    + unfold ret at 1.
      replace (mkWorld (heap w) (graph w)) with w by by destruct w.
      apply IH.
    + intros [= _ <-]. by destruct w.
Qed.

(** X23. When [asdict_compact] returns, the state is unchanged and
    the dict returned holds [description], [time_units] and
    [generation_time]; [doi] and [default_Ne] exactly when they are not
    [None]; under [demes] the dict of the demes; the key [migrations]
    exactly when the graph has migrations, with the list built from them;
    and the key [pulses] exactly when the graph has pulses, with one dict
    per pulse, in order. *)
Theorem asdict_compact_keys (w w' : World) (d : gmap string cval) :
  asdict_compact w = (Ok d, w') ->
  let g := graph w in
  w' = w
  /\ d !! "description" = Some (CScalar (SStr (description g)))
  /\ d !! "time_units" = Some (CScalar (SStr (time_units g)))
  /\ d !! "generation_time" = Some (CScalar (SNum (generation_time g)))
  /\ d !! "doi" = (fun s => CScalar (SStr s)) <$> doi g
  /\ d !! "default_Ne" = (fun n => CScalar (SNum n)) <$> default_Ne g
  /\ (exists D, asdict_compact_demes w = (Ok D, w)
                /\ d !! "demes" = Some (CDemes D))
  /\ match migrations g with
     | [] => d !! "migrations" = None
     | _ :: _ =>
         exists m_list, asdict_compact_migrations w = (Ok m_list, w)
                        /\ d !! "migrations" = Some (CRecords m_list)
     end
  /\ d !! "pulses" = match pulses g with
                     | [] => None
                     | _ :: _ => Some (CRecords (pulse_asdict <$> pulses g))
                     end.
Proof.
  unfold asdict_compact. unfold bind at 1, self at 1.
  unfold bind at 1.
  pose proof (asdict_compact_demes_pure w) as HpD.
  destruct (asdict_compact_demes w) as [[D|x] w1]; simpl in HpD; subst w1;
    [| done].
  unfold bind at 1.
  pose proof (asdict_compact_migrations_pure w) as HpM.
  destruct (migrations (graph w)) as [|m ms] eqn:Hm; simpl.
  - unfold ret. intros [= <- <-].
    destruct (doi (graph w)), (default_Ne (graph w)), (pulses (graph w));
      simpl; repeat split; try (by eexists); by simplify_map_eq.
  - unfold bind at 1.
    destruct (asdict_compact_migrations w) as [[m_list|x] w1]; simpl in HpM;
      subst w1; [| done].
    unfold ret. intros [= <- <-].
    destruct (doi (graph w)), (default_Ne (graph w)), (pulses (graph w));
      simpl; repeat split; try (by eexists); try (by simplify_map_eq).
    all: eexists; split; [done |]; by simplify_map_eq.
Qed.

(** Some keys of the compact form of [w_ab_mp]. *)
Lemma asdict_compact_keys_witness :
  exists d,
    asdict_compact w_ab_mp = (Ok d, w_ab_mp)
    /\ d !! "description" = Some (CScalar (SStr ""))
    /\ d !! "doi" = None
    /\ d !! "default_Ne" = Some (CScalar (SNum (Fin 100)))
    /\ d !! "pulses"
       = Some (CRecords [pulse_asdict (Pulse.mk "A" "B" (Fin 50) (Fin (1 # 2)))]).
Proof.
  destruct (asdict_compact_ok w_ab_mp built_w_ab_mp) as [d Hd];
    [by vm_compute |].
  exists d. split; [exact Hd |].
  destruct (asdict_compact_keys w_ab_mp w_ab_mp d Hd)
    as (_ & H1 & _ & _ & H2 & H3 & _ & _ & H4).
  split; [exact H1 |]. split; [exact H2 |]. split; [exact H3 | exact H4].
Defined.

Lemma num_lt_neq_l (a b : Number) : num_lt a b = true -> num_eq a b = false.
Proof.
  destruct a as [x|], b as [y|]; simpl; try done.
  rewrite Qlt_bool_iff. intros H.
  destruct (Qeq_bool x y) eqn:E; [| done].
  apply Qeq_bool_iff in E. rewrite E in H. by apply Qlt_irrefl in H.
Qed.

Lemma foldM_app {S A B} (f : B -> A -> M S B) (b : B) (l1 l2 : list A) (s : S) :
  foldM f b (l1 ++ l2) s =
    match foldM f b l1 s with
    | (Ok b1, s1) => foldM f b1 l2 s1
    | (Raise x, s1) => (Raise x, s1)
    end.
Proof.
  revert b s. induction l1 as [|a l1 IH]; intros b s; simpl; [done |].
  unfold bind. destruct (f b a s) as [[b1|x] s1]; [apply IH | done].
Qed.

(** A key that is not in [m_dict] goes last; the key of the last item
    extends that item. *)
Lemma m_dict_append_fresh (key : ID * ID) (m : Migration.t)
    (m_dict : list ((ID * ID) * list Migration.t)) :
  key ∉ m_dict.*1 -> m_dict_append key m m_dict = m_dict ++ [(key, [m])].
Proof.
  induction m_dict as [|[k l] rest IH]; simpl; [done |].
  rewrite not_elem_of_cons. intros [Hne Hnin].
  rewrite bool_decide_eq_false_2 by congruence. by rewrite IH.
Qed.

Lemma m_dict_append_last (key : ID * ID) (m : Migration.t) (l : list Migration.t)
    (m_dict : list ((ID * ID) * list Migration.t)) :
  key ∉ m_dict.*1 ->
  m_dict_append key m (m_dict ++ [(key, l)]) = m_dict ++ [(key, l ++ [m])].
Proof.
  induction m_dict as [|[k l0] rest IH]; simpl.
  - intros _. by rewrite bool_decide_eq_true_2.
  - rewrite not_elem_of_cons. intros [Hne Hnin].
    rewrite bool_decide_eq_false_2 by congruence. by rewrite IH.
Qed.

Lemma m_dict_of_app (ms new : list Migration.t) :
  m_dict_of (ms ++ new) =
    fold_left
      (fun m_dict migration =>
         m_dict_append (Migration.source migration, Migration.dest migration)
                       migration m_dict)
      new (m_dict_of ms).
Proof. unfold m_dict_of. by rewrite fold_left_app. Qed.

Lemma m_dict_of_keys (ms : list Migration.t) (key : ID * ID) :
  key ∈ (m_dict_of ms).*1 ->
  exists m, m ∈ ms /\ (Migration.source m, Migration.dest m) = key.
Proof.
  intros Hin. apply list_elem_of_fmap in Hin as ([k l] & -> & Hin).
  destruct (proj1 (Forall_forall _ _) (m_dict_of_ok ms) _ Hin) as [Hne Hall].
  simpl in *. destruct l as [|m l]; [done |].
  exists m. apply Hall. by left.
Qed.

(** The records of a first [migration] call between [source] and [dest]
    form the last item of [m_dict]. *)
Lemma m_dict_of_new_pair (ms : list Migration.t) (source dest : ID)
    (m1 : Migration.t) (rest : list Migration.t) :
  (forall m, m ∈ ms ->
     (Migration.source m, Migration.dest m) <> (source, dest)) ->
  Forall (fun m => (Migration.source m, Migration.dest m) = (source, dest))
         (m1 :: rest) ->
  m_dict_of (ms ++ m1 :: rest) = m_dict_of ms ++ [((source, dest), m1 :: rest)].
Proof.
  intros Hnew Hall. rewrite m_dict_of_app.
  assert (Hnin : (source, dest) ∉ (m_dict_of ms).*1).
  { intros Hin. apply m_dict_of_keys in Hin as (m & Hm & Hk). by apply (Hnew m). }
  apply Forall_cons in Hall as [H1 Hall]. simpl. rewrite H1.
  rewrite (m_dict_append_fresh _ _ _ Hnin).
  change (m1 :: rest) with ([m1] ++ rest).
  generalize [m1] as acc. induction Hall as [|m rest Hm _ IH]; intros acc; simpl.
  - by rewrite app_nil_r.
  - rewrite Hm, (m_dict_append_last _ _ _ _ Hnin), IH.
    by rewrite <- app_assoc.
Qed.

(** [check_time_intersection] reads the id index and the epochs only. *)
Lemma check_time_intersection_ext (w w2 : World) (id1 id2 : ID)
    (time : option Number) (closed : bool) :
  heap w2 = heap w -> _deme_map (graph w2) = _deme_map (graph w) ->
  check_time_intersection id1 id2 time closed w2
  = (fst (check_time_intersection id1 id2 time closed w), w2).
Proof.
  intros Hh Hm. unfold check_time_intersection, bind.
  rewrite !getitem_eq, Hm.
  destruct (_deme_map (graph w) !! id1) as [d1|]; [| done].
  destruct (_deme_map (graph w) !! id2) as [d2|]; [| done].
  rewrite (on_heap_pure _ _ w (start_time_eq (heap w) d1)).
  rewrite (on_heap_pure _ _ w2 (start_time_eq (heap w2) d1)), Hh.
  destruct (head (Deme.epochs d1)) as [l1|]; [| done].
  destruct (heap w !! l1) as [e1|]; [| done].
  rewrite (on_heap_pure _ _ w (start_time_eq (heap w) d2)).
  rewrite (on_heap_pure _ _ w2 (start_time_eq (heap w2) d2)), Hh.
  destruct (head (Deme.epochs d2)) as [l2|]; [| done].
  destruct (heap w !! l2) as [e2|]; [| done].
  rewrite (on_heap_pure _ _ w (end_time_eq (heap w) d1)).
  rewrite (on_heap_pure _ _ w2 (end_time_eq (heap w2) d1)), Hh.
  destruct (last (Deme.epochs d1)) as [l1'|]; [| done].
  destruct (heap w !! l1') as [e1'|]; [| done].
  rewrite (on_heap_pure _ _ w (end_time_eq (heap w) d2)).
  rewrite (on_heap_pure _ _ w2 (end_time_eq (heap w2) d2)), Hh.
  destruct (last (Deme.epochs d2)) as [l2'|]; [| done].
  destruct (heap w !! l2') as [e2'|]; [| done].
  destruct (Epoch.end_time e1'), (Epoch.end_time e2'); try done.
  destruct time as [time|]; [| done].
  by destruct (_ || _).
Qed.

(** The loop over the items of [m_dict] gives the same list whatever
    the migrations of the graph are. *)
Lemma compact_migrations_loop_ext (w : World) (ms : list Migration.t)
    (items : list ((ID * ID) * list Migration.t))
    (m_list0 : list (gmap string scalar)) :
  foldM (fun m_list (item : (ID * ID) * list Migration.t) =>
           let source := fst (fst item) in
           let dest := snd (fst item) in
           lo_hi <- check_time_intersection source dest None false ;;
           entries <- pure (compact_sublist source dest (fst lo_hi)
                              (snd lo_hi) (snd item)) ;;
           ret (m_list ++ entries))
        m_list0 items (add_migrations ms w)
  = (fst (foldM (fun m_list (item : (ID * ID) * list Migration.t) =>
                   let source := fst (fst item) in
                   let dest := snd (fst item) in
                   lo_hi <- check_time_intersection source dest None false ;;
                   entries <- pure (compact_sublist source dest (fst lo_hi)
                                      (snd lo_hi) (snd item)) ;;
                   ret (m_list ++ entries))
                m_list0 items w),
     add_migrations ms w).
Proof.
  match goal with |- foldM ?f _ _ _ = _ => set (F := f) end.
  assert (HF : forall acc item,
            F acc item (add_migrations ms w)
            = (fst (F acc item w), add_migrations ms w)
            /\ snd (F acc item w) = w).
  { intros acc [[s d] l]. subst F. simpl. unfold bind.
    rewrite (check_time_intersection_ext w (add_migrations ms w)) by done.
    pose proof (check_time_intersection_pure w s d None false) as Hp.
    destruct (check_time_intersection s d None false w) as [[lo_hi|x] w1];
      simpl in Hp; subst w1; simpl; [| done].
    unfold pure. by destruct (compact_sublist _ _ _ _ _). }
  clearbody F. revert m_list0.
  induction items as [|item items IH]; intros m_list0; cbn [foldM]; [done |].
  unfold bind. destruct (HF m_list0 item) as [-> Hp].
  destruct (F m_list0 item w) as [[b1|x] w1]; simpl in *; subst; [| done].
  apply IH.
Qed.

(** The records of one [migration] call with a nonzero rate fold into
    one dict. *)
Lemma migration_records_entry (source dest : ID) (rate : Number)
    (start_time end_time : option Number) (lo hi : Number) :
  num_eq rate (Fin 0) = false ->
  from_option (inside false lo hi) true end_time = true ->
  exists e,
    compact_sublist source dest lo hi
      (Migration.mk source dest (default lo start_time) rate
       :: match end_time with
          | Some t => [Migration.mk source dest t (Fin 0)]
          | None => []
          end) = Ok [e]
    /\ e !! "source" = Some (SStr source)
    /\ e !! "dest" = Some (SStr dest)
    /\ e !! "rate" = Some (SNum rate)
    /\ e !! "start_time" = (if num_eq (default lo start_time) lo then None
                           else Some (SNum (default lo start_time)))
    /\ e !! "end_time" = SNum <$> end_time.
Proof.
  intros Hrate Het. destruct end_time as [t|]; simpl in *.
  - rewrite Hrate. simpl. eexists. split; [reflexivity |].
    unfold inside in Het. apply andb_true_iff in Het as [_ Hlt].
    apply num_lt_neq_l in Hlt.
    unfold with_end_time, migration_entry. simpl. rewrite Hlt. simpl.
    destruct (num_eq (default lo start_time) lo); simpl;
      repeat split; by simplify_map_eq.
  - eexists. split; [reflexivity |].
    unfold migration_entry. simpl.
    destruct (num_eq (default lo start_time) lo); simpl;
      repeat split; by simplify_map_eq.
Qed.

(** X24. Take a graph whose compact migrations list is
    [m_list] and which has no migration yet from [source] to [dest].
    After a successful [migration(source, dest, rate, start_time,
    end_time)] for which [rate != 0] is true, the compact migrations list
    is [m_list] followed by exactly one dict: its [source], [dest] and
    [rate] are the arguments; with [time] the recorded start (the argument
    [start_time], or the lower bound [time_lo] of the coexistence interval
    when it was omitted), the key [start_time] holds [time] when
    [time != time_lo] is true and is absent otherwise; and [end_time] is
    the argument (the key is absent when it was omitted). *)
Theorem compact_migration_round_trip (w w' : World) (source dest : ID)
    (rate : Number) (start_time end_time : option Number)
    (m_list : list (gmap string scalar)) :
  (forall m, m ∈ migrations (graph w) ->
     (Migration.source m, Migration.dest m) <> (source, dest)) ->
  num_eq rate (Fin 0) = false ->
  asdict_compact_migrations w = (Ok m_list, w) ->
  migration source dest rate start_time end_time w = (Ok tt, w') ->
  exists time_lo time_hi e,
    coexistence w source dest = Some (time_lo, time_hi)
    /\ asdict_compact_migrations w' = (Ok (m_list ++ [e]), w')
    /\ e !! "source" = Some (SStr source)
    /\ e !! "dest" = Some (SStr dest)
    /\ e !! "rate" = Some (SNum rate)
    /\ e !! "start_time"
       = (if num_eq (default time_lo start_time) time_lo then None
          else Some (SNum (default time_lo start_time)))
    /\ e !! "end_time" = SNum <$> end_time.
Proof.
  intros Hnew Hrate Hold Hm.
  apply migration_ok_inv in Hm as (lo & hi & Hco & Hst & Het & ->).
  pose proof Hco as Hco'.
  apply coexistence_Some in Hco'
    as (s1 & s2 & e1 & e2 & H1 & H2 & H3 & H4 & Hlo & Hhi).
  destruct (migration_records_entry source dest rate start_time end_time lo hi
              Hrate Het) as (e & He & Hkeys).
  exists lo, hi, e. split; [done |]. split; [| done].
  unfold migration_records. simpl. rewrite Hco.
  set (m1 := Migration.mk source dest (default lo start_time) rate) in *.
  set (rest := match end_time with
               | Some t => [Migration.mk source dest t (Fin 0)]
               | None => []
               end) in *.
  unfold asdict_compact_migrations in *.
  match type of Hold with context [foldM ?f] => set (F := f) in * end.
  change (foldM F [] (m_dict_of (migrations (graph w))) w = (Ok m_list, w))
    in Hold.
  change (foldM F [] (m_dict_of (migrations (graph w) ++ m1 :: rest))
            (add_migrations (m1 :: rest) w)
          = (Ok (m_list ++ [e]), add_migrations (m1 :: rest) w)).
  rewrite (m_dict_of_new_pair _ source dest m1 rest Hnew).
  2:{ subst m1 rest. destruct end_time; by repeat constructor. }
  pose proof (compact_migrations_loop_ext w (m1 :: rest)
                (m_dict_of (migrations (graph w))) []) as Hext.
  change (foldM F [] (m_dict_of (migrations (graph w)))
            (add_migrations (m1 :: rest) w)
          = (fst (foldM F [] (m_dict_of (migrations (graph w))) w),
             add_migrations (m1 :: rest) w)) in Hext.
  rewrite foldM_app, Hext, Hold. subst F. cbn [foldM fst snd].
  unfold bind at 1. unfold bind at 1.
  rewrite (check_time_intersection_eq (add_migrations (m1 :: rest) w)
             _ _ _ _ _ _ _ _ H1 H2 H3 H4).
  rewrite <- Hlo, <- Hhi. cbn [fst snd].
  cbn [from_option fst snd]. by rewrite He.
Qed.

(** A migration from [A] to [B] that is switched off at time [50]. *)
Lemma compact_migration_round_trip_witness :
  (forall m, m ∈ migrations (graph w_ab) ->
     (Migration.source m, Migration.dest m) <> ("A", "B"))
  /\ num_eq (Fin 1) (Fin 0) = false
  /\ asdict_compact_migrations w_ab = (Ok [], w_ab)
  /\ migration "A" "B" (Fin 1) None (Some (Fin 50)) w_ab
     = (Ok tt, after (migration "A" "B" (Fin 1) None (Some (Fin 50))) w_ab)
  /\ exists time_lo time_hi e,
       coexistence w_ab "A" "B" = Some (time_lo, time_hi)
       /\ asdict_compact_migrations
            (after (migration "A" "B" (Fin 1) None (Some (Fin 50))) w_ab)
          = (Ok ([] ++ [e]),
             after (migration "A" "B" (Fin 1) None (Some (Fin 50))) w_ab)
       /\ e !! "source" = Some (SStr "A")
       /\ e !! "dest" = Some (SStr "B")
       /\ e !! "rate" = Some (SNum (Fin 1))
       /\ e !! "start_time"
          = (if num_eq (default time_lo None) time_lo then None
             else Some (SNum (default time_lo None)))
       /\ e !! "end_time" = SNum <$> Some (Fin 50).
Proof.
  assert (H0 : forall m, m ∈ migrations (graph w_ab) ->
                 (Migration.source m, Migration.dest m) <> ("A", "B")).
  { intros m Hm. by apply elem_of_nil in Hm. }
  assert (H1 : num_eq (Fin 1) (Fin 0) = false) by reflexivity.
  assert (H2 : asdict_compact_migrations w_ab = (Ok [], w_ab)) by reflexivity.
  assert (H3 : migration "A" "B" (Fin 1) None (Some (Fin 50)) w_ab
               = (Ok tt, after (migration "A" "B" (Fin 1) None (Some (Fin 50)))
                           w_ab)) by (by vm_compute).
  split; [exact H0 |]. split; [exact H1 |]. split; [exact H2 |].
  split; [exact H3 |].
  exact (compact_migration_round_trip _ _ _ _ _ _ _ _ H0 H1 H2 H3).
Defined.
